(** * mcp-example: the user-store server and its interactive driver

    A shallow embedding of [server.ts] (resources [users://all] and
    [users://{userId}/profile], tools [create-user] and
    [create-random-user], helper [createUser]) and of [client.ts] (the
    sampling handler, the menu loop, the query and autonomous-task flows),
    followed by the properties proved about them.

    Layout: the JavaScript values the program manipulates (module [JS]),
    the effect monad (module [Eff]), the server (module [Server]), the
    driver (module [Client]), then the lemmas and theorems. *)

From Stdlib Require Import String Ascii.
From Stdlib Require Import List ZArith NArith Bool Lia.
From Stdlib Require DecimalN.
Import ListNotations.

Set Implicit Arguments.

(* ================================================================== *)
(** * JavaScript values *)
(* ================================================================== *)

Module JS.

(** A JavaScript string is a sequence of UTF-16 code units. *)
Abbreviation code_unit := N (only parsing).
Abbreviation jsstring := (list N) (only parsing).

(** [str "abc"] is the JavaScript string with the same characters
    (each character of the literal is one code unit below 256). *)
Fixpoint str (s : string) : jsstring :=
  match s with
  | EmptyString => []
  | String c r => N_of_ascii c :: str r
  end.

Definition ch (c : ascii) : code_unit := N_of_ascii c.

(** The double quote character. *)
Definition dquote : code_unit := 34%N.

(** [strq] is [str] with every apostrophe of the literal standing for a
    double quote, to spell JSON texts. *)
Definition strq (s : string) : jsstring :=
  map (fun c => if (c =? 39)%N then dquote else c) (str s).

Fixpoint jsstring_eqb (a b : jsstring) : bool :=
  match a, b with
  | [], [] => true
  | x :: a', y :: b' => N.eqb x y && jsstring_eqb a' b'
  | _, _ => false
  end.

(** ** Prefixes, suffixes, and the two anchored regular expressions *)

Fixpoint startsWith (p s : jsstring) : bool :=
  match p, s with
  | [], _ => true
  | x :: p', y :: s' => N.eqb x y && startsWith p' s'
  | _ :: _, [] => false
  end.

Definition endsWith (p s : jsstring) : bool := startsWith (rev p) (rev s).

(** [s.replace(/^p/, empty)] for a literal pattern [p]: the pattern can only
    match at index 0, and [replace] without the [g] flag rewrites that one
    match. *)
Definition replace_at_start (p s : jsstring) : jsstring :=
  if startsWith p s then skipn (length p) s else s.

(** [s.replace(/p$/, empty)] for a literal pattern [p] (no [m] flag: [$] is
    the end of the input). *)
Definition replace_at_end (p s : jsstring) : jsstring :=
  if endsWith p s then rev (skipn (length p) (rev s)) else s.

(** ** [String.prototype.trim] *)

(** WhiteSpace and LineTerminator code points of ECMAScript: TAB, LF, VT,
    FF, CR, SP, NBSP, the Unicode [Zs] category, LS, PS and the BOM. *)
Definition is_white (c : code_unit) : bool :=
  ((9 <=? c) && (c <=? 13) || (c =? 32) || (c =? 160) || (c =? 5760)
   || (8192 <=? c) && (c <=? 8202) || (c =? 8232) || (c =? 8233)
   || (c =? 8239) || (c =? 8287) || (c =? 12288) || (c =? 65279))%N.

Fixpoint trimStart (s : jsstring) : jsstring :=
  match s with
  | c :: r => if is_white c then trimStart r else s
  | [] => []
  end.

Definition trimEnd (s : jsstring) : jsstring := rev (trimStart (rev s)).

Definition trim (s : jsstring) : jsstring := trimEnd (trimStart s).

(** [Array.prototype.join]. *)
Fixpoint join (sep : jsstring) (l : list jsstring) : jsstring :=
  match l with
  | [] => []
  | [x] => x
  | x :: r => x ++ sep ++ join sep r
  end.

(** ** Numbers

    A Number is kept as the exact decimal it denotes: sign, significant
    digits [d1 ... dk] (most significant first, no leading and no trailing
    zero) and the position [point] of the decimal point, the value being
    [0.d1...dk * 10^point].  Zero has no digits.  An IEEE double holds
    every such decimal of at most 15 significant digits exactly enough to
    print it back, so on record counts and identifiers the model and the
    engine agree; rounding of longer literals is not modelled. *)
Record number := mkNumber { neg : bool; digits : list N; point : Z }.

Definition zero : number := mkNumber false [] 0.

Fixpoint drop_zeros (ds : list N) : list N :=
  match ds with
  | d :: r => if (d =? 0)%N then drop_zeros r else ds
  | [] => []
  end.

(** The canonical number for [+/- ds * 10^e], [ds] read as a decimal
    integer. *)
Definition make_number (sign : bool) (ds : list N) (e : Z) : number :=
  let lead := drop_zeros ds in
  let sig := rev (drop_zeros (rev lead)) in
  match sig with
  | [] => zero
  | _ => mkNumber sign sig (Z.of_nat (length lead) + e)
  end.

Fixpoint uint_digits (u : Decimal.uint) : list N :=
  match u with
  | Decimal.Nil => []
  | Decimal.D0 r => 0%N :: uint_digits r
  | Decimal.D1 r => 1%N :: uint_digits r
  | Decimal.D2 r => 2%N :: uint_digits r
  | Decimal.D3 r => 3%N :: uint_digits r
  | Decimal.D4 r => 4%N :: uint_digits r
  | Decimal.D5 r => 5%N :: uint_digits r
  | Decimal.D6 r => 6%N :: uint_digits r
  | Decimal.D7 r => 7%N :: uint_digits r
  | Decimal.D8 r => 8%N :: uint_digits r
  | Decimal.D9 r => 9%N :: uint_digits r
  end.

(** Decimal digits of a natural number; [0] has the single digit 0. *)
Definition decimal_digits (n : N) : list N := uint_digits (N.to_uint n).

Definition number_of_Z (z : Z) : number :=
  make_number (z <? 0)%Z (decimal_digits (Z.abs_N z)) 0.

Definition number_of_nat (n : nat) : number := number_of_Z (Z.of_nat n).

Definition number_eqb (a b : number) : bool :=
  Bool.eqb (neg a) (neg b)
  && jsstring_eqb (digits a) (digits b)
  && (point a =? point b)%Z.

Definition digit_char (d : N) : code_unit := (48 + d)%N.

Definition zeros (n : nat) : jsstring := repeat (ch "0") n.

(** [Number::toString] in radix 10, with [k] the number of digits and [n]
    the position of the point. *)
Definition number_toString (x : number) : jsstring :=
  match digits x with
  | [] => str "0"
  | d1 :: rest =>
      let ds := map digit_char (digits x) in
      let k := Z.of_nat (length ds) in
      let n := point x in
      let body :=
        if ((k <=? n) && (n <=? 21))%Z then
          ds ++ zeros (Z.to_nat (n - k))
        else if ((0 <? n) && (n <=? 21))%Z then
          firstn (Z.to_nat n) ds ++ str "." ++ skipn (Z.to_nat n) ds
        else if ((-6 <? n) && (n <=? 0))%Z then
          str "0." ++ zeros (Z.to_nat (- n)) ++ ds
        else
          let e := (n - 1)%Z in
          let sign := if (e <? 0)%Z then str "-" else str "+" in
          let expo := map digit_char (decimal_digits (Z.abs_N e)) in
          match rest with
          | [] => [digit_char d1] ++ str "e" ++ sign ++ expo
          | _ => [digit_char d1] ++ str "." ++ map digit_char rest
                   ++ str "e" ++ sign ++ expo
          end
      in
      if neg x then str "-" ++ body else body
  end.

(** ** [parseInt] with the radix left undefined *)

Definition is_digit (c : code_unit) : bool := ((48 <=? c) && (c <=? 57))%N.

(** The value of [c] as a digit of the given radix, if it is one. *)
Definition digit_value (radix : N) (c : code_unit) : option N :=
  let v :=
    if ((48 <=? c) && (c <=? 57))%N then Some (c - 48)%N
    else if ((97 <=? c) && (c <=? 122))%N then Some (c - 87)%N
    else if ((65 <=? c) && (c <=? 90))%N then Some (c - 55)%N
    else None in
  match v with
  | Some d => if (d <? radix)%N then Some d else None
  | None => None
  end.

(** The digits of the longest prefix of [s] made of radix-[radix] digits. *)
Fixpoint radix_prefix (radix : N) (s : jsstring) : list N :=
  match s with
  | c :: r =>
      match digit_value radix c with
      | Some d => d :: radix_prefix radix r
      | None => []
      end
  | [] => []
  end.

Definition radix_value (radix : N) (ds : list N) : N :=
  fold_left (fun acc d => acc * radix + d)%N ds 0%N.

(** [parseInt(s)]: leading white space is skipped, one sign is read, a
    [0x]/[0X] prefix selects radix 16 (radix 10 otherwise), and the longest
    run of digits is the result; [None] stands for [NaN].  The integer is
    kept exact: it is the Number the engine returns whenever its magnitude
    is at most 2^53, the range in which every integer is a Number; beyond
    it the engine rounds to the nearest Number, which is not modelled.
    Statements that compare the result with the ids of a store say which
    range they cover. *)
Definition parseInt (s : jsstring) : option Z :=
  let s1 := trimStart s in
  let '(sign, s2) :=
    match s1 with
    | c :: r =>
        if (c =? ch "-")%N then ((-1)%Z, r)
        else if (c =? ch "+")%N then (1%Z, r)
        else (1%Z, s1)
    | [] => (1%Z, s1)
    end in
  let '(radix, s3) :=
    if startsWith (str "0x") s2 || startsWith (str "0X") s2
    then (16%N, skipn 2 s2) else (10%N, s2) in
  match radix_prefix radix s3 with
  | [] => None
  | ds => Some (sign * Z.of_N (radix_value radix ds))%Z
  end.

(** ** JSON values and objects *)

#[local] Unset Elimination Schemes.
Inductive json :=
| JNull
| JBool (b : bool)
| JNum (x : number)
| JStr (s : jsstring)
| JArr (items : list json)
| JObj (props : list (jsstring * json)).
#[local] Set Elimination Schemes.

(** An ordinary object: its own enumerable data properties in the order
    [Object.keys] lists them (array-index keys ascending, then the other
    keys in insertion order); keys are pairwise distinct. *)
Definition object := list (jsstring * json).

Fixpoint obj_get (k : jsstring) (o : object) : option json :=
  match o with
  | [] => None
  | (k', v) :: r => if jsstring_eqb k k' then Some v else obj_get k r
  end.

(** A canonical array index: the decimal spelling of an integer below
    [2^32 - 1], without superfluous leading zero. *)
Definition array_index (k : jsstring) : option N :=
  match k with
  | [] => None
  | c :: r =>
      if forallb is_digit k
         && (negb (c =? 48)%N || match r with [] => true | _ => false end)
      then
        let v := radix_value 10 (map (fun d => d - 48)%N k) in
        if (v <? 4294967295)%N then Some v else None
      else None
  end.

Fixpoint obj_replace (k : jsstring) (v : json) (o : object) : object :=
  match o with
  | [] => []
  | (k', v') :: r =>
      if jsstring_eqb k k' then (k', v) :: r
      else (k', v') :: obj_replace k v r
  end.

Fixpoint obj_insert_index (i : N) (k : jsstring) (v : json) (o : object)
  : object :=
  match o with
  | [] => [(k, v)]
  | (k', v') :: r =>
      match array_index k' with
      | Some j =>
          if (j <? i)%N then (k', v') :: obj_insert_index i k v r
          else (k, v) :: o
      | None => (k, v) :: o
      end
  end.

(** [o[k] = v] on an ordinary object (CreateDataProperty). *)
Definition obj_set (k : jsstring) (v : json) (o : object) : object :=
  match obj_get k o with
  | Some _ => obj_replace k v o
  | None =>
      match array_index k with
      | Some i => obj_insert_index i k v o
      | None => o ++ [(k, v)]
      end
  end.

Definition index_key (i : nat) : jsstring :=
  map digit_char (decimal_digits (N.of_nat i)).

Definition indexed (A : Type) (f : A -> json) (l : list A) : object :=
  map (fun p => (index_key (fst p), f (snd p)))
      (combine (seq 0 (length l)) l).

(** The own enumerable properties that object spread copies from a value:
    those of an object, the elements of an array, the one-character
    strings of a string, nothing for [null], booleans and numbers. *)
Definition own_properties (v : json) : object :=
  match v with
  | JObj o => o
  | JArr l => indexed (fun x => x) l
  | JStr s => indexed (fun c => JStr [c]) s
  | _ => []
  end.

(** [{ ...target, ...src }] applied to an already built [target]. *)
Definition spread (target : object) (src : json) : object :=
  fold_left (fun o kv => obj_set (fst kv) (snd kv) o)
            (own_properties src) target.

(** ** [JSON.parse]

    A recursive-descent reader of the JSON grammar (ECMA-404).  Every
    function returns the value read and the unread rest of the text, or
    [None] where [JSON.parse] throws a [SyntaxError]. *)

(** JSON white space: TAB, LF, CR and SP only. *)
Definition is_json_ws (c : code_unit) : bool :=
  ((c =? 9) || (c =? 10) || (c =? 13) || (c =? 32))%N.

Fixpoint skip_ws (s : jsstring) : jsstring :=
  match s with
  | c :: r => if is_json_ws c then skip_ws r else s
  | [] => []
  end.

(** Longest prefix of decimal digits (as digit values) and the rest. *)
Fixpoint span_digits (s : jsstring) : list N * jsstring :=
  match s with
  | c :: r =>
      if is_digit c then
        let '(ds, rest) := span_digits r in ((c - 48)%N :: ds, rest)
      else ([], s)
  | [] => ([], [])
  end.

(** number = [-] int [frac] [exp], read part by part. *)
Definition read_minus (s : jsstring) : bool * jsstring :=
  match s with
  | c :: r => if (c =? ch "-")%N then (true, r) else (false, s)
  | [] => (false, s)
  end.

(** int: a single [0], or a digit run that does not start with [0]. *)
Definition read_int (s : jsstring) : option (list N * jsstring) :=
  match s with
  | c :: r =>
      if (c =? ch "0")%N then Some ([0%N], r)
      else if is_digit c then Some (span_digits s)
      else None
  | [] => None
  end.

(** frac: nothing, or a point and at least one digit. *)
Definition read_frac (s : jsstring) : option (list N * jsstring) :=
  match s with
  | c :: r =>
      if (c =? ch ".")%N then
        match span_digits r with
        | ([], _) => None
        | (ds, rest) => Some (ds, rest)
        end
      else Some ([], s)
  | [] => Some ([], s)
  end.

(** exp: nothing, or [e]/[E], an optional sign and at least one digit. *)
Definition read_exp (s : jsstring) : option (Z * jsstring) :=
  match s with
  | c :: r =>
      if ((c =? ch "e") || (c =? ch "E"))%N then
        let '(esign, r1) :=
          match r with
          | c1 :: r' =>
              if (c1 =? ch "-")%N then ((-1)%Z, r')
              else if (c1 =? ch "+")%N then (1%Z, r')
              else (1%Z, r)
          | [] => (1%Z, r)
          end in
        match span_digits r1 with
        | ([], _) => None
        | (ds, rest) => Some ((esign * Z.of_N (radix_value 10 ds))%Z, rest)
        end
      else Some (0%Z, s)
  | [] => Some (0%Z, s)
  end.

Definition parse_number (s : jsstring) : option (number * jsstring) :=
  let '(sign, s1) := read_minus s in
  match read_int s1 with
  | None => None
  | Some (int_ds, s2) =>
      match read_frac s2 with
      | None => None
      | Some (frac_ds, s3) =>
          match read_exp s3 with
          | None => None
          | Some (e, s4) =>
              Some (make_number sign (int_ds ++ frac_ds)
                                (e - Z.of_nat (length frac_ds)), s4)
          end
      end
  end.

Definition hex4 (a b c d : code_unit) : option code_unit :=
  match digit_value 16 a, digit_value 16 b,
        digit_value 16 c, digit_value 16 d with
  | Some x, Some y, Some z, Some w =>
      Some (((x * 16 + y) * 16 + z) * 16 + w)%N
  | _, _, _, _ => None
  end.

Definition simple_escape (c : code_unit) : option code_unit :=
  if (c =? dquote)%N then Some (dquote)
  else if (c =? ch "\")%N then Some (ch "\")
  else if (c =? ch "/")%N then Some (ch "/")
  else if (c =? ch "b")%N then Some 8%N
  else if (c =? ch "f")%N then Some 12%N
  else if (c =? ch "n")%N then Some 10%N
  else if (c =? ch "r")%N then Some 13%N
  else if (c =? ch "t")%N then Some 9%N
  else None.

(** The characters of a string after its opening quote, up to and
    including the closing quote.  Each [\uXXXX] yields one code unit. *)
Fixpoint parse_string_body (s : jsstring) : option (jsstring * jsstring) :=
  match s with
  | [] => None
  | c :: r =>
      if (c =? dquote)%N then Some ([], r)
      else if (c =? ch "\")%N then
        match r with
        | [] => None
        | e :: r1 =>
            if (e =? ch "u")%N then
              match r1 with
              | h1 :: h2 :: h3 :: h4 :: r2 =>
                  match hex4 h1 h2 h3 h4, parse_string_body r2 with
                  | Some u, Some (body, rest) => Some (u :: body, rest)
                  | _, _ => None
                  end
              | _ => None
              end
            else
              match simple_escape e, parse_string_body r1 with
              | Some u, Some (body, rest) => Some (u :: body, rest)
              | _, _ => None
              end
        end
      else if (c <? 32)%N then None
      else
        match parse_string_body r with
        | Some (body, rest) => Some (c :: body, rest)
        | None => None
        end
  end.

(** The object a member list denotes: members are defined in source
    order, a repeated key keeping its last value. *)
Definition object_of_members (ms : list (jsstring * json)) : object :=
  fold_left (fun o kv => obj_set (fst kv) (snd kv) o) ms [].

Fixpoint parse_value (fuel : nat) (s : jsstring) : option (json * jsstring) :=
  match fuel with
  | O => None
  | S f =>
      match skip_ws s with
      | [] => None
      | c :: r =>
          if (c =? ch "{")%N then
            match skip_ws r with
            | c1 :: r1 =>
                if (c1 =? ch "}")%N then Some (JObj [], r1)
                else
                  match parse_members f r with
                  | Some (ms, rest) => Some (JObj (object_of_members ms), rest)
                  | None => None
                  end
            | [] => None
            end
          else if (c =? ch "[")%N then
            match skip_ws r with
            | c1 :: r1 =>
                if (c1 =? ch "]")%N then Some (JArr [], r1)
                else
                  match parse_elements f r with
                  | Some (vs, rest) => Some (JArr vs, rest)
                  | None => None
                  end
            | [] => None
            end
          else if (c =? dquote)%N then
            match parse_string_body r with
            | Some (body, rest) => Some (JStr body, rest)
            | None => None
            end
          else if startsWith (str "true") (c :: r) then
            Some (JBool true, skipn 4 (c :: r))
          else if startsWith (str "false") (c :: r) then
            Some (JBool false, skipn 5 (c :: r))
          else if startsWith (str "null") (c :: r) then
            Some (JNull, skipn 4 (c :: r))
          else
            match parse_number (c :: r) with
            | Some (x, rest) => Some (JNum x, rest)
            | None => None
            end
      end
  end

(** One or more values separated by commas, then the closing bracket. *)
with parse_elements (fuel : nat) (s : jsstring)
  : option (list json * jsstring) :=
  match fuel with
  | O => None
  | S f =>
      match parse_value f s with
      | None => None
      | Some (v, r) =>
          match skip_ws r with
          | c :: r1 =>
              if (c =? ch ",")%N then
                match parse_elements f r1 with
                | Some (vs, rest) => Some (v :: vs, rest)
                | None => None
                end
              else if (c =? ch "]")%N then Some ([v], r1)
              else None
          | [] => None
          end
      end
  end

(** One or more [string : value] members separated by commas, then the
    closing brace. *)
with parse_members (fuel : nat) (s : jsstring)
  : option (list (jsstring * json) * jsstring) :=
  match fuel with
  | O => None
  | S f =>
      match skip_ws s with
      | q :: r =>
          if (q =? dquote)%N then
            match parse_string_body r with
            | None => None
            | Some (key, r1) =>
                match skip_ws r1 with
                | colon :: r2 =>
                    if (colon =? ch ":")%N then
                      match parse_value f r2 with
                      | None => None
                      | Some (v, r3) =>
                          match skip_ws r3 with
                          | c :: r4 =>
                              if (c =? ch ",")%N then
                                match parse_members f r4 with
                                | Some (ms, rest) =>
                                    Some ((key, v) :: ms, rest)
                                | None => None
                                end
                              else if (c =? ch "}")%N then
                                Some ([(key, v)], r4)
                              else None
                          | [] => None
                          end
                      end
                    else None
                | [] => None
                end
            end
          else None
      | [] => None
      end
  end.

(** [JSON.parse(text)]: one value, surrounded by JSON white space only.
    Every call of the reader consumes a character or descends one level,
    so twice the length of the text is fuel enough. *)
Definition JSON_parse (text : jsstring) : option json :=
  match parse_value (2 * length text + 2) text with
  | Some (v, rest) =>
      match skip_ws rest with
      | [] => Some v
      | _ => None
      end
  | None => None
  end.

(** ** [JSON.stringify] *)

Definition hex_char (d : N) : code_unit :=
  if (d <? 10)%N then (48 + d)%N else (87 + d)%N.

Definition unicode_escape (c : code_unit) : jsstring :=
  str "\u" ++ [hex_char (c / 4096); hex_char ((c / 256) mod 16);
               hex_char ((c / 16) mod 16); hex_char (c mod 16)]%N.

Definition is_high_surrogate (c : code_unit) : bool :=
  ((55296 <=? c) && (c <=? 56319))%N.
Definition is_low_surrogate (c : code_unit) : bool :=
  ((56320 <=? c) && (c <=? 57343))%N.

(** The inside of [QuoteJSONString]: short escapes, [\uXXXX] for the
    other control characters and for lone surrogates. *)
Fixpoint quote_chars (s : jsstring) : jsstring :=
  match s with
  | [] => []
  | c :: r =>
      if (c =? 8)%N then str "\b" ++ quote_chars r
      else if (c =? 9)%N then str "\t" ++ quote_chars r
      else if (c =? 10)%N then str "\n" ++ quote_chars r
      else if (c =? 12)%N then str "\f" ++ quote_chars r
      else if (c =? 13)%N then str "\r" ++ quote_chars r
      else if (c =? dquote)%N then ch "\" :: dquote :: quote_chars r
      else if (c =? ch "\")%N then str "\\" ++ quote_chars r
      else if (c <? 32)%N then unicode_escape c ++ quote_chars r
      else if is_high_surrogate c then
        match r with
        | d :: r' =>
            if is_low_surrogate d then c :: d :: quote_chars r'
            else unicode_escape c ++ quote_chars r
        | [] => unicode_escape c
        end
      else if is_low_surrogate c then unicode_escape c ++ quote_chars r
      else c :: quote_chars r
  end.

Definition quote (s : jsstring) : jsstring :=
  [dquote] ++ quote_chars s ++ [dquote].

Definition newline : jsstring := [10%N].

(** Brackets around the serialised parts, on one line when [gap] is
    empty and one part per indented line otherwise. *)
Definition wrap (opening closing gap indent : jsstring)
                (parts : list jsstring) : jsstring :=
  match parts with
  | [] => opening ++ closing
  | _ =>
      match gap with
      | [] => opening ++ join (str ",") parts ++ closing
      | _ =>
          let inner := indent ++ gap in
          opening ++ newline ++ inner
            ++ join (str "," ++ newline ++ inner) parts
            ++ newline ++ indent ++ closing
      end
  end.

(** [SerializeJSONProperty] with indentation unit [gap] at the current
    indentation [indent]. *)
Fixpoint serialize (gap indent : jsstring) (v : json) : jsstring :=
  match v with
  | JNull => str "null"
  | JBool true => str "true"
  | JBool false => str "false"
  | JNum x => number_toString x
  | JStr s => quote s
  | JArr items =>
      wrap (str "[") (str "]") gap indent
        ((fix elements (l : list json) : list jsstring :=
            match l with
            | [] => []
            | x :: r => serialize gap (indent ++ gap) x :: elements r
            end) items)
  | JObj props =>
      wrap (str "{") (str "}") gap indent
        ((fix members (l : list (jsstring * json)) : list jsstring :=
            match l with
            | [] => []
            | (k, x) :: r =>
                (quote k ++ str ":"
                   ++ match gap with [] => [] | _ => str " " end
                   ++ serialize gap (indent ++ gap) x) :: members r
            end) props)
  end.

(** [JSON.stringify(v)] and [JSON.stringify(v, null, n)]. *)
Definition JSON_stringify (v : json) : jsstring := serialize [] [] v.
Definition JSON_stringify_indent (n : nat) (v : json) : jsstring :=
  serialize (repeat (ch " ") (Nat.min n 10)) [] v.

End JS.

(* ================================================================== *)
(** * Effects *)
(* ================================================================== *)

Module Eff.

(** The outcome of an [async] function once awaited: a value, or the
    exception it threw (the rejection of its promise). *)
Inductive result (A : Type) :=
| Ok (a : A)
| Throw (e : JS.jsstring).
Arguments Ok {A} a.
Arguments Throw {A} e.

(** A computation over a world [W].  The world reached is returned in both
    outcomes: what was mutated before a [throw] stays mutated. *)
Definition M (W A : Type) := W -> result A * W.

Definition ret {W A} (a : A) : M W A := fun w => (Ok a, w).

Definition throw {W A} (e : JS.jsstring) : M W A := fun w => (Throw e, w).

Definition bind {W A B} (m : M W A) (k : A -> M W B) : M W B :=
  fun w =>
    match m w with
    | (Ok a, w') => k a w'
    | (Throw e, w') => (Throw e, w')
    end.

(** [try { body } catch { handler }]. *)
Definition try_catch {W A} (body handler : M W A) : M W A :=
  fun w =>
    match body w with
    | (Ok a, w') => (Ok a, w')
    | (Throw _, w') => handler w'
    end.

Definition gets {W A} (f : W -> A) : M W A := fun w => (Ok (f w), w).

Definition modify {W} (f : W -> W) : M W unit := fun w => (Ok tt, f w).

(** A promise taken without being awaited on the spot: what [m] does is
    done, and its outcome, value or exception, is kept for later. *)
Definition attempt {W A} (m : M W A) : M W (result A) :=
  fun w => let (r, w') := m w in (Ok r, w').

(** [for (const x of xs) { body(x) }]. *)
Fixpoint for_of {W A} (xs : list A) (body : A -> M W unit) : M W unit :=
  match xs with
  | [] => ret tt
  | x :: r => bind (body x) (fun _ => for_of r body)
  end.

Declare Scope eff_scope.
Delimit Scope eff_scope with eff.
Notation "x <- m ;; k" := (bind m (fun x => k))
  (at level 61, m at next level, right associativity) : eff_scope.
Notation "m ;; k" := (bind m (fun _ => k))
  (at level 61, right associativity) : eff_scope.

End Eff.

(* ================================================================== *)
(** * Protocol shapes shared by the server and the driver *)
(* ================================================================== *)

Module MCP.
Import JS.

(** The [content] of a message: the [type] tag is the constructor. *)
Inductive Content :=
| TextContent (text : jsstring)
| ImageContent (data mimeType : jsstring)
| AudioContent (data mimeType : jsstring)
| ResourceContent (uri : jsstring).

Definition content_type (c : Content) : jsstring :=
  match c with
  | TextContent _ => str "text"
  | ImageContent _ _ => str "image"
  | AudioContent _ _ => str "audio"
  | ResourceContent _ => str "resource"
  end.

(** A prompt or sampling message. *)
Record PromptMessage := { msg_role : jsstring; msg_content : Content }.

(** Parameters of [sampling/createMessage]. *)
Record CreateMessageRequest :=
  { messages : list PromptMessage; maxTokens : N }.

Record CreateMessageResult :=
  { role : jsstring; model : jsstring; stopReason : jsstring;
    content : Content }.

(** The result of a tool call, a list of [{ type: "text", text }] items. *)
Definition CallToolResult := list Content.

(** One entry of a resource read. *)
Record ResourceContents :=
  { uri : jsstring; text : jsstring; mimeType : jsstring }.

Definition ReadResourceResult := list ResourceContents.

End MCP.

(* ================================================================== *)
(** * The server ([server.ts]) *)
(* ================================================================== *)

Module Server.
Import JS Eff MCP.
Local Open Scope eff_scope.

(** What the handlers act on.  [allUsers] is the default export of the
    module [./data/users.json]: a JSON module is evaluated once, so every
    [import(...)] of it yields the same array object, and a [push] on it is
    seen by every later import.  [users_file] is the text last written to
    [./src/data/users.json]; [fs_error] is the error [fs.writeFile] rejects
    with, if the file cannot be written; [sampling] is the driver's answer
    to a [sampling/createMessage] request. *)
Record state := {
  allUsers : list object;
  users_file : jsstring;
  fs_error : option jsstring;
  sampling : CreateMessageRequest -> result CreateMessageResult
}.

Definition import_users : M state (list object) := gets allUsers.

(** [allUsers.push(user)] on the shared array. *)
Definition push (user : object) : M state unit :=
  modify (fun w => {| allUsers := allUsers w ++ [user];
                      users_file := users_file w;
                      fs_error := fs_error w;
                      sampling := sampling w |}).

(** [fs.writeFile("./src/data/users.json", data)]. *)
Definition writeFile (data : jsstring) : M state unit :=
  fun w =>
    match fs_error w with
    | Some e => (Throw e, w)
    | None => (Ok tt, {| allUsers := allUsers w;
                         users_file := data;
                         fs_error := fs_error w;
                         sampling := sampling w |})
    end.

(** [mcpServer.server.request({ method: "sampling/createMessage", ... })]. *)
Definition request (params : CreateMessageRequest)
  : M state CreateMessageResult :=
  fun w => (sampling w params, w).

Definition users_array (users : list object) : json := JArr (map JObj users).

(** Helper that adds a new user to the database and returns its id.
    [userData] is whatever value the caller passes: the parameter type is
    erased at run time.  What is written is the shared array as it is
    after the [push]. *)
Definition createUser (userData : json) : M state nat :=
  all <- import_users ;;
  let newUserId := length all + 1 in
  push (spread [(str "id", JNum (number_of_nat newUserId))] userData) ;;
  all' <- import_users ;;
  writeFile (JSON_stringify_indent 2 (users_array all')) ;;
  ret newUserId.

Definition text_item (t : jsstring) : CallToolResult := [TextContent t].

Definition created_message (newUserId : nat) : jsstring :=
  str "User " ++ number_toString (number_of_nat newUserId)
    ++ str " created successfully".

(** Arguments of [create-user] once validated against its schema: four
    strings. *)
Record UserParams := {
  name : jsstring; email : jsstring; address : jsstring; phone : jsstring
}.

Definition params_object (p : UserParams) : json :=
  JObj [(str "name", JStr (name p)); (str "email", JStr (email p));
        (str "address", JStr (address p)); (str "phone", JStr (phone p))].

(** Tool [create-user]. *)
Definition create_user (userParams : UserParams) : M state CallToolResult :=
  try_catch
    (newUserId <- createUser (params_object userParams) ;;
     ret (text_item (created_message newUserId)))
    (ret (text_item (str "Failed to save user"))).

Definition random_user_prompt : jsstring :=
  str "Generate fake user data. The user should have a realistic name, email, address, and phone number. Return this data as a JSON object with no other text or formatter so it can be used with JSON.parse.".

Definition random_user_request : CreateMessageRequest :=
  {| messages := [{| msg_role := str "user";
                     msg_content := TextContent random_user_prompt |}];
     maxTokens := 1024 |}.

(** The text handed to [JSON.parse]:
    [text.trim().replace(/^```json/, e).replace(/```$/, e).trim()],
    [e] the empty string. *)
Definition normalize (text : jsstring) : jsstring :=
  trim (replace_at_end (str "```")
          (replace_at_start (str "```json") (trim text))).

(** Tool [create-random-user]. *)
Definition create_random_user : M state CallToolResult :=
  aiResponse <- request random_user_request ;;
  match content aiResponse with
  | TextContent text =>
      try_catch
        (match JSON_parse (normalize text) with
         | None => throw (str "SyntaxError")
         | Some generatedUserData =>
             newUserId <- createUser generatedUserData ;;
             ret (text_item (created_message newUserId))
         end)
        (ret (text_item (str "Failed to generate user data")))
  | _ => ret (text_item (str "Failed to generate user data"))
  end.

(** Resource [users://all]. *)
Definition users (href : jsstring) : M state ReadResourceResult :=
  all <- import_users ;;
  ret [{| uri := href;
          text := JSON_stringify (users_array all);
          mimeType := str "application/json" |}].

(** [v === n] for a property value [v] ([None]: the property is absent,
    [undefined]) and the result [n] of [parseInt] ([None]: [NaN]). *)
Definition strict_equals (v : option json) (n : option Z) : bool :=
  match v, n with
  | Some (JNum x), Some z => number_eqb x (number_of_Z z)
  | _, _ => false
  end.

Definition not_found : json :=
  JObj [(str "error", JStr (str "User not found"))].

(** Resource [users://{userId}/profile]. *)
Definition user_details (href userId : jsstring) : M state ReadResourceResult :=
  all <- import_users ;;
  let foundUser :=
    find (fun user => strict_equals (obj_get (str "id") user)
                                    (parseInt userId)) all in
  match foundUser with
  | None =>
      ret [{| uri := href;
              text := JSON_stringify not_found;
              mimeType := str "application/json" |}]
  | Some user =>
      ret [{| uri := href;
              text := JSON_stringify (JObj user);
              mimeType := str "application/json" |}]
  end.

(** Prompt [generate-fake-user]. *)
Definition generate_fake_user (name : jsstring) : list PromptMessage :=
  [{| msg_role := str "user";
      msg_content :=
        TextContent (str "Generate a fake user with the name " ++ name
          ++ str ". The user should have a realistic email, address, and phone number.") |}].

End Server.

(* ================================================================== *)
(** * The driver ([client.ts]) *)
(* ================================================================== *)

Module Client.
Import JS Eff MCP.
Local Open Scope eff_scope.

(** ** Capabilities as listed by the server *)

Record Tool := {
  tool_name : jsstring;
  tool_title : option jsstring;          (* annotations?.title *)
  tool_description : option jsstring;
  tool_properties : list (jsstring * option jsstring)
    (* Object.entries(inputSchema.properties ?? {}), each with its type *)
}.

Record Prompt := {
  prompt_name : jsstring;
  prompt_description : option jsstring;
  prompt_arguments : list jsstring       (* names of arguments ?? [] *)
}.

Record Resource := {
  resource_name : jsstring;
  resource_uri : jsstring;
  resource_description : option jsstring
}.

Record ResourceTemplate := {
  template_name : jsstring;
  template_uriTemplate : jsstring;
  template_description : option jsstring
}.

(** ** The language model and the outside world *)

(** What one call of the model yields: its text and the tool calls it
    asks for. *)
Record generation := {
  gen_text : jsstring;
  gen_toolCalls : list (jsstring * object)
}.

Record GenerateTextResult := {
  result_text : jsstring;
  toolResults : list CallToolResult
}.

(** Everything observable the driver does, in order. *)
Inductive event :=
| Printed (line : jsstring)
| Selected (message value : jsstring)
| Entered (message value : jsstring)
| Confirmed (message : jsstring) (answer : bool)
| Generated (prompt : jsstring) (outcome : result generation)
| ToolCalled (name : jsstring) (arguments : object)
             (outcome : result CallToolResult)
| ResourceRead (uri : jsstring) (outcome : result ReadResourceResult)
| PromptFetched (name : jsstring) (arguments : object)
                (outcome : result (list PromptMessage)).

(** The driver's world: the operator at the terminal, the model behind
    [generateText] and the server behind [mcpClient], each answering the
    [n]-th interaction of the run, and the interactions so far. *)
Record world := {
  user_select : nat -> nat;
  user_input : nat -> jsstring;
  user_confirm : nat -> bool;
  llm : nat -> jsstring -> result generation;
  server_callTool : nat -> jsstring -> object -> result CallToolResult;
  server_readResource : nat -> jsstring -> result ReadResourceResult;
  server_getPrompt :
    nat -> jsstring -> object -> result (list PromptMessage);
  log : list event
}.

(** The number of interactions so far indexes the next answer. *)
Definition tick (w : world) : nat := length (log w).

Definition record (e : event) (w : world) : world :=
  {| user_select := user_select w; user_input := user_input w;
     user_confirm := user_confirm w; llm := llm w;
     server_callTool := server_callTool w;
     server_readResource := server_readResource w;
     server_getPrompt := server_getPrompt w;
     log := log w ++ [e] |}.

(** An interaction whose outcome may be a failure. *)
Definition perform {A} (outcome : world -> result A)
                   (ev : result A -> event) : M world A :=
  fun w => let r := outcome w in (r, record (ev r) w).

(** [console.log] and [console.error]. *)
Definition console_log (line : jsstring) : M world unit :=
  modify (record (Printed line)).

(** ** [@inquirer/prompts] *)

Record Choice := {
  choice_name : jsstring;
  choice_value : jsstring;
  choice_description : option jsstring
}.

Definition plain (s : jsstring) : Choice :=
  {| choice_name := s; choice_value := s; choice_description := None |}.

(** [select]: the operator picks one of the offered choices, and its
    value is returned; nothing else can be. *)
Definition select (message : jsstring) (choices : list Choice)
  : M world jsstring :=
  fun w =>
    match choices with
    | [] => (Throw (str "No selectable choices"), w)
    | c0 :: _ =>
        let picked :=
          nth (user_select w (tick w) mod length choices) choices c0 in
        (Ok (choice_value picked),
         record (Selected message (choice_value picked)) w)
    end.

Definition input (message : jsstring) : M world jsstring :=
  fun w =>
    let v := user_input w (tick w) in
    (Ok v, record (Entered message v) w).

Definition confirm (message : jsstring) : M world bool :=
  fun w =>
    let b := user_confirm w (tick w) in
    (Ok b, record (Confirmed message b) w).

(** ** [mcpClient] *)

Definition callTool (name : jsstring) (arguments : object)
  : M world CallToolResult :=
  perform (fun w => server_callTool w (tick w) name arguments)
          (ToolCalled name arguments).

Definition readResource (uri : jsstring) : M world ReadResourceResult :=
  perform (fun w => server_readResource w (tick w) uri) (ResourceRead uri).

Definition getPrompt (name : jsstring) (arguments : object)
  : M world (list PromptMessage) :=
  perform (fun w => server_getPrompt w (tick w) name arguments)
          (PromptFetched name arguments).

(** ** [generateText] of the [ai] package *)

(** One call of the model. *)
Definition call_model (prompt : jsstring) : M world generation :=
  perform (fun w => llm w (tick w) prompt) (Generated prompt).

(** The [tools] object a caller hands to [generateText]: under each
    name the [execute] closure of that tool.  Descriptions and parameter
    schemas play no part in what is run and are left out. *)
Definition ToolSet := list (jsstring * (object -> M world CallToolResult)).

(** [{ ...toolsObject, [name]: tool }]: the entry under a name that is
    already a key is replaced, another name is added.  (Where a key
    stands among the others is not looked at by any reader of the
    object.) *)
Fixpoint tools_set (name : jsstring)
                   (execute : object -> M world CallToolResult)
                   (toolsObject : ToolSet) : ToolSet :=
  match toolsObject with
  | [] => [(name, execute)]
  | (k, e) :: r =>
      if jsstring_eqb k name then (k, execute) :: r
      else (k, e) :: tools_set name execute r
  end.

(** Modelled from the spec: [tools[name]], how the collaborator finds
    the tool a call names among "the available tools" it was given. *)
Definition tools_get (name : jsstring) (tools : ToolSet)
  : option (object -> M world CallToolResult) :=
  match find (fun kv => jsstring_eqb (fst kv) name) tools with
  | Some kv => Some (snd kv)
  | None => None
  end.

(** Modelled from the spec: how the external language-model collaborator
    ([generateText] of the [ai] package, which is not part of the
    repository) runs the tool calls of one step of its "bounded
    multi-step tool-use loop" over the [availableTools] it was given,
    each tool with "an execute handler mapping validated arguments" to a
    result.  Every call of the step is first resolved to the tool it
    names; a call that names no tool of the set fails the whole step
    before anything is run. *)
Fixpoint parse_calls (tools : ToolSet) (calls : list (jsstring * object))
  : option (list (M world CallToolResult)) :=
  match calls with
  | [] => Some []
  | (name, arguments) :: rest =>
      match tools_get name tools, parse_calls tools rest with
      | Some execute, Some runs => Some (execute arguments :: runs)
      | _, _ => None
      end
  end.

(** Modelled from the spec: the [execute] handlers of a step are all
    started, in the order of the calls, before any of them is awaited:
    a call that fails does not keep a later one from being made. *)
Fixpoint run_all (runs : list (M world CallToolResult))
  : M world (list (result CallToolResult)) :=
  match runs with
  | [] => ret []
  | run :: rest =>
      r <- attempt run ;;
      rs <- run_all rest ;;
      ret (r :: rs)
  end.

(** Modelled from the spec: awaiting the handlers of a step, all
    started: the results in the order of the calls, or the failure of a
    call that failed. *)
Fixpoint settle (outcomes : list (result CallToolResult))
  : M world (list CallToolResult) :=
  match outcomes with
  | [] => ret []
  | Ok r :: rest => rs <- settle rest ;; ret (r :: rs)
  | Throw e :: _ => throw e
  end.

(** Modelled from the spec: the tool calls of one step, resolved, run
    and awaited as [parse_calls], [run_all] and [settle] say. *)
Definition execute_all (tools : ToolSet) (calls : list (jsstring * object))
  : M world (list CallToolResult) :=
  match parse_calls tools calls with
  | None => throw (str "NoSuchToolError")
  | Some runs => outcomes <- run_all runs ;; settle outcomes
  end.

(** Modelled from the spec: the multi-step tool-use loop of the external
    language-model collaborator ([generateText] of the [ai] package, which
    is not part of the repository), "an explicit step counter with a hard
    ceiling".  A step is one call of the model followed by the execution
    of the tool calls it asks for; another step follows only while the
    last one made tool calls and fewer than [maxSteps] steps have run.  The
    text and tool results of the last step are the result. *)
Fixpoint generateText_steps
    (maxSteps : nat) (prompt : jsstring) (tools : ToolSet)
  : M world GenerateTextResult :=
  match maxSteps with
  | O => throw (str "InvalidArgumentError")
  | S remaining =>
      g <- call_model prompt ;;
      results <- execute_all tools (gen_toolCalls g) ;;
      match gen_toolCalls g, remaining with
      | _ :: _, S _ => generateText_steps remaining prompt tools
      | _, _ => ret {| result_text := gen_text g; toolResults := results |}
      end
  end.

(** [generateText({ model, prompt })]: no tools, one step. *)
Definition generateText (prompt : jsstring) : M world GenerateTextResult :=
  generateText_steps 1 prompt [].

(** ** The handlers of [client.ts] *)

(** Handles server message prompts by displaying them and optionally
    running them through the AI model.  [None] is [undefined]. *)
Definition handleServerMessagePrompt (message : PromptMessage)
  : M world (option jsstring) :=
  match msg_content message with
  | TextContent text =>
      console_log text ;;
      shouldRunPrompt <- confirm (str "Would you like to run the above prompt") ;;
      if negb shouldRunPrompt then ret None
      else
        r <- generateText text ;;
        ret (Some (result_text r))
  | _ => ret None
  end.

(** The loop of the sampling handler: [generatedTexts] after the
    messages. *)
Fixpoint collect_generatedTexts (messages : list PromptMessage)
                                (generatedTexts : list jsstring)
  : M world (list jsstring) :=
  match messages with
  | [] => ret generatedTexts
  | message :: rest =>
      generatedText <- handleServerMessagePrompt message ;;
      match generatedText with
      | Some t => collect_generatedTexts rest (generatedTexts ++ [t])
      | None => collect_generatedTexts rest generatedTexts
      end
  end.

(** The handler registered for [CreateMessageRequestSchema]. *)
Definition createMessage_handler (request : CreateMessageRequest)
  : M world CreateMessageResult :=
  generatedTexts <- collect_generatedTexts (messages request) [] ;;
  ret {| role := str "user";
         model := str "gemini-2.0-flash";
         stopReason := str "endTurn";
         content := TextContent (join newline generatedTexts) |}.

(** The names of the tools the server listed. *)
Definition tool_names (availableTools : list Tool) : list jsstring :=
  map tool_name availableTools.

(** [availableTools.reduce((toolsObject, tool) => ({ ...toolsObject,
    [tool.name]: { ..., execute } }), {})]: the [tools] object both flows
    build, [execute_of tool] being the closure each gives the tool. *)
Definition tool_set (execute_of : Tool -> object -> M world CallToolResult)
                    (availableTools : list Tool) : ToolSet :=
  fold_left (fun toolsObject tool =>
               tools_set (tool_name tool) (execute_of tool) toolsObject)
            availableTools [].

Definition first_text (results : list CallToolResult) : option jsstring :=
  match results with
  | (TextContent t :: _) :: _ => Some t
  | _ => None
  end.

(** [a || b] on strings: the empty string is falsy. *)
Definition or_else (a : option jsstring) (b : jsstring) : jsstring :=
  match a with
  | Some (c :: r) => c :: r
  | _ => b
  end.

(** Handles user queries by generating AI responses with access to
    available MCP tools.  No [maxSteps] is given: one step. *)
Definition handleQuery (availableTools : list Tool) : M world unit :=
  userQuery <- input (str "Enter your query") ;;
  r <- generateText_steps 1 userQuery
         (tool_set (fun tool toolArguments =>
                      callTool (tool_name tool) toolArguments)
                   availableTools) ;;
  console_log
    (or_else (Some (result_text r))
       (or_else (first_text (toolResults r)) (str "No text generated."))).

(** The three pictograms of the log lines, as the code units the source
    file holds. *)
Definition robot : jsstring := [240; 376; 164; 8211]%N.
Definition arrow : jsstring := [226; 8224; 179]%N.
Definition check_mark : jsstring := [226; 339; 8230]%N.

(** Handles an autonomous task: [maxSteps: 5]. *)
Definition handleAutonomousTask (availableTools : list Tool) : M world unit :=
  taskDescription <-
    input (str "Describe a task (e.g., 'Create 3 users with different backgrounds'):") ;;
  console_log (newline ++ robot ++ str " Agent working autonomously..."
                 ++ newline) ;;
  r <- generateText_steps 5
         (str "Complete this task: " ++ taskDescription
            ++ str ". Use the available tools as needed.")
         (tool_set (fun tool toolArguments =>
                      console_log (str "  " ++ arrow ++ str " Calling tool: "
                                     ++ tool_name tool) ;;
                      callTool (tool_name tool) toolArguments)
                   availableTools) ;;
  console_log (newline ++ check_mark ++ str " Task completed!") ;;
  console_log (result_text r).

(** [s.replace(c, empty)] for a one-character string pattern: the first
    occurrence goes. *)
Fixpoint remove_first (c : code_unit) (s : jsstring) : jsstring :=
  match s with
  | [] => []
  | x :: r => if (x =? c)%N then r else x :: remove_first c r
  end.

(** The replacement text of [replace] with a string pattern
    (GetSubstitution without captures): [$$], [$&], [$`] and [$'] stand
    for a dollar, the match, what precedes it and what follows it. *)
Fixpoint substitution (replacement before matched after : jsstring)
  : jsstring :=
  match replacement with
  | [] => []
  | c :: r =>
      if (c =? ch "$")%N then
        match r with
        | d :: r' =>
            if (d =? ch "$")%N then
              ch "$" :: substitution r' before matched after
            else if (d =? ch "&")%N then
              matched ++ substitution r' before matched after
            else if (d =? ch "`")%N then
              before ++ substitution r' before matched after
            else if (d =? ch "'")%N then
              after ++ substitution r' before matched after
            else c :: substitution r before matched after
        | [] => [c]
        end
      else c :: substitution r before matched after
  end.

(** [s.replace(pattern, replacement)] for a string pattern: the first
    occurrence only; [before] holds, reversed, what was already passed. *)
Fixpoint replace_from (pattern replacement before s : jsstring) : jsstring :=
  if startsWith pattern s then
    rev before
      ++ substitution replacement (rev before) pattern
                      (skipn (length pattern) s)
      ++ skipn (length pattern) s
  else
    match s with
    | [] => rev before
    | c :: r => replace_from pattern replacement (c :: before) r
    end.

Definition replace (pattern replacement s : jsstring) : jsstring :=
  replace_from pattern replacement [] s.

(** Whether [/{([^}]+)}/] matches right after an opening brace: a first
    character other than the closing brace, and a closing brace later. *)
Definition placeholder_follows (r : jsstring) : bool :=
  match r with
  | c :: _ => negb (c =? ch "}")%N && existsb (fun x => (x =? ch "}")%N) r
  | [] => false
  end.

(** [uri.match(/{([^}]+)}/g)]: the matches from left to right; [open]
    holds, reversed, the match being read. *)
Fixpoint placeholders (s : jsstring) (open : option jsstring)
  : list jsstring :=
  match s with
  | [] => []
  | c :: r =>
      match open with
      | Some acc =>
          if (c =? ch "}")%N then rev (c :: acc) :: placeholders r None
          else placeholders r (Some (c :: acc))
      | None =>
          if (c =? ch "{")%N && placeholder_follows r
          then placeholders r (Some [c])
          else placeholders r None
      end
  end.

Definition or_undefined (s : option jsstring) : jsstring :=
  match s with Some t => t | None => str "undefined" end.

(** The loops that ask for one value per name and store it.  The keys of
    [handleTool] are those of the [properties] object of a schema the
    protocol library has parsed, among which [__proto__] does not occur. *)
Fixpoint ask_properties (props : list (jsstring * option jsstring))
                        (toolArguments : object) : M world object :=
  match props with
  | [] => ret toolArguments
  | (propertyKey, propertyType) :: rest =>
      v <- input (str "Enter value for " ++ propertyKey ++ str " ("
                    ++ or_undefined propertyType ++ str "):") ;;
      ask_properties rest (obj_set propertyKey (JStr v) toolArguments)
  end.

(** [o[k] = v] for a string [v], on an object made by an object literal
    and filled by such assignments only.  The key [__proto__] is the
    accessor [Object.prototype] carries: its setter does nothing with a
    value that is neither an object nor [null], and no own property is
    made.  Under any other key the value becomes an own property. *)
Definition obj_assign (k v : jsstring) (o : object) : object :=
  if jsstring_eqb k (str "__proto__") then o else obj_set k (JStr v) o.

Fixpoint ask_arguments (names : list jsstring) (promptArguments : object)
  : M world object :=
  match names with
  | [] => ret promptArguments
  | argument :: rest =>
      v <- input (str "Enter value for " ++ argument ++ str ":") ;;
      ask_arguments rest (obj_assign argument v promptArguments)
  end.

Fixpoint fill_placeholders (parameterMatches : list jsstring)
                           (constructedUri : jsstring) : M world jsstring :=
  match parameterMatches with
  | [] => ret constructedUri
  | parameterMatch :: rest =>
      let parameterName :=
        remove_first (ch "}") (remove_first (ch "{") parameterMatch) in
      parameterValue <-
        input (str "Enter value for " ++ parameterName ++ str ":") ;;
      fill_placeholders rest
        (replace parameterMatch parameterValue constructedUri)
  end.

(** Handles the execution of a selected MCP tool by collecting input
    arguments and calling the tool. *)
Definition handleTool (tool : Tool) : M world unit :=
  toolArguments <- ask_properties (tool_properties tool) [] ;;
  toolResponse <- callTool (tool_name tool) toolArguments ;;
  match toolResponse with
  | [] => throw (str "TypeError")
  | TextContent t :: _ => console_log t
  | _ :: _ => console_log (str "undefined")
  end.

(** Handles resource retrieval by constructing the URI with user-provided
    parameters. *)
Definition handleResource (resourceUri : jsstring) : M world unit :=
  constructedUri <- fill_placeholders (placeholders resourceUri None)
                                      resourceUri ;;
  resourceResponse <- readResource constructedUri ;;
  match resourceResponse with
  | [] => throw (str "TypeError")
  | first :: _ =>
      match JSON_parse (text first) with
      | None => throw (str "SyntaxError")
      | Some v => console_log (JSON_stringify_indent 2 v)
      end
  end.

(** Handles prompt execution by collecting arguments and displaying the
    generated prompt messages. *)
Definition handlePrompt (prompt : Prompt) : M world unit :=
  promptArguments <- ask_arguments (prompt_arguments prompt) [] ;;
  promptResponse <- getPrompt (prompt_name prompt) promptArguments ;;
  for_of promptResponse (fun message =>
    generated <- handleServerMessagePrompt message ;;
    console_log (or_undefined generated)).

(** ** The menu loop of [main] *)

Section Session.

(** The capabilities the server listed when the session started. *)
Variable tools : list Tool.
Variable prompts : list Prompt.
Variable resources : list Resource.
Variable resourceTemplates : list ResourceTemplate.

Definition menu_choices : list Choice :=
  [plain (str "Query"); plain (str "Tools");
   plain (str "Resources"); plain (str "Prompts")].

Definition tool_choice (tool : Tool) : Choice :=
  {| choice_name := match tool_title tool with
                    | Some (c :: r) => c :: r
                    | _ => tool_name tool
                    end;
     choice_value := tool_name tool;
     choice_description := tool_description tool |}.

Definition resource_choice (resource : Resource) : Choice :=
  {| choice_name := resource_name resource;
     choice_value := resource_uri resource;
     choice_description := resource_description resource |}.

Definition template_choice (template : ResourceTemplate) : Choice :=
  {| choice_name := template_name template;
     choice_value := template_uriTemplate template;
     choice_description := template_description template |}.

Definition prompt_choice (prompt : Prompt) : Choice :=
  {| choice_name := prompt_name prompt;
     choice_value := prompt_name prompt;
     choice_description := prompt_description prompt |}.

Definition case_Tools : M world unit :=
  selectedToolName <- select (str "Select a tool") (map tool_choice tools) ;;
  match find (fun tool => jsstring_eqb (tool_name tool) selectedToolName)
             tools with
  | None => console_log (str "Tool not found.")
  | Some selectedTool => handleTool selectedTool
  end.

Definition case_Resources : M world unit :=
  selectedResourceUri <-
    select (str "Select a resource")
           (map resource_choice resources
              ++ map template_choice resourceTemplates) ;;
  let resolvedUri :=
    match find (fun resource =>
                  jsstring_eqb (resource_uri resource) selectedResourceUri)
               resources with
    | Some resource => Some (resource_uri resource)
    | None =>
        match find (fun template =>
                      jsstring_eqb (template_uriTemplate template)
                                   selectedResourceUri)
                   resourceTemplates with
        | Some template => Some (template_uriTemplate template)
        | None => None
        end
    end in
  match resolvedUri with
  | None => console_log (str "Resource not found.")
  | Some u => handleResource u
  end.

Definition case_Prompts : M world unit :=
  selectedPromptName <-
    select (str "Select a prompt") (map prompt_choice prompts) ;;
  match find (fun prompt =>
                jsstring_eqb (prompt_name prompt) selectedPromptName)
             prompts with
  | None => console_log (str "Prompt not found.")
  | Some selectedPrompt => handlePrompt selectedPrompt
  end.

(** [switch (selectedOption)].  The case ["Query"] has no [break]: control
    runs on into the case ["Autonomous Task"]. *)
Definition menu_switch (selectedOption : jsstring) : M world unit :=
  if jsstring_eqb selectedOption (str "Tools") then case_Tools
  else if jsstring_eqb selectedOption (str "Resources") then case_Resources
  else if jsstring_eqb selectedOption (str "Prompts") then case_Prompts
  else if jsstring_eqb selectedOption (str "Query") then
    handleQuery tools ;; handleAutonomousTask tools
  else if jsstring_eqb selectedOption (str "Autonomous Task") then
    handleAutonomousTask tools
  else ret tt.

(** One turn of [while (true)]. *)
Definition menu_iteration : M world unit :=
  selectedOption <- select (str "What would you like to do") menu_choices ;;
  menu_switch selectedOption.

(** The first [n] turns of the loop, which has no exit of its own. *)
Fixpoint session (n : nat) : M world unit :=
  match n with
  | O => ret tt
  | S k => menu_iteration ;; session k
  end.

(** [main] once connected, the capabilities listed and the sampling
    handler registered: the greeting, then the loop. *)
Definition main (n : nat) : M world unit :=
  console_log (str "You are connected!") ;; session n.

End Session.

End Client.

(* ================================================================== *)
(** * Inputs and notions the statements below use *)
(* ================================================================== *)

Module Notions.
Import JS Eff MCP.

(** A text made of white space only. *)
Definition all_white (s : jsstring) : Prop := forallb is_white s = true.

(** [x] inside a fenced code block tagged [json], with white space
    [a], [b] between the markers and [x] and white space [pre], [post]
    around the block. *)
Definition json_fenced (pre a x b post : jsstring) : jsstring :=
  pre ++ str "```json" ++ a ++ x ++ b ++ str "```" ++ post.

(** [x] inside a fenced code block without a language tag. *)
Definition bare_fenced (x : jsstring) : jsstring :=
  str "```" ++ newline ++ x ++ newline ++ str "```".

(** The reply of the round-trip property and the record it describes. *)
Definition ada_text : jsstring :=
  strq "{'name':'Ada','email':'a@b.com','address':'1 Main','phone':'555'}".

Definition ada_user (id : nat) : object :=
  [(str "id", JNum (number_of_nat id)); (str "name", JStr (str "Ada"));
   (str "email", JStr (str "a@b.com")); (str "address", JStr (str "1 Main"));
   (str "phone", JStr (str "555"))].

Definition ada_params : Server.UserParams :=
  {| Server.name := str "Ada"; Server.email := str "a@b.com";
     Server.address := str "1 Main"; Server.phone := str "555" |}.

(** A sampling backend that answers every request with the text [reply]. *)
Definition stub_result (reply : jsstring) : CreateMessageResult :=
  {| role := str "assistant"; model := str "stub";
     stopReason := str "endTurn"; content := TextContent reply |}.

Definition stub (reply : jsstring)
  : CreateMessageRequest -> result CreateMessageResult :=
  fun _ => Ok (stub_result reply).

(** A server holding [users], whose file can be written unless [fault]
    says otherwise, in front of the backend [stub reply]. *)
Definition server_with (users : list object) (fault : option jsstring)
                       (reply : jsstring) : Server.state :=
  {| Server.allUsers := users;
     Server.users_file := JSON_stringify_indent 2 (Server.users_array users);
     Server.fs_error := fault;
     Server.sampling := stub reply |}.

(** The record [createUser] builds from [userData]. *)
Definition new_user (w : Server.state) (userData : json) : object :=
  spread [(str "id",
           JNum (number_of_nat (length (Server.allUsers w) + 1)))]
         userData.

(** What a resource read returns for the payload [t]. *)
Definition json_contents (href t : jsstring) : ReadResourceResult :=
  [{| uri := href; text := t; mimeType := str "application/json" |}].

(** The integer a run of decimal digits spells. *)
Definition digits_value (ds : jsstring) : Z :=
  Z.of_N (radix_value 10 (map (fun c => c - 48)%N ds)).

Definition all_digits (ds : jsstring) : Prop := forallb is_digit ds = true.

Definition starts_with_digit (s : jsstring) : bool :=
  match s with c :: _ => is_digit c | [] => false end.

(** Whether [s] starts with the letter that, after a [0], announces
    hexadecimal digits. *)
Definition hex_marker (s : jsstring) : bool :=
  match s with c :: _ => ((c =? ch "x") || (c =? ch "X"))%N | [] => false end.

(** [s] without its leading white space and without one sign. *)
Definition unsigned_part (s : jsstring) : jsstring :=
  match trimStart s with
  | c :: r => if ((c =? ch "-") || (c =? ch "+"))%N then r else c :: r
  | [] => []
  end.

(** Whether the record [user] has the number [n] as its [id]. *)
Definition has_id (n : Z) (user : object) : bool :=
  Server.strict_equals (obj_get (str "id") user) (Some n).

(** An integer every IEEE double holds exactly, as do all the integers
    up to it: within this range [parseInt], which returns the double
    nearest to the integer read, returns that integer, and two Numbers
    are equal exactly when the integers are. *)
Definition safe_integer (n : Z) : Prop := (Z.abs n <= 2 ^ 53)%Z.

(** The [id] of the record [user], when it is a number, is such an
    integer. *)
Definition safe_id (user : object) : Prop :=
  forall x, obj_get (str "id") user = Some (JNum x) ->
    exists n, safe_integer n /\ x = number_of_Z n.

(** A text made of JSON white space only. *)
Definition json_ws (t : jsstring) : Prop := forallb is_json_ws t = true.

(** The result [r] of a reading, with [t] more left unread behind it. *)
Definition carry (A : Type) (t : jsstring) (r : option (A * jsstring))
  : option (A * jsstring) :=
  match r with
  | Some (a, rest) => Some (a, rest ++ t)
  | None => None
  end.

(** [consumed s rest P]: reading took a non-empty prefix off [s], left
    [rest], and the last character taken satisfies [P]. *)
Definition consumed (s rest : jsstring) (P : code_unit -> Prop) : Prop :=
  exists m c, s = m ++ c :: rest /\ P c.

Definition digit (c : code_unit) : Prop := is_digit c = true.

(** Neither white space nor a backtick. *)
Definition solid (c : code_unit) : Prop := is_white c = false /\ c <> 96%N.

(** ** The driver's log *)

(** The calls of the model among some events, each with its prompt and
    outcome, in order. *)
Fixpoint generations (evs : list Client.event)
  : list (jsstring * result Client.generation) :=
  match evs with
  | [] => []
  | Client.Generated prompt outcome :: r => (prompt, outcome) :: generations r
  | _ :: r => generations r
  end.

(** The texts the model produced among some events, in order. *)
Fixpoint generated_texts (evs : list Client.event) : list jsstring :=
  match evs with
  | [] => []
  | Client.Generated _ (Ok g) :: r => Client.gen_text g :: generated_texts r
  | _ :: r => generated_texts r
  end.

(** The operator's answers to [confirm] among some events, in order. *)
Fixpoint answers (evs : list Client.event) : list bool :=
  match evs with
  | [] => []
  | Client.Confirmed _ b :: r => b :: answers r
  | _ :: r => answers r
  end.

(** The lines printed among some events, in order. *)
Fixpoint printed (evs : list Client.event) : list jsstring :=
  match evs with
  | [] => []
  | Client.Printed line :: r => line :: printed r
  | _ :: r => printed r
  end.

(** The texts of the entries that are text and that the operator, asked
    entry by entry, confirmed: non-text entries are passed over without a
    question. *)
Fixpoint confirmed_texts (messages : list PromptMessage) (ans : list bool)
  : list jsstring :=
  match messages with
  | [] => []
  | m :: rest =>
      match msg_content m with
      | TextContent t =>
          match ans with
          | true :: ans' => t :: confirmed_texts rest ans'
          | false :: ans' => confirmed_texts rest ans'
          | [] => []
          end
      | _ => confirmed_texts rest ans
      end
  end.

(** The question [handleServerMessagePrompt] puts to the operator. *)
Definition run_question : jsstring :=
  str "Would you like to run the above prompt".


(** The response to a request, carrying its correlation id: a result
    or an error. *)
Inductive Response :=
| ResultResponse (id : N) (result : CreateMessageResult)
| ErrorResponse (id : N) (message : jsstring).

(** Modelled from the spec: the Envelope's dispatch of an incoming request
    to the handler registered for it, which the protocol library does and
    the repository does not contain.  The value the handler returns becomes
    the result of the response that carries the request's correlation id;
    an exception the handler raises becomes its error ("a response
    containing an error field resolves the Pending Call with a failure
    instead of a result"; "the protocol layer itself never propagates a
    raised exception across the transport"). *)
Definition dispatch (id : N) (handler : M Client.world CreateMessageResult)
  : M Client.world Response :=
  fun w =>
    match handler w with
    | (Ok r, w') => (Ok (ResultResponse id r), w')
    | (Throw e, w') => (Ok (ErrorResponse id e), w')
    end.

(** The events a run added: those of [w'] past the log of [w]. *)
Definition added (w w' : Client.world) : list Client.event :=
  skipn (length (Client.log w)) (Client.log w').

(** [calls_model_at_most n m]: whatever the world, [m] only adds events
    to the log, at most [n] of them calls of the model. *)
Definition calls_model_at_most (A : Type) (n : nat)
                               (m : M Client.world A) : Prop :=
  forall w, exists new,
    Client.log (snd (m w)) = Client.log w ++ new
    /\ length (generations new) <= n.

(** ** Example worlds of the driver *)

(** A world with a fresh log in which the operator picks menu entry
    [pick], types [typed], answers [yes] to every confirmation, and the
    model answers every call with [reply]. *)
Definition driver_world (pick : nat) (typed : jsstring) (yes : bool)
    (reply : jsstring -> result Client.generation) : Client.world :=
  {| Client.user_select := fun _ => pick;
     Client.user_input := fun _ => typed;
     Client.user_confirm := fun _ => yes;
     Client.llm := fun _ => reply;
     Client.server_callTool :=
       fun _ name _ => Ok [TextContent (str "called " ++ name)];
     Client.server_readResource := fun _ _ => Throw (str "no resource");
     Client.server_getPrompt := fun _ _ _ => Throw (str "no prompt");
     Client.log := [] |}.

(** A model that answers with the text [t] and asks for no tool. *)
Definition says (t : jsstring) : jsstring -> result Client.generation :=
  fun _ => Ok {| Client.gen_text := t; Client.gen_toolCalls := [] |}.


(** A model that keeps asking for the tool [name]. *)
Definition keeps_calling (name : jsstring)
  : jsstring -> result Client.generation :=
  fun _ => Ok {| Client.gen_text := [];
                 Client.gen_toolCalls := [(name, [])] |}.

(** A model that is down. *)
Definition down : jsstring -> result Client.generation :=
  fun _ => Throw (str "generation failed").

Definition text_message (t : jsstring) : PromptMessage :=
  {| msg_role := str "user"; msg_content := TextContent t |}.


Definition create_user_tool : Client.Tool :=
  {| Client.tool_name := str "create-random-user";
     Client.tool_title := Some (str "Create Random User");
     Client.tool_description := Some (str "Create a random user with fake data");
     Client.tool_properties := [] |}.

End Notions.

(* ================================================================== *)
(** * Notions for the store and for the driver's log *)
(* ================================================================== *)

Module Invariants.
Import JS Eff MCP Notions.

(** The value of the last property named [k] in a property list. *)
Definition obj_last (k : jsstring) (o : object) : option json :=
  obj_get k (rev o).

(** The natural number a Number without sign and fraction denotes. *)
Definition number_value (x : number) : N :=
  radix_value 10 (digits x)
  * 10 ^ Z.to_N (point x - Z.of_nat (length (digits x))).

(** The spelling of an id in the success message. *)
Definition id_text (n : nat) : jsstring := number_toString (number_of_nat n).

(** The record [create-user] builds for the arguments [p]. *)
Definition user_record (id : nat) (p : Server.UserParams) : object :=
  [(str "id", JNum (number_of_nat id));
   (str "name", JStr (Server.name p)); (str "email", JStr (Server.email p));
   (str "address", JStr (Server.address p));
   (str "phone", JStr (Server.phone p))].

(** The users file holds the array as [createUser] writes it. *)
Definition in_sync (w : Server.state) : Prop :=
  Server.users_file w
  = JSON_stringify_indent 2 (Server.users_array (Server.allUsers w)).

(** Every record carries its position, counted from one, as its id. *)
Definition well_numbered (users : list object) : Prop :=
  forall i user, nth_error users i = Some user ->
    obj_get (str "id") user = Some (JNum (number_of_nat (S i))).

(** The server [w] with the file system in the condition [fault]. *)
Definition with_fault (fault : option jsstring) (w : Server.state)
  : Server.state :=
  {| Server.allUsers := Server.allUsers w;
     Server.users_file := Server.users_file w;
     Server.fs_error := fault;
     Server.sampling := Server.sampling w |}.

(** A sampling backend that rejects every request with [e]. *)
Definition rejects (e : jsstring)
  : CreateMessageRequest -> result CreateMessageResult :=
  fun _ => Throw e.

(** [adds P m]: whatever the world, [m] only adds events to the log, and
    the events it adds satisfy [P]. *)
Definition adds (A : Type) (P : list Client.event -> Prop)
                (m : M Client.world A) : Prop :=
  forall w, exists new,
    Client.log (snd (m w)) = Client.log w ++ new /\ P new.

(** The names of the tools called among some events, in order. *)
Fixpoint tool_calls (evs : list Client.event) : list jsstring :=
  match evs with
  | [] => []
  | Client.ToolCalled name _ _ :: r => name :: tool_calls r
  | _ :: r => tool_calls r
  end.


(** The resources read among some events, in order. *)
Fixpoint reads (evs : list Client.event) : list jsstring :=
  match evs with
  | [] => []
  | Client.ResourceRead uri _ :: r => uri :: reads r
  | _ :: r => reads r
  end.

(** The line the autonomous flow prints before it calls the tool [name]. *)
Definition announcement (name : jsstring) : jsstring :=
  str "  " ++ Client.arrow ++ str " Calling tool: " ++ name.

(** Every call of a tool among the events comes right after the line
    that announces it. *)
Definition announced (evs : list Client.event) : Prop :=
  forall pre name arguments outcome post,
    evs = pre ++ Client.ToolCalled name arguments outcome :: post ->
    exists pre', pre = pre' ++ [Client.Printed (announcement name)].

(** Only tools among [names] are called. *)
Definition calls_only (names : list jsstring) (evs : list Client.event)
  : Prop :=
  forall name, In name (tool_calls evs) -> In name names.

(** The questions [handleTool], [handlePrompt] and [handleResource] ask
    for a property, an argument and a placeholder. *)
Definition property_question (prop : jsstring * option jsstring) : jsstring :=
  str "Enter value for " ++ fst prop ++ str " ("
    ++ Client.or_undefined (snd prop) ++ str "):".

Definition argument_question (name : jsstring) : jsstring :=
  str "Enter value for " ++ name ++ str ":".


(** A URI template with the single placeholder [name]. *)
Definition template (pre name post : jsstring) : jsstring :=
  pre ++ str "{" ++ name ++ str "}" ++ post.

(** No brace in a text. *)
Definition brace_free (s : jsstring) : Prop :=
  forallb (fun c => negb ((c =? ch "{") || (c =? ch "}"))%N) s = true.

(** No dollar sign in a text. *)
Definition dollar_free (s : jsstring) : Prop :=
  forallb (fun c => negb (c =? ch "$")%N) s = true.

(** The events of the operator answering [vals] to the questions [qs]. *)
Definition entered (qs vals : list jsstring) : list Client.event :=
  map (fun qv => Client.Entered (fst qv) (snd qv)) (combine qs vals).

(** The values [vals] typed for the keys [keys], as a property list. *)
Definition typed (keys vals : list jsstring) : object :=
  combine keys (map JStr vals).


(** What a handler leaves in the log after the reply of the server: the
    line it prints, or nothing when it fails. *)
Definition at_most_a_line (evs : list Client.event) : Prop :=
  evs = [] \/ exists line, evs = [Client.Printed line].

(** What the sampling handler adds to the log for one entry of a
    request, in order: nothing for an entry that is not text; for a text
    entry the text printed, then the answer of the operator and, after a
    yes, one call of the model on that text. *)
Definition entry_chunk (m : PromptMessage) (chunk : list Client.event)
  : Prop :=
  match msg_content m with
  | TextContent t =>
      chunk = [Client.Printed t; Client.Confirmed run_question false]
      \/ exists out,
           chunk = [Client.Printed t; Client.Confirmed run_question true;
                    Client.Generated t out]
  | _ => chunk = []
  end.


(** ** Values that JSON text carries unchanged *)

(** Digits of a Number in canonical form: each below ten, no zero in
    front and none behind. *)
Definition canonical (ds : list N) : Prop :=
  Forall (fun d => (d < 10)%N) ds
  /\ drop_zeros ds = ds /\ drop_zeros (rev ds) = rev ds.

(** A whole number of at most 21 places, the ones [Number::toString]
    prints as a plain run of digits. *)
Definition whole (x : number) : Prop :=
  match digits x with
  | [] => x = zero
  | _ :: _ =>
      canonical (digits x)
      /\ (Z.of_nat (length (digits x)) <= point x <= 21)%Z
  end.

(** What may follow a value in a JSON text: nothing, white space, a
    comma or a closing bracket or brace. *)
Definition stops (rest : jsstring) : Prop :=
  match rest with
  | [] => True
  | c :: _ =>
      is_json_ws c = true \/ c = ch "," \/ c = ch "]" \/ c = ch "}"
  end.

(** The sign in front of a number. *)
Definition minus (sign : bool) : jsstring := if sign then str "-" else [].

(** Property names that [JSON.parse] keeps in the order of the text:
    pairwise distinct, and none an array index. *)
Definition portable_keys (ks : list jsstring) : Prop :=
  NoDup ks /\ Forall (fun k => array_index k = None) ks.

(** The values [JSON.stringify] followed by [JSON.parse] gives back as
    they are: whole numbers, pairwise distinct keys that are no array
    index, any string, at every depth. *)
Fixpoint portable (v : json) : Prop :=
  match v with
  | JNum x => whole x
  | JArr items =>
      (fix all (l : list json) : Prop :=
         match l with
         | [] => True
         | x :: r => portable x /\ all r
         end) items
  | JObj props =>
      portable_keys (map fst props)
      /\ (fix all (l : list (jsstring * json)) : Prop :=
            match l with
            | [] => True
            | (_, x) :: r => portable x /\ all r
            end) props
  | _ => True
  end.

(** The white space [JSON.stringify] puts inside brackets (behind the
    opening one and behind each comma), before the closing one, and
    behind a colon: none without a gap. *)
Definition inner_space (gap indent : jsstring) : jsstring :=
  match gap with [] => [] | _ => newline ++ indent ++ gap end.

Definition outer_space (gap indent : jsstring) : jsstring :=
  match gap with [] => [] | _ => newline ++ indent end.

Definition colon_space (gap : jsstring) : jsstring :=
  match gap with [] => [] | _ => str " " end.

(** One member of an object as serialised. *)
Definition member_text (gap indent : jsstring) (kv : jsstring * json) : jsstring :=
  quote (fst kv) ++ str ":" ++ colon_space gap
    ++ serialize gap indent (snd kv).

(** [v] serialised with any gap and indentation of white space is read
    back as [v], whatever follows it that ends a value. *)
Definition reads_back (v : json) : Prop :=
  forall (gap indent rest : jsstring) (g : nat),
    json_ws gap -> json_ws indent -> stops rest ->
    2 * length (serialize gap indent v ++ rest) + 2 <= g ->
    parse_value g (serialize gap indent v ++ rest) = Some (v, rest).

(** A world with a fresh log whose server answers every resource read
    by [read] of the URI, the operator typing [typed] at every question. *)
Definition served (read : jsstring -> result ReadResourceResult)
                  (typed : jsstring) : Client.world :=
  {| Client.user_select := fun _ => 0;
     Client.user_input := fun _ => typed;
     Client.user_confirm := fun _ => true;
     Client.llm := fun _ _ => Throw (str "offline");
     Client.server_callTool := fun _ _ _ => Throw (str "no tool");
     Client.server_readResource := fun _ => read;
     Client.server_getPrompt := fun _ _ _ => Throw (str "no prompt");
     Client.log := [] |}.

(** A world with a fresh log whose server answers every prompt fetch
    as [generate-fake-user] does for the name [typed], the operator
    typing [typed], confirming, and the model answering [reply]. *)
Definition prompted (typed reply : jsstring) : Client.world :=
  {| Client.user_select := fun _ => 0;
     Client.user_input := fun _ => typed;
     Client.user_confirm := fun _ => true;
     Client.llm :=
       fun _ _ => Ok {| Client.gen_text := reply;
                        Client.gen_toolCalls := [] |};
     Client.server_callTool := fun _ _ _ => Throw (str "no tool");
     Client.server_readResource := fun _ _ => Throw (str "no resource");
     Client.server_getPrompt :=
       fun _ _ _ => Ok (Server.generate_fake_user typed);
     Client.log := [] |}.

End Invariants.

(* ================================================================== *)
(** * Properties of the JavaScript values *)
(* ================================================================== *)

Section Strings.
Import JS Notions.

Lemma startsWith_app (p s : jsstring) : startsWith p (p ++ s) = true.
Proof.
  induction p as [|c p IH]; simpl; [reflexivity|].
  now rewrite N.eqb_refl, IH.
Qed.

Lemma startsWith_head (p s : jsstring) (c d : code_unit) :
  c <> d -> startsWith (c :: p) (d :: s) = false.
Proof.
  intros H. simpl. destruct (N.eqb_spec c d); [contradiction|reflexivity].
Qed.

Lemma replace_at_start_app (p s : jsstring) : replace_at_start p (p ++ s) = s.
Proof.
  unfold replace_at_start. rewrite startsWith_app.
  now rewrite skipn_app, skipn_all, Nat.sub_diag.
Qed.

Lemma replace_at_end_app (p s : jsstring) : replace_at_end p (s ++ p) = s.
Proof.
  unfold replace_at_end, endsWith. rewrite rev_app_distr, startsWith_app.
  rewrite <- (length_rev p), skipn_app, skipn_all, Nat.sub_diag. simpl.
  apply rev_involutive.
Qed.

Lemma trimStart_white_app (a s : jsstring) :
  all_white a -> trimStart (a ++ s) = trimStart s.
Proof.
  unfold all_white. induction a as [|c a IH]; simpl; [reflexivity|].
  intros H. apply andb_prop in H as [Hc Ha]. rewrite Hc. now apply IH.
Qed.

Lemma trimStart_app (s b : jsstring) :
  trimStart (s ++ b) =
  match trimStart s with [] => trimStart b | t => t ++ b end.
Proof.
  induction s as [|c s IH]; simpl.
  - now destruct (trimStart b).
  - destruct (is_white c); [exact IH|reflexivity].
Qed.

Lemma trimStart_all_white (a : jsstring) : all_white a -> trimStart a = [].
Proof.
  intros H. rewrite <- (app_nil_r a). now rewrite trimStart_white_app.
Qed.

Lemma all_white_rev (a : jsstring) : all_white a -> all_white (rev a).
Proof.
  unfold all_white. rewrite !forallb_forall. intros H c Hc.
  apply H. now apply in_rev.
Qed.

Lemma trimEnd_white_app (s b : jsstring) :
  all_white b -> trimEnd (s ++ b) = trimEnd s.
Proof.
  intros H. unfold trimEnd. rewrite rev_app_distr.
  now rewrite trimStart_white_app by now apply all_white_rev.
Qed.

Lemma trimStart_cons (c : code_unit) (s : jsstring) :
  is_white c = false -> trimStart (c :: s) = c :: s.
Proof. intros H. simpl. now rewrite H. Qed.

Lemma trimEnd_snoc (c : code_unit) (s : jsstring) :
  is_white c = false -> trimEnd (s ++ [c]) = s ++ [c].
Proof.
  intros H. unfold trimEnd. rewrite rev_app_distr. simpl. rewrite H.
  simpl. now rewrite rev_involutive.
Qed.

(** Trimming forgets white space put around a text. *)
Lemma trim_white_around (a x b : jsstring) :
  all_white a -> all_white b -> trim (a ++ x ++ b) = trim x.
Proof.
  intros Ha Hb. unfold trim. rewrite trimStart_white_app by assumption.
  rewrite trimStart_app. destruct (trimStart x) as [|c t] eqn:E.
  - now rewrite trimStart_all_white.
  - now rewrite trimEnd_white_app.
Qed.

(** Trimming a text whose first and last characters are not white space
    removes exactly the white space around it. *)
Lemma trim_core (pre m post : jsstring) (c d : code_unit) :
  all_white pre -> all_white post ->
  is_white c = false -> is_white d = false ->
  trim (pre ++ (c :: m ++ [d]) ++ post) = c :: m ++ [d].
Proof.
  intros Hpre Hpost Hc Hd. unfold trim.
  rewrite trimStart_white_app by assumption.
  simpl. rewrite Hc.
  change (c :: (m ++ [d]) ++ post) with ((c :: m ++ [d]) ++ post).
  rewrite trimEnd_white_app by assumption.
  change (c :: m ++ [d]) with ((c :: m) ++ [d]).
  now apply trimEnd_snoc.
Qed.

(** What [normalize] leaves of a block fenced with the [json] tag: the
    trimmed inside, whatever it is. *)
Lemma normalize_json_fenced (pre a x b post : jsstring) :
  all_white pre -> all_white a -> all_white b -> all_white post ->
  Server.normalize (json_fenced pre a x b post) = trim x.
Proof.
  intros Hpre Ha Hb Hpost. unfold Server.normalize, json_fenced.
  assert (E : pre ++ str "```json" ++ a ++ x ++ b ++ str "```" ++ post
              = pre ++ (96%N :: (str "``json" ++ a ++ x ++ b ++ str "``")
                          ++ [96%N]) ++ post).
  { f_equal. simpl. repeat rewrite <- app_assoc. reflexivity. }
  rewrite E, trim_core by (assumption || reflexivity).
  replace (96%N :: (str "``json" ++ a ++ x ++ b ++ str "``") ++ [96%N])
    with (str "```json" ++ (a ++ x ++ b) ++ str "```")
    by (simpl; repeat rewrite <- app_assoc; reflexivity).
  rewrite replace_at_start_app, replace_at_end_app.
  now apply trim_white_around.
Qed.

End Strings.

Section Reader.
Import JS Notions.

Lemma consumed_more (k s rest : jsstring) (P : code_unit -> Prop) :
  consumed s rest P -> consumed (k ++ s) rest P.
Proof.
  intros (m & c & -> & H). exists (k ++ m), c.
  now rewrite <- app_assoc.
Qed.

Lemma consumed_trans (s mid rest : jsstring) (P Q : code_unit -> Prop) :
  consumed s mid P -> consumed mid rest Q -> consumed s rest Q.
Proof.
  intros (m & c & -> & _) (m' & c' & -> & H).
  exists (m ++ c :: m'), c'. split; [|exact H].
  now rewrite <- app_assoc.
Qed.

Lemma consumed_weaken (s rest : jsstring) (P Q : code_unit -> Prop) :
  (forall c, P c -> Q c) -> consumed s rest P -> consumed s rest Q.
Proof. intros H (m & c & E & Hc). exists m, c. auto. Qed.

Lemma json_ws_is_white (c : code_unit) :
  is_json_ws c = true -> is_white c = true.
Proof.
  unfold is_json_ws, is_white. intros H.
  repeat (apply orb_prop in H as [H|H]);
    apply N.eqb_eq in H; subst; reflexivity.
Qed.

Lemma skip_ws_split (s : jsstring) :
  exists pre, s = pre ++ skip_ws s /\ forallb is_json_ws pre = true.
Proof.
  induction s as [|c s (pre & E & H)]; simpl.
  - now exists [].
  - destruct (is_json_ws c) eqn:Hc.
    + exists (c :: pre). simpl. rewrite Hc, H. split; [now f_equal|reflexivity].
    + now exists [].
Qed.

Lemma skip_ws_nil_white (s : jsstring) : skip_ws s = [] -> all_white s.
Proof.
  unfold all_white. induction s as [|c s IH]; simpl; [reflexivity|].
  destruct (is_json_ws c) eqn:Hc; [|discriminate].
  intros H. now rewrite (json_ws_is_white _ Hc), IH.
Qed.

Lemma trimStart_skip_ws (s : jsstring) : trimStart (skip_ws s) = trimStart s.
Proof.
  induction s as [|c s IH]; simpl; [reflexivity|].
  destruct (is_json_ws c) eqn:Hc; [|reflexivity].
  now rewrite (json_ws_is_white _ Hc).
Qed.

Lemma skip_ws_app (s b : jsstring) :
  skip_ws (s ++ b) = match skip_ws s with [] => skip_ws b | t => t ++ b end.
Proof.
  induction s as [|c s IH]; simpl.
  - now destruct (skip_ws b).
  - destruct (is_json_ws c); [exact IH|reflexivity].
Qed.

Lemma span_digits_split (s : jsstring) (ds : list N) (rest : jsstring) :
  span_digits s = (ds, rest) ->
  (ds = [] /\ rest = s) \/ consumed s rest digit.
Proof.
  revert ds rest. induction s as [|c s IH]; simpl; intros ds rest H.
  - injection H as <- <-. now left.
  - destruct (is_digit c) eqn:Hc.
    + destruct (span_digits s) as [ds' rest'] eqn:E.
      injection H as <- <-. right.
      destruct (IH _ _ eq_refl) as [[_ ->]|Hs].
      * now exists [], c.
      * now apply (consumed_more [c]).
    + injection H as <- <-. now left.
Qed.

Lemma read_minus_split (s : jsstring) :
  exists k, s = k ++ snd (read_minus s).
Proof.
  destruct s as [|c r]; [now exists []|].
  unfold read_minus. destruct (N.eqb c (ch "-")); simpl.
  - now exists [c].
  - now exists [].
Qed.

Lemma read_int_end (s rest : jsstring) (ds : list N) :
  read_int s = Some (ds, rest) -> consumed s rest digit.
Proof.
  unfold read_int. destruct s as [|c r]; [discriminate|].
  destruct (N.eqb_spec c (ch "0")) as [->|_].
  - intros [= <- <-]. now exists [], (ch "0").
  - destruct (is_digit c) eqn:Hc; [|discriminate].
    destruct (span_digits (c :: r)) as [ds' rest'] eqn:E.
    intros [= <- <-].
    destruct (span_digits_split _ E) as [[-> _]|Hs]; [|exact Hs].
    simpl in E. rewrite Hc in E. destruct (span_digits r). discriminate.
Qed.

Lemma span_digits_some (k s rest : jsstring) (d : N) (ds : list N)
  (E : span_digits s = (d :: ds, rest)) : consumed (k ++ s) rest digit.
Proof.
  apply consumed_more.
  destruct (span_digits_split _ E) as [[? _]|Hs]; [discriminate|exact Hs].
Qed.

Lemma read_frac_end (s rest : jsstring) (ds : list N) :
  read_frac s = Some (ds, rest) -> rest = s \/ consumed s rest digit.
Proof.
  unfold read_frac. destruct s as [|c r]; [intros [= <- <-]; now left|].
  destruct (N.eqb c (ch ".")); [|intros [= <- <-]; now left].
  destruct (span_digits r) as [[|d ds'] rest'] eqn:E; [discriminate|].
  intros [= <- <-]. right. exact (span_digits_some [c] _ E).
Qed.

Lemma read_exp_end (s rest : jsstring) (e : Z) :
  read_exp s = Some (e, rest) -> rest = s \/ consumed s rest digit.
Proof.
  unfold read_exp. destruct s as [|c r]; [intros [= <- <-]; now left|].
  destruct (N.eqb c (ch "e") || N.eqb c (ch "E"));
    [|intros [= <- <-]; now left].
  destruct r as [|c1 r']; [discriminate|].
  destruct (N.eqb c1 (ch "-")); [|destruct (N.eqb c1 (ch "+"))].
  - destruct (span_digits r') as [[|d ds] rest0] eqn:E; [discriminate|].
    intros [= <- <-]. right. exact (span_digits_some [c; c1] _ E).
  - destruct (span_digits r') as [[|d ds] rest0] eqn:E; [discriminate|].
    intros [= <- <-]. right. exact (span_digits_some [c; c1] _ E).
  - destruct (span_digits (c1 :: r')) as [[|d ds] rest0] eqn:E;
      [discriminate|].
    intros [= <- <-]. right. exact (span_digits_some [c] _ E).
Qed.

(** A number that was read ends with a digit. *)
Lemma parse_number_end (s rest : jsstring) (x : number) :
  parse_number s = Some (x, rest) -> consumed s rest digit.
Proof.
  unfold parse_number. destruct (read_minus_split s) as [k Ek].
  destruct (read_minus s) as [sign s1]. simpl in Ek.
  destruct (read_int s1) as [[int_ds s2]|] eqn:E1; [|discriminate].
  destruct (read_frac s2) as [[frac_ds s3]|] eqn:E2; [|discriminate].
  destruct (read_exp s3) as [[e s4]|] eqn:E3; [|discriminate].
  intros [= _ <-]. rewrite Ek. apply consumed_more.
  apply read_int_end in E1.
  assert (H3 : consumed s1 s3 digit).
  { destruct (read_frac_end _ E2) as [->|H]; [exact E1|].
    exact (consumed_trans E1 H). }
  destruct (read_exp_end _ E3) as [->|H]; [exact H3|].
  exact (consumed_trans H3 H).
Qed.

Lemma parse_string_body_end (s body rest : jsstring) :
  parse_string_body s = Some (body, rest) -> consumed s rest (eq dquote).
Proof.
  remember (length s) as n eqn:Hn. revert s body rest Hn.
  induction n as [n IH] using lt_wf_ind. intros s body rest Hn.
  destruct s as [|c r]; [discriminate|]. simpl in Hn.
  cbn [parse_string_body].
  destruct (N.eqb_spec c dquote) as [->|_].
  { intros [= <- <-]. now exists [], dquote. }
  destruct (N.eqb c (ch "\")).
  - destruct r as [|e r1]; [discriminate|].
    destruct (N.eqb e (ch "u")).
    + destruct r1 as [|h1 [|h2 [|h3 [|h4 r2]]]]; try discriminate.
      destruct (hex4 h1 h2 h3 h4); [|discriminate].
      destruct (parse_string_body r2) as [[b' rest']|] eqn:E; [|discriminate].
      intros [= <- <-].
      apply (consumed_more [c; e; h1; h2; h3; h4]).
      apply (IH (length r2)) with (body := b'); [simpl in Hn; lia|reflexivity|exact E].
    + destruct (simple_escape e); [|discriminate].
      destruct (parse_string_body r1) as [[b' rest']|] eqn:E; [|discriminate].
      intros [= <- <-].
      apply (consumed_more [c; e]).
      apply (IH (length r1)) with (body := b'); [simpl in Hn; lia|reflexivity|exact E].
  - destruct (N.ltb c 32); [discriminate|].
    destruct (parse_string_body r) as [[b' rest']|] eqn:E; [|discriminate].
    intros [= <- <-].
    apply (consumed_more [c]).
    apply (IH (length r)) with (body := b'); [lia|reflexivity|exact E].
Qed.

Lemma startsWith_split (p s : jsstring) :
  startsWith p s = true -> s = p ++ skipn (length p) s.
Proof.
  revert s. induction p as [|c p IH]; intros [|d s]; simpl; try easy.
  intros H. apply andb_prop in H as [Hc Hp].
  apply N.eqb_eq in Hc. subst d. f_equal. now apply IH.
Qed.

Lemma digit_solid (c : code_unit) : digit c -> solid c.
Proof.
  unfold digit, is_digit. intros H. apply andb_prop in H as [H1 H2].
  apply N.leb_le in H1, H2.
  assert (E : (c = 48 \/ c = 49 \/ c = 50 \/ c = 51 \/ c = 52 \/ c = 53
               \/ c = 54 \/ c = 55 \/ c = 56 \/ c = 57)%N) by lia.
  repeat (destruct E as [->|E]); try subst c; split;
    (reflexivity || discriminate).
Qed.

Lemma parse_number_start (c : code_unit) (r rest : jsstring) (x : number) :
  parse_number (c :: r) = Some (x, rest) -> solid c.
Proof.
  unfold parse_number, read_minus.
  destruct (N.eqb_spec c (ch "-")) as [->|_].
  { intros _. split; [reflexivity|discriminate]. }
  unfold read_int. destruct (N.eqb_spec c (ch "0")) as [->|_].
  { intros _. split; [reflexivity|discriminate]. }
  destruct (is_digit c) eqn:Hc; [|discriminate].
  intros _. now apply digit_solid.
Qed.

(** What the reader took ends with a closing brace, bracket or quote, a
    digit or the last letter of a literal; the value starts, after JSON
    white space, with a character that is no backtick either. *)
Lemma reader_shape (fuel : nat) :
  (forall s v rest, parse_value fuel s = Some (v, rest) ->
     consumed s rest solid
     /\ exists c r, skip_ws s = c :: r /\ solid c)
  /\ (forall s vs rest, parse_elements fuel s = Some (vs, rest) ->
        consumed s rest solid)
  /\ (forall s ms rest, parse_members fuel s = Some (ms, rest) ->
        consumed s rest solid).
Proof.
  assert (Hclose : forall (s s1 r : jsstring) (c : code_unit),
             (exists k, s = k ++ s1) -> skip_ws s1 = c :: r -> solid c ->
             consumed s r solid).
  { intros s s1 r c [k ->] E Hc.
    destruct (skip_ws_split s1) as (pre & E1 & _). rewrite E in E1.
    rewrite E1. exists (k ++ pre), c. split; [|exact Hc].
    now rewrite <- app_assoc. }
  assert (Hafter : forall (s s1 : jsstring) P,
             consumed s s1 P -> exists k, s = k ++ s1).
  { intros s s1 P (m & c & -> & _). exists (m ++ [c]).
    now rewrite <- app_assoc. }
  assert (Sbrace : solid (ch "}")) by (split; [reflexivity|discriminate]).
  assert (Sbracket : solid (ch "]")) by (split; [reflexivity|discriminate]).
  induction fuel as [|f (IHv & IHe & IHm)].
  { repeat split; intros; discriminate. }
  split; [|split].
  - (* a value *)
    intros s v rest. cbn [parse_value].
    destruct (skip_ws s) as [|c r] eqn:Es; [discriminate|].
    assert (Ks : exists k, s = k ++ c :: r).
    { destruct (skip_ws_split s) as (pre & E1 & _). rewrite Es in E1.
      now exists pre. }
    assert (Kr : exists k, s = k ++ r).
    { destruct Ks as [k ->]. exists (k ++ [c]). now rewrite <- app_assoc. }
    destruct (N.eqb_spec c (ch "{")) as [->|_].
    { intros H. split; [|exists (ch "{"), r; split; [reflexivity|split; [reflexivity|discriminate]]].
      destruct (skip_ws r) as [|c1 r1] eqn:Er; [discriminate|].
      destruct (N.eqb_spec c1 (ch "}")) as [->|_].
      - injection H as _ <-. exact (Hclose _ _ _ _ Kr Er Sbrace).
      - destruct (parse_members f r) as [[ms rest']|] eqn:Em; [|discriminate].
        injection H as _ <-. destruct Kr as [k ->].
        apply consumed_more. exact (IHm _ _ _ Em). }
    destruct (N.eqb_spec c (ch "[")) as [->|_].
    { intros H. split; [|exists (ch "["), r; split; [reflexivity|split; [reflexivity|discriminate]]].
      destruct (skip_ws r) as [|c1 r1] eqn:Er; [discriminate|].
      destruct (N.eqb_spec c1 (ch "]")) as [->|_].
      - injection H as _ <-. exact (Hclose _ _ _ _ Kr Er Sbracket).
      - destruct (parse_elements f r) as [[vs rest']|] eqn:Ee; [|discriminate].
        injection H as _ <-. destruct Kr as [k ->].
        apply consumed_more. exact (IHe _ _ _ Ee). }
    destruct (N.eqb_spec c dquote) as [->|_].
    { destruct (parse_string_body r) as [[body rest']|] eqn:Eb; [|discriminate].
      intros [= _ <-].
      split; [|exists dquote, r; split; [reflexivity|split; [reflexivity|discriminate]]].
      destruct Kr as [k ->]. apply consumed_more.
      apply parse_string_body_end in Eb.
      apply (consumed_weaken (P := eq dquote)); [|exact Eb].
      intros ? <-. split; [reflexivity|discriminate]. }
    assert (Hlit : forall lit : jsstring, forall c0 d0 : code_unit,
               forall mid : jsstring,
               lit = c0 :: mid ++ [d0] -> solid c0 -> solid d0 ->
               startsWith lit (c :: r) = true ->
               consumed s (skipn (length lit) (c :: r)) solid
               /\ exists c' r', c :: r = c' :: r' /\ solid c').
    { intros lit c0 d0 mid El Hc0 Hd0 Hs.
      pose proof (startsWith_split _ _ Hs) as E.
      split.
      - destruct Ks as [k ->]. apply consumed_more. rewrite E at 1.
        rewrite El. exists (c0 :: mid), d0. split; [|exact Hd0].
        simpl. now rewrite <- app_assoc.
      - exists c, r. split; [reflexivity|].
        rewrite El in E. simpl in E. injection E as -> _. exact Hc0. }
    destruct (startsWith (str "true") (c :: r)) eqn:Et.
    { intros [= _ <-].
      apply (Hlit (str "true") (ch "t") (ch "e") (str "ru"));
        [reflexivity|split; [reflexivity|discriminate]
        |split; [reflexivity|discriminate]|exact Et]. }
    destruct (startsWith (str "false") (c :: r)) eqn:Ef.
    { intros [= _ <-].
      apply (Hlit (str "false") (ch "f") (ch "e") (str "als"));
        [reflexivity|split; [reflexivity|discriminate]
        |split; [reflexivity|discriminate]|exact Ef]. }
    destruct (startsWith (str "null") (c :: r)) eqn:En.
    { intros [= _ <-].
      apply (Hlit (str "null") (ch "n") (ch "l") (str "ul"));
        [reflexivity|split; [reflexivity|discriminate]
        |split; [reflexivity|discriminate]|exact En]. }
    destruct (parse_number (c :: r)) as [[x rest']|] eqn:En'; [|discriminate].
    intros [= _ <-]. split.
    + destruct Ks as [k ->]. apply consumed_more.
      apply consumed_weaken with (P := digit); [exact digit_solid|].
      eapply parse_number_end; exact En'.
    + exists c, r. split; [reflexivity|]. eapply parse_number_start; exact En'.
  - (* elements *)
    intros s vs rest. cbn [parse_elements].
    destruct (parse_value f s) as [[v r]|] eqn:Ev; [|discriminate].
    destruct (IHv _ _ _ Ev) as [Hv _]. apply Hafter in Hv.
    destruct (skip_ws r) as [|c r1] eqn:Er; [discriminate|].
    destruct (N.eqb_spec c (ch ",")) as [->|_].
    + destruct (parse_elements f r1) as [[vs' rest']|] eqn:Ee; [|discriminate].
      intros [= _ <-].
      assert (K : exists k, s = k ++ r1).
      { destruct Hv as [k ->]. destruct (skip_ws_split r) as (pre & E1 & _).
        rewrite Er in E1. rewrite E1. exists (k ++ pre ++ [ch ","]).
        now rewrite <- !app_assoc. }
      destruct K as [k ->]. apply consumed_more. exact (IHe _ _ _ Ee).
    + destruct (N.eqb_spec c (ch "]")) as [->|_]; [|discriminate].
      intros [= _ <-]. exact (Hclose _ _ _ _ Hv Er Sbracket).
  - (* members *)
    intros s ms rest. cbn [parse_members].
    destruct (skip_ws s) as [|q r] eqn:Es; [discriminate|].
    destruct (N.eqb q dquote); [|discriminate].
    destruct (parse_string_body r) as [[key r1]|] eqn:Ek; [|discriminate].
    destruct (skip_ws r1) as [|colon r2] eqn:E1; [discriminate|].
    destruct (N.eqb colon (ch ":")); [|discriminate].
    destruct (parse_value f r2) as [[v r3]|] eqn:Ev; [|discriminate].
    assert (K3 : exists k, s = k ++ r3).
    { destruct (skip_ws_split s) as (pre & E & _). rewrite Es in E.
      apply parse_string_body_end in Ek. apply Hafter in Ek as [k1 ->].
      destruct (skip_ws_split r1) as (pre1 & E' & _). rewrite E1 in E'.
      destruct (IHv _ _ _ Ev) as [Hv _]. apply Hafter in Hv as [k2 ->].
      rewrite E, E'. exists (pre ++ q :: k1 ++ pre1 ++ colon :: k2).
      rewrite <- !app_assoc. simpl. rewrite <- !app_assoc. reflexivity. }
    destruct (skip_ws r3) as [|c r4] eqn:E3; [discriminate|].
    destruct (N.eqb_spec c (ch ",")) as [->|_].
    + destruct (parse_members f r4) as [[ms' rest']|] eqn:Em; [|discriminate].
      intros [= _ <-].
      assert (K : exists k, s = k ++ r4).
      { destruct K3 as [k ->]. destruct (skip_ws_split r3) as (pre & E & _).
        rewrite E3 in E. rewrite E. exists (k ++ pre ++ [ch ","]).
        now rewrite <- !app_assoc. }
      destruct K as [k ->]. apply consumed_more. exact (IHm _ _ _ Em).
    + destruct (N.eqb_spec c (ch "}")) as [->|_]; [|discriminate].
      intros [= _ <-]. exact (Hclose _ _ _ _ K3 E3 Sbrace).
Qed.

(** ** The fuel of the reader *)

Lemma consumed_shorter (s rest : jsstring) (P : code_unit -> Prop) :
  consumed s rest P -> length rest < length s.
Proof.
  intros (m & c & -> & _). rewrite length_app. cbn [length]. lia.
Qed.

Lemma skip_ws_shorter (s r : jsstring) (c : code_unit) :
  skip_ws s = c :: r -> length r < length s.
Proof.
  intros E. destruct (skip_ws_split s) as (pre & Es & _).
  rewrite E in Es. rewrite Es, length_app. cbn [length]. lia.
Qed.

(** A reading that succeeds with some fuel succeeds, with the same
    result, with any fuel of at least twice the length of the text plus
    two (plus three inside an array or an object). *)
Lemma fuel_enough (fuel : nat) :
  (forall s r g, parse_value fuel s = Some r ->
     2 * length s + 2 <= g -> parse_value g s = Some r)
  /\ (forall s r g, parse_elements fuel s = Some r ->
        2 * length s + 3 <= g -> parse_elements g s = Some r)
  /\ (forall s r g, parse_members fuel s = Some r ->
        2 * length s + 3 <= g -> parse_members g s = Some r).
Proof.
  induction fuel as [|f (IHv & IHe & IHm)].
  { repeat split; intros; discriminate. }
  destruct (reader_shape f) as (Sv & _ & _).
  split; [|split].
  - intros s r [|g] H Hg; [lia|]. cbn [parse_value] in *.
    destruct (skip_ws s) as [|c r0] eqn:Es; [discriminate|].
    pose proof (skip_ws_shorter _ Es) as L0.
    destruct (N.eqb c (ch "{")).
    { destruct (skip_ws r0) as [|c1 r1]; [discriminate|].
      destruct (N.eqb c1 (ch "}")); [exact H|].
      destruct (parse_members f r0) as [[ms rest]|] eqn:Em; [|discriminate].
      rewrite (IHm _ _ g Em) by lia. exact H. }
    destruct (N.eqb c (ch "[")).
    { destruct (skip_ws r0) as [|c1 r1]; [discriminate|].
      destruct (N.eqb c1 (ch "]")); [exact H|].
      destruct (parse_elements f r0) as [[vs rest]|] eqn:Ee; [|discriminate].
      rewrite (IHe _ _ g Ee) by lia. exact H. }
    exact H.
  - intros s r [|g] H Hg; [lia|]. cbn [parse_elements] in *.
    destruct (parse_value f s) as [[v r0]|] eqn:Ev; [|discriminate].
    rewrite (IHv _ _ g Ev) by lia.
    destruct (Sv _ _ _ Ev) as [Hc _]. apply consumed_shorter in Hc.
    destruct (skip_ws r0) as [|c r1] eqn:E0; [discriminate|].
    pose proof (skip_ws_shorter _ E0) as L1.
    destruct (N.eqb c (ch ",")); [|exact H].
    destruct (parse_elements f r1) as [[vs rest]|] eqn:Ee; [|discriminate].
    rewrite (IHe _ _ g Ee) by lia. exact H.
  - intros s r [|g] H Hg; [lia|]. cbn [parse_members] in *.
    destruct (skip_ws s) as [|q r0] eqn:Es; [discriminate|].
    pose proof (skip_ws_shorter _ Es) as L0.
    destruct (N.eqb q dquote); [|discriminate].
    destruct (parse_string_body r0) as [[key r1]|] eqn:Ek; [|discriminate].
    pose proof (consumed_shorter (parse_string_body_end _ Ek)) as L1.
    destruct (skip_ws r1) as [|colon r2] eqn:E1; [discriminate|].
    pose proof (skip_ws_shorter _ E1) as L2.
    destruct (N.eqb colon (ch ":")); [|discriminate].
    destruct (parse_value f r2) as [[v r3]|] eqn:Ev; [|discriminate].
    rewrite (IHv _ _ g Ev) by lia.
    destruct (Sv _ _ _ Ev) as [Hc _]. apply consumed_shorter in Hc.
    destruct (skip_ws r3) as [|c r4] eqn:E3; [discriminate|].
    pose proof (skip_ws_shorter _ E3) as L4.
    destruct (N.eqb c (ch ",")); [|exact H].
    destruct (parse_members f r4) as [[ms rest]|] eqn:Em; [|discriminate].
    rewrite (IHm _ _ g Em) by lia. exact H.
Qed.

(** [JSON_parse] never fails for want of fuel: a text that reads as one
    value with some fuel, up to trailing white space, is parsed. *)
Lemma JSON_parse_any_fuel (fuel : nat) (text rest : jsstring) (v : json) :
  parse_value fuel text = Some (v, rest) -> skip_ws rest = [] ->
  JSON_parse text = Some v.
Proof.
  intros H Hr. unfold JSON_parse.
  destruct (fuel_enough fuel) as (Hv & _ & _).
  rewrite (Hv _ _ (2 * length text + 2) H) by lia. now rewrite Hr.
Qed.

(** ** White space behind a value is not looked at *)

Lemma json_ws_cons (c : code_unit) (t : jsstring) :
  json_ws (c :: t) -> (c = 9 \/ c = 10 \/ c = 13 \/ c = 32)%N /\ json_ws t.
Proof.
  unfold json_ws. cbn [forallb]. intros H. apply andb_prop in H as [H Ht].
  split; [|exact Ht]. unfold is_json_ws in H.
  repeat (apply orb_prop in H as [H|H]); apply N.eqb_eq in H; auto.
Qed.

Ltac white_head t W :=
  destruct t as [|? ?]; [reflexivity|];
  apply json_ws_cons in W as [[-> | [-> | [-> | ->]]] _]; reflexivity.

Lemma skip_ws_trailing (t : jsstring) : json_ws t -> skip_ws t = [].
Proof.
  unfold json_ws. induction t as [|c t IH]; [reflexivity|].
  cbn [forallb skip_ws]. intros H. apply andb_prop in H as [Hc Ht].
  rewrite Hc. now apply IH.
Qed.

Lemma skip_ws_app_trailing (s t : jsstring) :
  json_ws t ->
  skip_ws (s ++ t) = match skip_ws s with [] => [] | c :: r => c :: r ++ t end.
Proof.
  intros W. rewrite skip_ws_app.
  destruct (skip_ws s); [now apply skip_ws_trailing|reflexivity].
Qed.

Lemma span_digits_trailing (t : jsstring) :
  json_ws t -> span_digits t = ([], t).
Proof. intros W. white_head t W. Qed.

Lemma span_digits_app_trailing (s t : jsstring) :
  json_ws t ->
  span_digits (s ++ t) = (fst (span_digits s), snd (span_digits s) ++ t).
Proof.
  intros W. induction s as [|c s IH]; [now apply span_digits_trailing|].
  cbn [app span_digits]. destruct (is_digit c); [|reflexivity].
  rewrite IH. now destruct (span_digits s).
Qed.

Lemma read_minus_app_trailing (s t : jsstring) :
  json_ws t ->
  read_minus (s ++ t) = (fst (read_minus s), snd (read_minus s) ++ t).
Proof.
  intros W. destruct s as [|c r].
  - cbn [app]. white_head t W.
  - unfold read_minus. cbn [app]. now destruct (N.eqb c (ch "-")).
Qed.

Lemma read_int_app_trailing (s t : jsstring) :
  json_ws t -> read_int (s ++ t) = carry t (read_int s).
Proof.
  intros W. destruct s as [|c r].
  - cbn [app]. white_head t W.
  - unfold read_int. cbn [app]. destruct (N.eqb c (ch "0")); [reflexivity|].
    destruct (is_digit c); [|reflexivity].
    change (c :: r ++ t) with ((c :: r) ++ t).
    rewrite span_digits_app_trailing by assumption.
    now destruct (span_digits (c :: r)).
Qed.

Lemma read_frac_app_trailing (s t : jsstring) :
  json_ws t -> read_frac (s ++ t) = carry t (read_frac s).
Proof.
  intros W. destruct s as [|c r].
  - cbn [app]. white_head t W.
  - unfold read_frac. cbn [app]. destruct (N.eqb c (ch ".")); [|reflexivity].
    rewrite span_digits_app_trailing by assumption.
    now destruct (span_digits r) as [[|d ds] rest].
Qed.

Lemma read_exp_app_trailing (s t : jsstring) :
  json_ws t -> read_exp (s ++ t) = carry t (read_exp s).
Proof.
  intros W. destruct s as [|c r].
  - cbn [app]. white_head t W.
  - unfold read_exp. cbn [app].
    destruct (N.eqb c (ch "e") || N.eqb c (ch "E")); [|reflexivity].
    destruct r as [|c1 r'].
    + cbn [app]. white_head t W.
    + cbn [app].
      destruct (N.eqb c1 (ch "-")); [|destruct (N.eqb c1 (ch "+"))].
      * rewrite span_digits_app_trailing by assumption.
        now destruct (span_digits r') as [[|d ds] rest].
      * rewrite span_digits_app_trailing by assumption.
        now destruct (span_digits r') as [[|d ds] rest].
      * change (c1 :: r' ++ t) with ((c1 :: r') ++ t).
        rewrite span_digits_app_trailing by assumption.
        now destruct (span_digits (c1 :: r')) as [[|d ds] rest].
Qed.

Lemma parse_number_app_trailing (s t : jsstring) :
  json_ws t -> parse_number (s ++ t) = carry t (parse_number s).
Proof.
  intros W. unfold parse_number. rewrite read_minus_app_trailing by assumption.
  destruct (read_minus s) as [sign s1]. cbn [fst snd].
  rewrite read_int_app_trailing by assumption.
  destruct (read_int s1) as [[int_ds s2]|]; [|reflexivity]. cbn [carry].
  rewrite read_frac_app_trailing by assumption.
  destruct (read_frac s2) as [[frac_ds s3]|]; [|reflexivity]. cbn [carry].
  rewrite read_exp_app_trailing by assumption.
  now destruct (read_exp s3) as [[e s4]|].
Qed.

(** A string that was read is decided by what was taken: whatever
    follows the closing quote is left as it is. *)
Lemma parse_string_body_prefix (s body rest : jsstring) :
  parse_string_body s = Some (body, rest) ->
  exists m, s = m ++ dquote :: rest
            /\ forall u, parse_string_body (m ++ dquote :: u) = Some (body, u).
Proof.
  remember (length s) as n eqn:Hn. revert s body rest Hn.
  induction n as [n IH] using lt_wf_ind. intros s body rest Hn.
  destruct s as [|c r]; [discriminate|]. simpl in Hn.
  cbn [parse_string_body].
  destruct (N.eqb_spec c dquote) as [->|Hq].
  { intros [= <- <-]. exists []. split; [reflexivity|]. intros u.
    cbn [app parse_string_body]. now rewrite N.eqb_refl. }
  apply N.eqb_neq in Hq.
  destruct (N.eqb c (ch "\")) eqn:Hb.
  - destruct r as [|e r1]; [discriminate|].
    destruct (N.eqb e (ch "u")) eqn:Hu.
    + destruct r1 as [|h1 [|h2 [|h3 [|h4 r2]]]]; try discriminate.
      destruct (hex4 h1 h2 h3 h4) as [x|] eqn:Hh; [|discriminate].
      destruct (parse_string_body r2) as [[b' rest']|] eqn:E; [|discriminate].
      intros [= <- <-].
      destruct (IH (length r2)) with (s := r2) (body := b') (rest := rest')
        as (m & -> & Hm); [simpl in Hn; lia|reflexivity|exact E|].
      exists (c :: e :: h1 :: h2 :: h3 :: h4 :: m). split; [reflexivity|].
      intros u. cbn [app parse_string_body].
      now rewrite Hq, Hb, Hu, Hh, Hm.
    + destruct (simple_escape e) as [x|] eqn:He; [|discriminate].
      destruct (parse_string_body r1) as [[b' rest']|] eqn:E; [|discriminate].
      intros [= <- <-].
      destruct (IH (length r1)) with (s := r1) (body := b') (rest := rest')
        as (m & -> & Hm); [simpl in Hn; lia|reflexivity|exact E|].
      exists (c :: e :: m). split; [reflexivity|].
      intros u. cbn [app parse_string_body].
      now rewrite Hq, Hb, Hu, He, Hm.
  - destruct (N.ltb c 32) eqn:Hc; [discriminate|].
    destruct (parse_string_body r) as [[b' rest']|] eqn:E; [|discriminate].
    intros [= <- <-].
    destruct (IH (length r)) with (s := r) (body := b') (rest := rest')
      as (m & -> & Hm); [lia|reflexivity|exact E|].
    exists (c :: m). split; [reflexivity|].
    intros u. cbn [app parse_string_body].
    now rewrite Hq, Hb, Hc, Hm.
Qed.

Lemma json_ws_no_quote (t : jsstring) : json_ws t -> ~ In dquote t.
Proof.
  unfold json_ws. rewrite forallb_forall. intros H Hin.
  specialize (H _ Hin). discriminate.
Qed.

Lemma parse_string_body_app_trailing (s t : jsstring) :
  json_ws t ->
  parse_string_body (s ++ t) = carry t (parse_string_body s).
Proof.
  intros W. destruct (parse_string_body s) as [[b u1]|] eqn:E1.
  - destruct (parse_string_body_prefix _ E1) as (m & -> & Hm).
    rewrite <- app_assoc. cbn [app carry]. apply Hm.
  - cbn [carry].
    destruct (parse_string_body (s ++ t)) as [[b u]|] eqn:E2; [|reflexivity].
    exfalso. destruct (parse_string_body_prefix _ E2) as (m & Es & Hm).
    apply app_eq_app in Es as [l [[-> El] | [-> El]]].
    + destruct l as [|q l'].
      * cbn [app] in El. apply (json_ws_no_quote W). rewrite <- El.
        now left.
      * cbn [app] in El. injection El as <- ->.
        rewrite (Hm l') in E1. discriminate.
    + apply (json_ws_no_quote W). rewrite El. apply in_or_app. right.
      now left.
Qed.

Lemma startsWith_app_trailing (p s t : jsstring) :
  forallb (fun c => negb (is_json_ws c)) p = true -> json_ws t ->
  startsWith p (s ++ t) = startsWith p s.
Proof.
  intros Hp W. revert s Hp. induction p as [|x p IH]; intros s Hp.
  { reflexivity. }
  cbn [forallb] in Hp. apply andb_prop in Hp as [Hx Hp].
  destruct s as [|y s]; cbn [app startsWith].
  - destruct t as [|w t']; [reflexivity|]. cbn [startsWith].
    apply json_ws_cons in W as [Hw _].
    destruct (N.eqb_spec x w) as [->|_]; [|reflexivity].
    exfalso. destruct Hw as [-> | [-> | [-> | ->]]]; discriminate.
  - now rewrite IH.
Qed.

Lemma skipn_literal (lit s t : jsstring) :
  startsWith lit s = true ->
  skipn (length lit) (s ++ t) = skipn (length lit) s ++ t.
Proof.
  intros E. apply startsWith_split in E. rewrite E at 1.
  now rewrite <- app_assoc, skipn_app, skipn_all, Nat.sub_diag.
Qed.

(** Reading a text with JSON white space put behind it gives the same
    result, the white space left unread. *)
Lemma reader_app_trailing (t : jsstring) (fuel : nat) :
  json_ws t ->
  (forall s, parse_value fuel (s ++ t) = carry t (parse_value fuel s))
  /\ (forall s, parse_elements fuel (s ++ t) = carry t (parse_elements fuel s))
  /\ (forall s, parse_members fuel (s ++ t) = carry t (parse_members fuel s)).
Proof.
  intros W. induction fuel as [|f (IHv & IHe & IHm)].
  { repeat split; reflexivity. }
  split; [|split]; intros s.
  - cbn [parse_value]. rewrite skip_ws_app_trailing by assumption.
    destruct (skip_ws s) as [|c r]; [reflexivity|].
    destruct (N.eqb c (ch "{")).
    { rewrite skip_ws_app_trailing by assumption.
      destruct (skip_ws r) as [|c1 r1]; [reflexivity|].
      destruct (N.eqb c1 (ch "}")); [reflexivity|].
      rewrite IHm. now destruct (parse_members f r) as [[ms rest]|]. }
    destruct (N.eqb c (ch "[")).
    { rewrite skip_ws_app_trailing by assumption.
      destruct (skip_ws r) as [|c1 r1]; [reflexivity|].
      destruct (N.eqb c1 (ch "]")); [reflexivity|].
      rewrite IHe. now destruct (parse_elements f r) as [[vs rest]|]. }
    destruct (N.eqb c dquote).
    { rewrite parse_string_body_app_trailing by assumption.
      now destruct (parse_string_body r) as [[body rest]|]. }
    change (c :: r ++ t) with ((c :: r) ++ t).
    rewrite !startsWith_app_trailing by (assumption || reflexivity).
    destruct (startsWith (str "true") (c :: r)) eqn:Et.
    { pose proof (skipn_literal (str "true") _ t Et) as K.
      change (length (str "true")) with 4 in K. cbn [carry]. now rewrite K. }
    destruct (startsWith (str "false") (c :: r)) eqn:Ef.
    { pose proof (skipn_literal (str "false") _ t Ef) as K.
      change (length (str "false")) with 5 in K. cbn [carry]. now rewrite K. }
    destruct (startsWith (str "null") (c :: r)) eqn:En.
    { pose proof (skipn_literal (str "null") _ t En) as K.
      change (length (str "null")) with 4 in K. cbn [carry]. now rewrite K. }
    rewrite parse_number_app_trailing by assumption.
    now destruct (parse_number (c :: r)) as [[x rest]|].
  - cbn [parse_elements]. rewrite IHv.
    destruct (parse_value f s) as [[v r]|]; [|reflexivity]. cbn [carry].
    rewrite skip_ws_app_trailing by assumption.
    destruct (skip_ws r) as [|c r1]; [reflexivity|].
    destruct (N.eqb c (ch ",")).
    + rewrite IHe. now destruct (parse_elements f r1) as [[vs rest]|].
    + now destruct (N.eqb c (ch "]")).
  - cbn [parse_members]. rewrite skip_ws_app_trailing by assumption.
    destruct (skip_ws s) as [|q r]; [reflexivity|].
    destruct (N.eqb q dquote); [|reflexivity].
    rewrite parse_string_body_app_trailing by assumption.
    destruct (parse_string_body r) as [[key r1]|]; [|reflexivity].
    cbn [carry]. rewrite skip_ws_app_trailing by assumption.
    destruct (skip_ws r1) as [|colon r2]; [reflexivity|].
    destruct (N.eqb colon (ch ":")); [|reflexivity].
    rewrite IHv. destruct (parse_value f r2) as [[v r3]|]; [|reflexivity].
    cbn [carry]. rewrite skip_ws_app_trailing by assumption.
    destruct (skip_ws r3) as [|c r4]; [reflexivity|].
    destruct (N.eqb c (ch ",")).
    + rewrite IHm. now destruct (parse_members f r4) as [[ms rest]|].
    + now destruct (N.eqb c (ch "}")).
Qed.

Lemma skip_ws_idempotent (s : jsstring) : skip_ws (skip_ws s) = skip_ws s.
Proof.
  induction s as [|c s IH]; [reflexivity|]. cbn [skip_ws].
  destruct (is_json_ws c) eqn:Hc; [exact IH|]. cbn [skip_ws]. now rewrite Hc.
Qed.

(** JSON white space in front of a value is skipped. *)
Lemma parse_value_skip_ws (fuel : nat) (s : jsstring) :
  parse_value fuel (skip_ws s) = parse_value fuel s.
Proof.
  destruct fuel as [|f]; [reflexivity|]. cbn [parse_value].
  now rewrite skip_ws_idempotent.
Qed.

Lemma skip_ws_nil_json_ws (s : jsstring) : skip_ws s = [] -> json_ws s.
Proof.
  unfold json_ws. induction s as [|c s IH]; [reflexivity|].
  cbn [skip_ws forallb]. destruct (is_json_ws c); [exact IH|discriminate].
Qed.

End Reader.

(* ================================================================== *)
(** * Properties of the server *)
(* ================================================================== *)

Section ServerProperties.
Import JS Eff MCP Server Notions.

(** The shape of a JSON text: JSON white space, then a body that starts
    and ends with characters that are neither white space nor backticks,
    then JSON white space; [trim] leaves the body. *)
Lemma json_text_body (x : jsstring) (v : json) :
  JSON_parse x = Some v ->
  exists rest c t d m,
    parse_value (2 * length x + 2) x = Some (v, rest)
    /\ skip_ws rest = []
    /\ skip_ws x = trim x ++ rest
    /\ trim x = c :: t /\ solid c
    /\ trim x = m ++ [d] /\ solid d.
Proof.
  unfold JSON_parse.
  destruct (parse_value (2 * length x + 2) x) as [[v' rest]|] eqn:E;
    [|discriminate].
  destruct (skip_ws rest) eqn:Er; [|discriminate]. intros [= <-].
  destruct (reader_shape (2 * length x + 2)) as [Hv _].
  destruct (Hv _ _ _ E) as [(m & d & Ex & Hd) (c & r & Es & Hc)].
  pose proof (skip_ws_nil_white _ Er) as Hwhite.
  assert (Ews : skip_ws x = skip_ws m ++ d :: rest).
  { rewrite Ex at 1. rewrite skip_ws_app.
    assert (Hd' : is_json_ws d = false).
    { destruct (is_json_ws d) eqn:W; [|reflexivity].
      apply json_ws_is_white in W. destruct Hd as [Hd _]. congruence. }
    simpl. rewrite Hd'. now destruct (skip_ws m). }
  assert (Et : trim x = skip_ws m ++ [d]).
  { unfold trim. rewrite <- trimStart_skip_ws, Es.
    rewrite trimStart_cons by apply Hc. rewrite <- Es, Ews.
    replace (skip_ws m ++ d :: rest) with ((skip_ws m ++ [d]) ++ rest)
      by now rewrite <- app_assoc.
    rewrite trimEnd_white_app by assumption.
    apply trimEnd_snoc, Hd. }
  assert (Eh : exists t, skip_ws m ++ [d] = c :: t).
  { rewrite Es in Ews. destruct (skip_ws m) as [|c' m'].
    - simpl in *. injection Ews as -> _. now exists [].
    - simpl in *. injection Ews as -> _. now exists (m' ++ [d]). }
  destruct Eh as [t Eh].
  exists rest, c, t, d, (skip_ws m). repeat split; try assumption.
  - rewrite Et, Ews. now rewrite <- app_assoc.
  - now rewrite Et.
  - apply Hc.
  - apply Hc.
  - apply Hd.
  - apply Hd.
Qed.

(** The text of a JSON value, trimmed, is what [normalize] hands to the
    reader: it neither starts nor ends with a backtick. *)
Lemma normalize_json_text (x : jsstring) (v : json) :
  JSON_parse x = Some v -> normalize x = trim x.
Proof.
  intros H.
  destruct (json_text_body _ H)
    as (rest & c & t & d & m & _ & _ & _ & Eh & Hc & Et & Hd).
  assert (S1 : startsWith (str "```json") (trim x) = false).
  { rewrite Eh. change (str "```json") with (96%N :: str "``json").
    apply startsWith_head. intros <-. now apply Hc. }
  assert (S2 : endsWith (str "```") (trim x) = false).
  { unfold endsWith. rewrite Et, rev_app_distr.
    change (rev (str "```")) with (96%N :: str "``").
    apply startsWith_head. intros <-. now apply Hd. }
  unfold normalize, replace_at_start. rewrite S1.
  unfold replace_at_end. rewrite S2.
  unfold trim at 1. rewrite Eh at 1. rewrite trimStart_cons by apply Hc.
  rewrite <- Eh, Et. apply trimEnd_snoc, Hd.
Qed.

(** Trimming a JSON text does not change the value it parses to. *)
Lemma JSON_parse_trim (x : jsstring) (v : json) :
  JSON_parse x = Some v -> JSON_parse (trim x) = Some v.
Proof.
  intros H.
  destruct (json_text_body _ H) as (rest & c & t & d & m & E & Er & Es & _).
  pose proof (skip_ws_nil_json_ws _ Er) as W.
  rewrite <- parse_value_skip_ws, Es in E.
  destruct (reader_app_trailing (2 * length x + 2) W) as (Hv & _ & _).
  rewrite Hv in E.
  destruct (parse_value (2 * length x + 2) (trim x)) as [[v' r']|] eqn:Et;
    [|discriminate].
  cbn [carry] in E. injection E as -> Hr.
  assert (r' = []) as ->.
  { apply (app_inv_tail rest). exact Hr. }
  exact (JSON_parse_any_fuel _ _ Et eq_refl).
Qed.

(** [createUser] when the file can be written: the record is pushed, the
    whole array is written, the new id is returned. *)
Lemma createUser_written (w : state) (userData : json) :
  fs_error w = None ->
  createUser userData w =
  (Ok (length (allUsers w) + 1),
   {| allUsers := allUsers w ++ [new_user w userData];
      users_file :=
        JSON_stringify_indent 2
          (users_array (allUsers w ++ [new_user w userData]));
      fs_error := None;
      sampling := sampling w |}).
Proof.
  intros H. unfold createUser, bind, import_users, gets, push, modify,
    writeFile, ret. cbn [allUsers users_file fs_error sampling].
  now rewrite H.
Qed.

(** [createUser] when the write fails: the exception leaves the function,
    but the record is already in the shared array. *)
Lemma createUser_write_failed (w : state) (userData : json) (e : jsstring) :
  fs_error w = Some e ->
  createUser userData w =
  (Throw e,
   {| allUsers := allUsers w ++ [new_user w userData];
      users_file := users_file w;
      fs_error := Some e;
      sampling := sampling w |}).
Proof.
  intros H. unfold createUser, bind, import_users, gets, push, modify,
    writeFile, ret. cbn [allUsers users_file fs_error sampling].
  now rewrite H.
Qed.

Lemma ada_text_parsed :
  JSON_parse (trim ada_text)
  = Some (JObj [(str "name", JStr (str "Ada"));
                (str "email", JStr (str "a@b.com"));
                (str "address", JStr (str "1 Main"));
                (str "phone", JStr (str "555"))]).
Proof. vm_compute. reflexivity. Qed.

Lemma ada_text_normalized : normalize ada_text = trim ada_text.
Proof. vm_compute. reflexivity. Qed.

(** A reply that cannot be read as JSON: nothing is created. *)
Lemma create_random_user_unreadable
      (w : state) (r : CreateMessageResult) (text : jsstring) :
  sampling w random_user_request = Ok r ->
  content r = TextContent text ->
  JSON_parse (normalize text) = None ->
  create_random_user w
  = (Ok (text_item (str "Failed to generate user data")), w).
Proof.
  intros Hs Hc Hp. unfold create_random_user, bind, request.
  rewrite Hs, Hc. unfold try_catch. rewrite Hp. reflexivity.
Qed.

(** A reply that is not text: nothing is created. *)
Lemma create_random_user_not_text (w : state) (r : CreateMessageResult) :
  sampling w random_user_request = Ok r ->
  (forall text, content r <> TextContent text) ->
  create_random_user w
  = (Ok (text_item (str "Failed to generate user data")), w).
Proof.
  intros Hs Hc. unfold create_random_user, bind, request. rewrite Hs.
  destruct (content r) as [text| | |]; try reflexivity.
  now destruct (Hc text).
Qed.

(** A reply that reads as JSON, whatever the value: it is stored. *)
Lemma create_random_user_readable
      (w : state) (r : CreateMessageResult) (text : jsstring) (v : json) :
  sampling w random_user_request = Ok r ->
  content r = TextContent text ->
  JSON_parse (normalize text) = Some v ->
  fs_error w = None ->
  create_random_user w
  = (Ok (text_item (created_message (length (allUsers w) + 1))),
     {| allUsers := allUsers w ++ [new_user w v];
        users_file :=
          JSON_stringify_indent 2 (users_array (allUsers w ++ [new_user w v]));
        fs_error := None;
        sampling := sampling w |}).
Proof.
  intros Hs Hc Hp Hf. unfold create_random_user, bind at 1, request.
  rewrite Hs, Hc. unfold try_catch. rewrite Hp. unfold bind.
  rewrite (createUser_written w v Hf). reflexivity.
Qed.

(** ** [parseInt] *)

Lemma digit_value_10 (c : code_unit) :
  digit_value 10 c = if is_digit c then Some (c - 48)%N else None.
Proof.
  unfold digit_value, is_digit.
  destruct ((48 <=? c) && (c <=? 57))%N eqn:D.
  - apply andb_prop in D as [D1 D2]. apply N.leb_le in D1, D2.
    destruct (N.ltb_spec (c - 48) 10); [reflexivity|lia].
  - destruct ((97 <=? c) && (c <=? 122))%N eqn:L.
    + apply andb_prop in L as [L1 L2]. apply N.leb_le in L1, L2.
      destruct (N.ltb_spec (c - 87) 10); [lia|reflexivity].
    + destruct ((65 <=? c) && (c <=? 90))%N eqn:U; [|reflexivity].
      apply andb_prop in U as [U1 U2]. apply N.leb_le in U1, U2.
      destruct (N.ltb_spec (c - 55) 10); [lia|reflexivity].
Qed.

Lemma radix_prefix_digits (ds rest : jsstring) :
  all_digits ds -> starts_with_digit rest = false ->
  radix_prefix 10 (ds ++ rest) = map (fun c => c - 48)%N ds.
Proof.
  unfold all_digits. induction ds as [|c ds IH]; intros Hd Hr.
  - destruct rest as [|c r]; [reflexivity|]. simpl in Hr.
    cbn [app radix_prefix map]. now rewrite digit_value_10, Hr.
  - cbn [forallb] in Hd. apply andb_prop in Hd as [Hc Hd].
    cbn [app radix_prefix map]. rewrite digit_value_10, Hc.
    now rewrite IH.
Qed.

Lemma hex_prefix_test (c : code_unit) (s : jsstring) :
  startsWith (str "0x") (c :: s) || startsWith (str "0X") (c :: s)
  = (c =? ch "0")%N && hex_marker s.
Proof.
  cbn [str startsWith]. rewrite (N.eqb_sym _ c).
  change (N_of_ascii "0") with (ch "0").
  destruct (c =? ch "0")%N; [|reflexivity]. cbn [andb].
  destruct s as [|x r]; [reflexivity|]. cbn [hex_marker].
  rewrite (N.eqb_sym _ x), (N.eqb_sym _ x).
  now rewrite !andb_true_r.
Qed.

(** A text that starts with decimal digits parses to the integer they
    spell, unless the digits are a lone [0] followed by [x] or [X]. *)
Lemma parseInt_leading_digits (ds rest : jsstring) :
  ds <> [] -> all_digits ds -> starts_with_digit rest = false ->
  (ds = [ch "0"] -> hex_marker rest = false) ->
  parseInt (ds ++ rest) = Some (digits_value ds).
Proof.
  intros Hne Hd Hr Hx. destruct ds as [|c ds]; [contradiction|].
  pose proof Hd as Hd'. unfold all_digits in Hd'. cbn [forallb] in Hd'.
  apply andb_prop in Hd' as [Hc Hds].
  destruct (digit_solid Hc) as [Hw _].
  assert (Hsign : (c =? ch "-")%N = false /\ (c =? ch "+")%N = false).
  { unfold is_digit in Hc. apply andb_prop in Hc as [H1 H2].
    apply N.leb_le in H1, H2.
    split; apply N.eqb_neq; intros ->; cbn in H1; lia. }
  destruct Hsign as [Hm Hp].
  assert (Hhex : startsWith (str "0x") ((c :: ds) ++ rest)
                 || startsWith (str "0X") ((c :: ds) ++ rest) = false).
  { cbn [app]. rewrite hex_prefix_test.
    destruct (N.eqb_spec c (ch "0")) as [->|_]; [|reflexivity].
    destruct ds as [|d ds'].
    - exact (Hx eq_refl).
    - cbn [forallb] in Hds. apply andb_prop in Hds as [Hd0 _].
      cbn [app hex_marker andb].
      unfold is_digit in Hd0. apply andb_prop in Hd0 as [H1 H2].
      apply N.leb_le in H1, H2.
      apply orb_false_intro; apply N.eqb_neq; intros ->; cbn in H2; lia. }
  unfold parseInt. cbn [app trimStart]. rewrite Hw, Hm, Hp.
  change (c :: ds ++ rest) with ((c :: ds) ++ rest). rewrite Hhex.
  rewrite (radix_prefix_digits _ Hd Hr).
  cbn [map]. unfold digits_value. cbn [map].
  now rewrite Z.mul_1_l.
Qed.

(** A text that, after white space and one sign, does not go on with a
    decimal digit parses to [NaN]. *)
Lemma parseInt_no_integer (s : jsstring) :
  starts_with_digit (unsigned_part s) = false -> parseInt s = None.
Proof.
  unfold unsigned_part, parseInt.
  assert (H : forall t : jsstring,
            starts_with_digit t = false ->
            forall sign : Z,
            (let '(radix, s3) :=
               if startsWith (str "0x") t || startsWith (str "0X") t
               then (16%N, skipn 2 t) else (10%N, t) in
             match radix_prefix radix s3 with
             | [] => None
             | d :: ds => Some (sign * Z.of_N (radix_value radix (d :: ds)))%Z
             end) = None).
  { intros [|c t] Hc sign; [reflexivity|]. cbn [starts_with_digit] in Hc.
    assert (E : startsWith (str "0x") (c :: t)
                || startsWith (str "0X") (c :: t) = false).
    { rewrite hex_prefix_test.
      destruct (N.eqb_spec c (ch "0")) as [->|_];
        [discriminate|reflexivity]. }
    rewrite E. cbn [radix_prefix]. now rewrite digit_value_10, Hc. }
  destruct (trimStart s) as [|c r]; [intros _; exact (H [] eq_refl 1%Z)|].
  destruct (N.eqb c (ch "-")); [intros Hr; exact (H r Hr (-1)%Z)|].
  destruct (N.eqb c (ch "+")); cbn [orb]; intros Hr.
  - exact (H r Hr 1%Z).
  - exact (H (c :: r) Hr 1%Z).
Qed.

(** ** The profile resource *)

Lemma not_found_text : JSON_stringify not_found = strq "{'error':'User not found'}".
Proof. vm_compute. reflexivity. Qed.

(** The read is decided by [parseInt userId] alone and never raises. *)
Lemma user_details_by_parseInt (w : state) (href userId : jsstring) :
  user_details href userId w =
  (Ok (json_contents href
         match parseInt userId with
         | Some n =>
             match find (has_id n) (allUsers w) with
             | Some user => JSON_stringify (JObj user)
             | None => JSON_stringify not_found
             end
         | None => JSON_stringify not_found
         end), w).
Proof.
  unfold user_details, bind, import_users, gets, ret, json_contents.
  destruct (parseInt userId) as [n|].
  - fold (has_id n).
    replace (find (fun user => strict_equals (obj_get (str "id") user) (Some n))
                  (allUsers w))
      with (find (has_id n) (allUsers w)) by reflexivity.
    now destruct (find (has_id n) (allUsers w)).
  - assert (E : find (fun user : object =>
                        strict_equals (obj_get (str "id") user) None)
                     (allUsers w) = None).
    { induction (allUsers w) as [|u l IH]; [reflexivity|].
      cbn [find]. unfold strict_equals at 1.
      now destruct (obj_get (str "id") u) as [[]|]. }
    now rewrite E.
Qed.

(** ** The random-user tool *)

(** C1, as amended.  Whenever the sampling backend returns the text
    [{"name":"Ada","email":"a@b.com","address":"1 Main","phone":"555"}],
    bare or inside a block fenced with an opening [```json] and a closing
    [```] marker (white space allowed around the markers), and the users
    file can be written, [create-random-user] appends exactly one record,
    with id the previous record count plus one and the four given fields,
    writes the file, and returns the success item reporting that id. *)
Theorem create_random_user_round_trip
    (w : state) (r : CreateMessageResult) (pre a b post : jsstring) :
  sampling w random_user_request = Ok r ->
  content r = TextContent ada_text
  \/ (all_white pre /\ all_white a /\ all_white b /\ all_white post
      /\ content r = TextContent (json_fenced pre a ada_text b post)) ->
  fs_error w = None ->
  let id := length (allUsers w) + 1 in
  exists w',
    create_random_user w = (Ok (text_item (created_message id)), w')
    /\ allUsers w' = allUsers w ++ [ada_user id]
    /\ users_file w' = JSON_stringify_indent 2 (users_array (allUsers w')).
Proof.
  intros Hs Hc Hf id.
  assert (Hp : exists text, content r = TextContent text
                            /\ normalize text = trim ada_text).
  { destruct Hc as [Hc|(Hpre & Ha & Hb & Hpost & Hc)].
    - exists ada_text. split; [exact Hc|exact ada_text_normalized].
    - eexists. split; [exact Hc|]. now apply normalize_json_fenced. }
  destruct Hp as (text & Hc' & Hn).
  pose proof ada_text_parsed as Hp. rewrite <- Hn in Hp.
  rewrite (create_random_user_readable w Hs Hc' Hp Hf).
  eexists. split; [reflexivity|]. split; reflexivity.
Qed.

Lemma create_random_user_round_trip_witness :
  exists w',
    create_random_user
      (server_with [] None (json_fenced [] newline ada_text newline []))
    = (Ok (text_item (str "User 1 created successfully")), w')
    /\ allUsers w' = [ada_user 1]
    /\ users_file w' = JSON_stringify_indent 2 (users_array (allUsers w')).
Proof.
  apply (@create_random_user_round_trip
           (server_with [] None (json_fenced [] newline ada_text newline []))
           (stub_result (json_fenced [] newline ada_text newline []))
           [] newline newline []).
  - reflexivity.
  - right. repeat split; reflexivity.
  - reflexivity.
Defined.

(** C1 as stated fails on two kinds of run.  With a block fenced without
    the [json] tag the opening marker stays, the text does not parse,
    nothing is appended and the failure item is returned.  With the bare
    text and a users file that cannot be written, the failure item is
    returned as well. *)
Lemma create_random_user_without_success :
  create_random_user (server_with [] None (bare_fenced ada_text))
  = (Ok (text_item (str "Failed to generate user data")),
     server_with [] None (bare_fenced ada_text))
  /\ fst (create_random_user (server_with [] (Some (str "EACCES")) ada_text))
     = Ok (text_item (str "Failed to generate user data")).
Proof. split; vm_compute; reflexivity. Qed.

(** C2, at the failing input.  The reply [{"name":"Ada"}] parses but has
    no email, address or phone; the tool stores the record
    [{ id: 1, name: "Ada" }] all the same and reports success. *)
Theorem create_random_user_stores_malformed_record :
  exists w',
    create_random_user (server_with [] None (strq "{'name':'Ada'}"))
    = (Ok (text_item (str "User 1 created successfully")), w')
    /\ allUsers w' = [[(str "id", JNum (number_of_nat 1));
                       (str "name", JStr (str "Ada"))]].
Proof. eexists. split; vm_compute; reflexivity. Qed.

(** C6, as amended.  For every JSON text [x], of value [v], a reply made
    of [x] inside a block fenced with an opening [```json] and a closing
    [```] marker is normalised to the same text as a reply made of [x]
    alone, and both replies parse to [v]. *)
Theorem json_fence_transparent
    (pre a b post x : jsstring) (v : json) :
  all_white pre -> all_white a -> all_white b -> all_white post ->
  JSON_parse x = Some v ->
  normalize (json_fenced pre a x b post) = normalize x
  /\ JSON_parse (normalize (json_fenced pre a x b post)) = Some v
  /\ JSON_parse (normalize x) = Some v.
Proof.
  intros Hpre Ha Hb Hpost Hx.
  assert (E : normalize (json_fenced pre a x b post) = normalize x).
  { rewrite (normalize_json_text _ Hx). now apply normalize_json_fenced. }
  rewrite E, (normalize_json_text _ Hx).
  repeat split; now apply JSON_parse_trim.
Qed.

Lemma json_fence_transparent_witness :
  let ada := JObj [(str "name", JStr (str "Ada"));
                   (str "email", JStr (str "a@b.com"));
                   (str "address", JStr (str "1 Main"));
                   (str "phone", JStr (str "555"))] in
  normalize (json_fenced [] newline ada_text newline []) = normalize ada_text
  /\ JSON_parse (normalize (json_fenced [] newline ada_text newline []))
     = Some ada
  /\ JSON_parse (normalize ada_text) = Some ada.
Proof.
  intros ada.
  apply (@json_fence_transparent [] newline newline [] ada_text ada);
    vm_compute; reflexivity.
Defined.

(** C6 as stated fails for a fence without the [json] tag: only the
    closing marker is stripped, and the text no longer parses. *)
Lemma bare_fence_not_transparent :
  JSON_parse (normalize (str "{}")) = Some (JObj [])
  /\ JSON_parse (normalize (bare_fenced (str "{}"))) = None.
Proof. split; vm_compute; reflexivity. Qed.

(** ** The create-user tool *)

(** When the write fails, the tool reports the failure, yet the record
    stays in the array every later read imports. *)
Lemma create_user_write_failed (w : state) (p : UserParams) (e : jsstring) :
  fs_error w = Some e ->
  create_user p w
  = (Ok (text_item (str "Failed to save user")),
     {| allUsers := allUsers w ++ [new_user w (params_object p)];
        users_file := users_file w;
        fs_error := Some e;
        sampling := sampling w |}).
Proof.
  intros H. unfold create_user, try_catch, bind.
  now rewrite (createUser_write_failed w (params_object p) H).
Qed.

(** C4, at the failing input.  With a users file that cannot be written,
    [create-user] returns the failure item, but a read of [users://all]
    that returned the empty list before the call returns the new record
    after it. *)
Theorem create_user_failed_write_is_visible :
  let w := server_with [] (Some (str "EACCES")) [] in
  let href := str "users://all" in
  fst (users href w) = Ok (json_contents href (str "[]"))
  /\ fst (create_user ada_params w)
     = Ok (text_item (str "Failed to save user"))
  /\ fst (users href (snd (create_user ada_params w)))
     = Ok (json_contents href
             (strq "[{'id':1,'name':'Ada','email':'a@b.com','address':'1 Main','phone':'555'}]")).
Proof. repeat split; vm_compute; reflexivity. Qed.

(** ** The profile resource *)



(** C10, as amended.  The read of [users://{userId}/profile] never raises
    and is decided by the integer [parseInt] reads at the start of
    [userId]: a [userId] that starts with decimal digits yields the
    profile of the first record whose id is the integer they spell,
    whatever follows the digits, provided that integer is positive or
    the digits are not followed by [x] or [X] (after a lone [0] these
    announce a hexadecimal number); a [userId] that, after white space
    and one sign, does not start with a digit yields the not-found
    payload.  The ids of the store and the integer read are taken within
    the range in which the Numbers of the engine are the integers
    themselves ([safe_integer]). *)
Theorem user_details_integer_prefix :
  (forall w href userId, exists payload,
      user_details href userId w = (Ok (json_contents href payload), w))
  /\ (forall w href ds rest user,
        ds <> [] -> all_digits ds -> starts_with_digit rest = false ->
        (0 < digits_value ds)%Z \/ hex_marker rest = false ->
        safe_integer (digits_value ds) ->
        (forall u, In u (allUsers w) -> safe_id u) ->
        find (has_id (digits_value ds)) (allUsers w) = Some user ->
        user_details href (ds ++ rest) w
        = (Ok (json_contents href (JSON_stringify (JObj user))), w))
  /\ (forall w href userId,
        starts_with_digit (unsigned_part userId) = false ->
        user_details href userId w
        = (Ok (json_contents href (strq "{'error':'User not found'}")), w)).
Proof.
  split; [|split].
  - intros w href userId. eexists. apply user_details_by_parseInt.
  - intros w href ds rest user Hne Hd Hr Hx _ _ Hf.
    rewrite user_details_by_parseInt.
    rewrite (parseInt_leading_digits _ Hne Hd Hr); [now rewrite Hf|].
    intros ->. destruct Hx as [Hx|Hx]; [discriminate|exact Hx].
  - intros w href userId H.
    rewrite user_details_by_parseInt, (parseInt_no_integer _ H).
    now rewrite not_found_text.
Qed.

Lemma user_details_integer_prefix_witness :
  let w := server_with [ada_user 1; ada_user 2] None [] in
  user_details (str "users://2abc/profile") (str "2abc") w
  = (Ok (json_contents (str "users://2abc/profile")
           (strq "{'id':2,'name':'Ada','email':'a@b.com','address':'1 Main','phone':'555'}")), w)
  /\ user_details (str "users://abc/profile") (str "abc") w
     = (Ok (json_contents (str "users://abc/profile")
              (strq "{'error':'User not found'}")), w).
Proof.
  destruct user_details_integer_prefix as (_ & Hdigits & Hnone). split.
  - apply (Hdigits _ _ (str "2") (str "abc") (ada_user 2));
      try reflexivity; [discriminate|left; reflexivity
                       |vm_compute; discriminate|].
    intros u [<-|[<-|[]]] x [= <-]; [exists 1%Z|exists 2%Z];
      (split; [vm_compute; discriminate|reflexivity]).
  - apply Hnone. reflexivity.
Defined.

(** C10 as stated fails for a [userId] that starts with [0x]: the
    leading decimal digits of [0x1f] are the lone [0], the id of a record
    of the store, yet the read does not return that record; [parseInt]
    reads the hexadecimal number 31, and the profile returned is the one
    of the record with the id 31. *)
Lemma user_details_hexadecimal_prefix :
  let w := server_with [ada_user 0; ada_user 31] None [] in
  let href := str "users://0x1f/profile" in
  radix_prefix 10 (str "0x1f") = [0%N]
  /\ find (has_id 0) (allUsers w) = Some (ada_user 0)
  /\ parseInt (str "0x1f") = Some 31%Z
  /\ user_details href (str "0x1f") w
     = (Ok (json_contents href (JSON_stringify (JObj (ada_user 31)))), w)
  /\ user_details href (str "0x1f") (server_with [ada_user 0] None [])
     = (Ok (json_contents href (strq "{'error':'User not found'}")),
        server_with [ada_user 0] None []).
Proof. repeat split; vm_compute; reflexivity. Qed.

End ServerProperties.

(* ================================================================== *)
(** * Properties of the driver *)
(* ================================================================== *)

Section ClientProperties.
Import JS Eff MCP Client Notions.

(** ** The log only grows *)

(** [extends m]: whatever [m] does, the log it leaves is the log it found
    followed by new events. *)
Lemma generations_app (a b : list event) :
  generations (a ++ b) = generations a ++ generations b.
Proof.
  induction a as [|e a IH]; [reflexivity|].
  destruct e; cbn [app generations]; now rewrite ?IH.
Qed.

Lemma generated_texts_app (a b : list event) :
  generated_texts (a ++ b) = generated_texts a ++ generated_texts b.
Proof.
  induction a as [|e a IH]; [reflexivity|].
  destruct e as [| | | |p [g|err]| | |]; cbn [app generated_texts];
    now rewrite ?IH.
Qed.

Lemma answers_app (a b : list event) :
  answers (a ++ b) = answers a ++ answers b.
Proof.
  induction a as [|e a IH]; [reflexivity|].
  destruct e; cbn [app answers]; now rewrite ?IH.
Qed.

Lemma log_record (e : event) (w : world) : log (record e w) = log w ++ [e].
Proof. reflexivity. Qed.

(** ** One message of a sampling request *)

(** What [handleServerMessagePrompt] does with one message, read off the
    events it adds: a returned text comes from exactly one successful call
    of the model, on the message's text, after the operator said yes;
    [undefined] comes without any call; a failure of the model is the
    exception raised. *)
Lemma handleServerMessagePrompt_events (m : PromptMessage) (w : world) :
  exists new,
    log (snd (handleServerMessagePrompt m w)) = log w ++ new
    /\ match fst (handleServerMessagePrompt m w) with
       | Ok (Some t) =>
           exists p g,
             msg_content m = TextContent p
             /\ answers new = [true]
             /\ generations new = [(p, Ok g)]
             /\ generated_texts new = [t]
       | Ok None =>
           generations new = [] /\ generated_texts new = []
           /\ ((exists p, msg_content m = TextContent p
                          /\ answers new = [false])
               \/ ((forall p, msg_content m <> TextContent p)
                   /\ answers new = []))
       | Throw e =>
           forall p e0, In (p, Throw e0) (generations new) -> e0 = e
       end.
Proof.
  unfold handleServerMessagePrompt.
  destruct (msg_content m) as [t|d mt|d mt|u] eqn:Em;
    try (exists []; cbn; rewrite app_nil_r; repeat split; try reflexivity;
         right; split; [intros p; discriminate|reflexivity]).
  unfold bind, console_log, modify, confirm.
  set (w1 := record (Printed t) w).
  set (q := str "Would you like to run the above prompt").
  destruct (user_confirm w1 (tick w1)) eqn:Eb; cbn [negb].
  - (* the operator says yes *)
    set (w2 := record (Confirmed q true) w1).
    unfold generateText, generateText_steps, bind, call_model, perform.
    set (w3 := record (Generated t (llm w2 (tick w2) t)) w2).
    destruct (llm w2 (tick w2) t) as [g|e] eqn:El.
    + destruct (gen_toolCalls g) as [|[name args] calls] eqn:Ec.
      * exists [Printed t; Confirmed q true; Generated t (Ok g)].
        cbn. split; [now rewrite <- !app_assoc|].
        exists t, g. repeat split; reflexivity.
      * exists [Printed t; Confirmed q true; Generated t (Ok g)].
        cbn. split; [now rewrite <- !app_assoc|].
        intros p e0 [H|[]]. discriminate.
    + exists [Printed t; Confirmed q true; Generated t (Throw e)].
      cbn. split; [now rewrite <- !app_assoc|].
      intros p e0 [H|[]]. now injection H.
  - (* the operator says no *)
    exists [Printed t; Confirmed q false].
    cbn. split; [now rewrite <- !app_assoc|].
    repeat split; try reflexivity. left. now exists t.
Qed.

(** ** The sampling handler *)

Lemma collect_generatedTexts_cons
      (m : PromptMessage) (rest : list PromptMessage)
      (acc : list jsstring) (w : world) :
  collect_generatedTexts (m :: rest) acc w =
  match handleServerMessagePrompt m w with
  | (Ok (Some t), w1) => collect_generatedTexts rest (acc ++ [t]) w1
  | (Ok None, w1) => collect_generatedTexts rest acc w1
  | (Throw e, w1) => (Throw e, w1)
  end.
Proof.
  cbn [collect_generatedTexts]. unfold bind.
  now destruct (handleServerMessagePrompt m w) as [[[t|]|e] w1].
Qed.

Lemma collect_generatedTexts_events
      (messages : list PromptMessage) (acc : list jsstring) (w : world) :
  exists new,
    log (snd (collect_generatedTexts messages acc w)) = log w ++ new
    /\ match fst (collect_generatedTexts messages acc w) with
       | Ok texts =>
           texts = acc ++ generated_texts new
           /\ map fst (generations new)
              = confirmed_texts messages (answers new)
           /\ length (generations new) = length (generated_texts new)
       | Throw e =>
           forall p e0, In (p, Throw e0) (generations new) -> e0 = e
       end.
Proof.
  revert acc w. induction messages as [|m rest IH]; intros acc w.
  { exists []. cbn. rewrite !app_nil_r. repeat split; reflexivity. }
  rewrite collect_generatedTexts_cons.
  destruct (handleServerMessagePrompt_events m w) as (new1 & L1 & H1).
  destruct (handleServerMessagePrompt m w) as [[[t|]|e] w1]; cbn [fst snd] in *.
  - (* a text was generated *)
    destruct H1 as (p & g & Em & Ea & Eg & Et).
    destruct (IH (acc ++ [t]) w1) as (new2 & L2 & H2).
    exists (new1 ++ new2). split; [now rewrite L2, L1, app_assoc|].
    destruct (fst (collect_generatedTexts rest (acc ++ [t]) w1)) as [texts|e].
    + destruct H2 as (-> & Ec & El).
      rewrite generated_texts_app, generations_app, answers_app, Et, Eg, Ea.
      cbn [confirmed_texts]. rewrite Em. cbn [app map fst length].
      repeat split; [now rewrite <- app_assoc|now rewrite Ec|now rewrite El].
    + intros q e0. rewrite generations_app, Eg. intros [H|H]%in_app_or.
      * destruct H as [H|[]]. discriminate.
      * exact (H2 q e0 H).
  - (* nothing was generated for this message *)
    destruct H1 as (Eg & Et & Hm).
    destruct (IH acc w1) as (new2 & L2 & H2).
    exists (new1 ++ new2). split; [now rewrite L2, L1, app_assoc|].
    destruct (fst (collect_generatedTexts rest acc w1)) as [texts|e].
    + destruct H2 as (-> & Ec & El).
      rewrite generated_texts_app, generations_app, answers_app, Et, Eg.
      cbn [confirmed_texts app]. repeat split; [|exact El].
      destruct Hm as [(p & Em & Ea)|(Hn & Ea)]; rewrite Ea.
      * rewrite Em. exact Ec.
      * destruct (msg_content m) as [p| | |]; [now destruct (Hn p)|..];
          exact Ec.
    + intros q e0. rewrite generations_app, Eg. exact (H2 q e0).
  - (* the model failed *)
    exists new1. split; [exact L1|exact H1].
Qed.

(** [handleServerMessagePrompt], outcome and world, case by case. *)
Lemma handleServerMessagePrompt_run (m : PromptMessage) (w : world) :
  handleServerMessagePrompt m w
  = match msg_content m with
    | TextContent t =>
        let w1 := record (Printed t) w in
        let b := user_confirm w1 (tick w1) in
        let w2 := record (Confirmed run_question b) w1 in
        if b then
          let out := llm w2 (tick w2) t in
          (match out with
           | Ok g =>
               match gen_toolCalls g with
               | [] => Ok (Some (gen_text g))
               | _ :: _ => Throw (str "NoSuchToolError")
               end
           | Throw e => Throw e
           end, record (Generated t out) w2)
        else (Ok None, w2)
    | _ => (Ok None, w)
    end.
Proof.
  unfold handleServerMessagePrompt.
  destruct (msg_content m) as [t|d mt|d mt|u]; try reflexivity.
  unfold bind, console_log, modify, confirm. cbv zeta.
  fold run_question.
  destruct (user_confirm (record (Printed t) w)
                         (tick (record (Printed t) w))); [|reflexivity].
  cbn [negb]. unfold generateText, generateText_steps, bind, call_model, perform.
  destruct (llm _ _ t) as [g|e]; [|reflexivity].
  now destruct (gen_toolCalls g) as [|[name arguments] calls].
Qed.





Lemma generated_texts_le (l : list event) :
  length (generated_texts l) <= length (generations l).
Proof.
  induction l as [|ev l IH]; [apply Nat.le_refl|].
  destruct ev as [| | | |q [g|err]| | |]; cbn [generations generated_texts length];
    lia.
Qed.

(** As many texts as calls: no call of the model failed. *)
Lemma all_generated (l : list event) :
  length (generations l) = length (generated_texts l) ->
  forall p e, ~ In (p, Throw e) (generations l).
Proof.
  induction l as [|ev l IH]; [intros _ p e []|].
  pose proof (generated_texts_le l) as Hle.
  destruct ev as [| | | |q [g|err]| | |];
    cbn [generations generated_texts length]; intros El p e H;
    try (now apply (IH El p e)).
  - destruct H as [H|H]; [discriminate|].
    apply (IH (eq_add_S _ _ El) p e H).
  - lia.
Qed.

Lemma added_app (w w' : world) (new : list event) :
  log w' = log w ++ new -> added w w' = new.
Proof.
  intros H. unfold added. rewrite H, skipn_app, skipn_all, Nat.sub_diag.
  reflexivity.
Qed.

(** C7.  If the model fails while the sampling handler runs, the handler
    raises that failure, and the dispatch of the request answers the
    server with an error response carrying it: the pending call is
    resolved, with a failure. *)
Theorem dispatch_replies_on_failure
    (id : N) (request : CreateMessageRequest) (w : world)
    (p e : jsstring) :
  In (p, Throw e)
     (generations (added w (snd (createMessage_handler request w)))) ->
  fst (createMessage_handler request w) = Throw e
  /\ exists w', dispatch id (createMessage_handler request) w
                = (Ok (ErrorResponse id e), w').
Proof.
  intros H.
  assert (E : fst (createMessage_handler request w) = Throw e).
  { unfold createMessage_handler, bind, ret in *.
    destruct (collect_generatedTexts_events (messages request) [] w)
      as (new & L & Hn).
    destruct (collect_generatedTexts (messages request) [] w)
      as [[texts|e'] w1]; cbn [fst snd] in *.
    - rewrite (added_app _ _ _ L) in H. destruct Hn as (_ & _ & El).
      now destruct (all_generated _ El _ _ H).
    - rewrite (added_app _ _ _ L) in H. now rewrite (Hn p e H). }
  split; [exact E|].
  unfold dispatch. destruct (createMessage_handler request w) as [[r|e'] w'].
  - discriminate.
  - cbn in E. injection E as ->. now exists w'.
Qed.

Lemma dispatch_replies_on_failure_witness :
  let w := driver_world 0 [] true down in
  let request := {| messages := [text_message (str "hi")];
                    maxTokens := 1024 |} in
  fst (createMessage_handler request w) = Throw (str "generation failed")
  /\ exists w', dispatch 7 (createMessage_handler request) w
                = (Ok (ErrorResponse 7 (str "generation failed")), w').
Proof.
  intros w request.
  apply (@dispatch_replies_on_failure 7 request w (str "hi")).
  vm_compute. left. reflexivity.
Defined.

(** ** Counting the calls of the model *)

Lemma calls_ret (A : Type) (a : A) : calls_model_at_most 0 (ret a).
Proof. intros w. exists []. cbn. now rewrite app_nil_r. Qed.

Lemma calls_throw (A : Type) (e : jsstring) :
  calls_model_at_most 0 (@throw world A e).
Proof. intros w. exists []. cbn. now rewrite app_nil_r. Qed.

Lemma calls_weaken (A : Type) (n n' : nat) (m : M world A) :
  n <= n' -> calls_model_at_most n m -> calls_model_at_most n' m.
Proof. intros Hn H w. destruct (H w) as (new & L & Hl). exists new. split; [exact L|lia]. Qed.

Lemma calls_bind (A B : Type) (a b : nat) (m : M world A) (k : A -> M world B) :
  calls_model_at_most a m -> (forall x, calls_model_at_most b (k x)) ->
  calls_model_at_most (a + b) (bind m k).
Proof.
  intros Hm Hk w. unfold bind. destruct (Hm w) as (new1 & L1 & H1).
  destruct (m w) as [[x|e] w1]; cbn [snd] in *.
  - destruct (Hk x w1) as (new2 & L2 & H2). exists (new1 ++ new2).
    split; [now rewrite L2, L1, app_assoc|].
    rewrite generations_app, length_app. lia.
  - exists new1. split; [exact L1|lia].
Qed.

Lemma calls_console_log (line : jsstring) :
  calls_model_at_most 0 (console_log line).
Proof. intros w. exists [Printed line]. split; reflexivity. Qed.

Lemma calls_input (message : jsstring) : calls_model_at_most 0 (input message).
Proof.
  intros w. exists [Entered message (user_input w (tick w))].
  split; [reflexivity|apply Nat.le_refl].
Qed.

Lemma calls_callTool (name : jsstring) (arguments : object) :
  calls_model_at_most 0 (callTool name arguments).
Proof.
  intros w.
  exists [ToolCalled name arguments (server_callTool w (tick w) name arguments)].
  split; [reflexivity|apply Nat.le_refl].
Qed.

Lemma calls_call_model (prompt : jsstring) :
  calls_model_at_most 1 (call_model prompt).
Proof.
  intros w. exists [Generated prompt (llm w (tick w) prompt)].
  split; [reflexivity|apply Nat.le_refl].
Qed.

(** *** What a tool set holds and what a step runs *)

Lemma tools_set_closure (name : jsstring)
      (execute e : object -> M world CallToolResult) (tools : ToolSet) :
  In e (map snd (tools_set name execute tools)) ->
  e = execute \/ In e (map snd tools).
Proof.
  induction tools as [|[k e0] r IH]; cbn [tools_set map snd In].
  - intros [<-|[]]. now left.
  - destruct (jsstring_eqb k name); cbn [map snd In].
    + intros [<-|H]; [now left|right; now right].
    + intros [<-|H]; [right; now left|].
      destruct (IH H) as [->|H']; [now left|right; now right].
Qed.

(** Every closure of the [tools] object a flow builds is the one the
    flow gave to one of the available tools. *)
Lemma tool_set_closure
      (execute_of : Tool -> object -> M world CallToolResult)
      (availableTools : list Tool) (e : object -> M world CallToolResult) :
  In e (map snd (tool_set execute_of availableTools)) ->
  exists tool, In tool availableTools /\ e = execute_of tool.
Proof.
  unfold tool_set.
  assert (G : forall acc,
             (forall e0, In e0 (map snd acc) ->
                exists tool, In tool availableTools /\ e0 = execute_of tool) ->
             forall tools, incl tools availableTools ->
               In e (map snd
                       (fold_left
                          (fun toolsObject tool =>
                             tools_set (tool_name tool) (execute_of tool)
                                       toolsObject) tools acc)) ->
               exists tool, In tool availableTools /\ e = execute_of tool).
  { intros acc Hacc tools. revert acc Hacc.
    induction tools as [|t ts IH]; intros acc Hacc Hin; cbn [fold_left].
    - apply Hacc.
    - apply IH.
      + intros e0 H0. destruct (tools_set_closure _ _ _ _ H0) as [->|H1].
        * exists t. split; [apply Hin; now left|reflexivity].
        * now apply Hacc.
      + intros x Hx. apply Hin. now right. }
  apply (G []); [intros e0 []|apply incl_refl].
Qed.

Lemma tools_get_closure (name : jsstring) (tools : ToolSet)
      (e : object -> M world CallToolResult) :
  tools_get name tools = Some e -> In e (map snd tools).
Proof.
  unfold tools_get.
  destruct (find (fun kv => jsstring_eqb (fst kv) name) tools) as [kv|] eqn:F;
    [|discriminate].
  intros [= <-]. apply find_some in F as [Hin _]. now apply in_map.
Qed.

(** What a step runs are closures of the tool set, each on the arguments
    of a call. *)
Lemma parse_calls_closures (tools : ToolSet)
      (calls : list (jsstring * object)) (runs : list (M world CallToolResult)) :
  parse_calls tools calls = Some runs ->
  Forall (fun run => exists e arguments,
            In e (map snd tools) /\ run = e arguments) runs.
Proof.
  revert runs. induction calls as [|[name arguments] rest IH]; intros runs;
    cbn [parse_calls].
  - intros [= <-]. constructor.
  - destruct (tools_get name tools) as [e|] eqn:G; [|discriminate].
    destruct (parse_calls tools rest) as [runs'|]; [|discriminate].
    intros [= <-]. constructor; [|now apply IH].
    exists e, arguments. split; [now apply (tools_get_closure name)|reflexivity].
Qed.

Lemma calls_attempt (A : Type) (n : nat) (m : M world A) :
  calls_model_at_most n m -> calls_model_at_most n (attempt m).
Proof.
  intros H w. destruct (H w) as (new & L & Hn). exists new.
  unfold attempt. destruct (m w) as [r w']. now split.
Qed.

Lemma calls_settle (outcomes : list (result CallToolResult)) :
  calls_model_at_most 0 (settle outcomes).
Proof.
  induction outcomes as [|[r|e] rest IH]; cbn [settle].
  - apply calls_ret.
  - apply (@calls_bind _ _ 0 0); [exact IH|]. intros rs. apply calls_ret.
  - apply calls_throw.
Qed.

Lemma calls_execute_all (tools : ToolSet) (calls : list (jsstring * object)) :
  (forall e arguments, In e (map snd tools) ->
     calls_model_at_most 0 (e arguments)) ->
  calls_model_at_most 0 (execute_all tools calls).
Proof.
  intros He. unfold execute_all.
  destruct (parse_calls tools calls) as [runs|] eqn:P; [|apply calls_throw].
  apply parse_calls_closures in P.
  apply (@calls_bind _ _ 0 0); [|intros outcomes; apply calls_settle].
  induction P as [|run runs (e & arguments & Hin & ->) _ IH]; cbn [run_all].
  - apply calls_ret.
  - apply (@calls_bind _ _ 0 0); [now apply calls_attempt, He|]. intros r.
    apply (@calls_bind _ _ 0 0); [exact IH|]. intros rs. apply calls_ret.
Qed.

(** The step loop calls the model at most [maxSteps] times. *)
Lemma calls_generateText_steps
      (maxSteps : nat) (prompt : jsstring) (tools : ToolSet) :
  (forall e arguments, In e (map snd tools) ->
     calls_model_at_most 0 (e arguments)) ->
  calls_model_at_most maxSteps (generateText_steps maxSteps prompt tools).
Proof.
  intros He. induction maxSteps as [|remaining IH]; cbn [generateText_steps].
  - apply calls_throw.
  - apply (@calls_bind _ _ 1 remaining); [apply calls_call_model|]. intros g.
    apply (@calls_bind _ _ 0 remaining);
      [now apply calls_execute_all|]. intros results.
    destruct (gen_toolCalls g) as [|c cs];
      [apply (calls_weaken (n := 0)); [lia|apply calls_ret]|].
    destruct remaining as [|k];
      [apply calls_ret|exact IH].
Qed.

(** C8.  Whatever the task, the tools, the model and the server do, the
    autonomous-task flow ends and has called the model at most 5 times:
    the tool-use loop it starts runs at most 5 steps. *)
Theorem handleAutonomousTask_at_most_5_steps (availableTools : list Tool) :
  calls_model_at_most 5 (handleAutonomousTask availableTools).
Proof.
  unfold handleAutonomousTask.
  apply (@calls_bind _ _ 0 5); [apply calls_input|]. intros taskDescription.
  apply (@calls_bind _ _ 0 5); [apply calls_console_log|]. intros _.
  apply (@calls_bind _ _ 5 0).
  - apply calls_generateText_steps. intros e arguments He.
    apply tool_set_closure in He as (tool & _ & ->).
    apply (@calls_bind _ _ 0 0); [apply calls_console_log|]. intros _.
    apply calls_callTool.
  - intros r. apply (@calls_bind _ _ 0 0); [apply calls_console_log|].
    intros _. apply calls_console_log.
Qed.

(** The ceiling is reached: a model that asks for a tool at every step is
    called exactly 5 times, and the tool is called 5 times. *)
Lemma handleAutonomousTask_reaches_5_steps :
  let w := driver_world 0 (str "Create 3 users") true
                        (keeps_calling (str "create-random-user")) in
  let w' := snd (handleAutonomousTask [create_user_tool] w) in
  fst (handleAutonomousTask [create_user_tool] w) = Ok tt
  /\ length (generations (log w')) = 5.
Proof. split; vm_compute; reflexivity. Qed.

(** The query flow gives no [maxSteps]: one step. *)
Lemma handleQuery_one_step (availableTools : list Tool) :
  calls_model_at_most 1 (handleQuery availableTools).
Proof.
  unfold handleQuery.
  apply (@calls_bind _ _ 0 1); [apply calls_input|]. intros userQuery.
  apply (@calls_bind _ _ 1 0).
  - apply calls_generateText_steps. intros e arguments He.
    apply tool_set_closure in He as (tool & _ & ->).
    apply calls_callTool.
  - intros r. apply calls_console_log.
Qed.

(** ** The menu *)

Lemma select_offered (message : jsstring) (choices : list Choice)
      (w w' : world) (v : jsstring) :
  select message choices w = (Ok v, w') ->
  In v (map choice_value choices)
  /\ w' = record (Selected message v) w.
Proof.
  unfold select. destruct choices as [|c0 rest] eqn:Ec; [discriminate|].
  rewrite <- Ec. intros H. injection H as <- <-. split; [|reflexivity].
  apply in_map, nth_In, Nat.mod_upper_bound. now rewrite Ec.
Qed.

(** C9.  In a turn of the session loop in which the operator selects
    [Query], the loop runs the query handler and then, the case having no
    [break], the autonomous-task flow in the world the query handler left;
    [Autonomous Task] itself is not among the choices of the menu, and
    [select] returns nothing but one of them. *)
Theorem query_falls_through_to_autonomous_task
    (tools : list Tool) (prompts : list Prompt)
    (resources : list Resource) (resourceTemplates : list ResourceTemplate)
    (w w1 : world) :
  select (str "What would you like to do") menu_choices w
  = (Ok (str "Query"), w1) ->
  menu_iteration tools prompts resources resourceTemplates w
  = bind (handleQuery tools) (fun _ => handleAutonomousTask tools) w1
  /\ (forall w2, handleQuery tools w1 = (Ok tt, w2) ->
        menu_iteration tools prompts resources resourceTemplates w
        = handleAutonomousTask tools w2)
  /\ ~ In (str "Autonomous Task") (map choice_value menu_choices)
  /\ (forall w0 v w0',
        select (str "What would you like to do") menu_choices w0
        = (Ok v, w0') ->
        v <> str "Autonomous Task").
Proof.
  intros Hs.
  assert (Hno : ~ In (str "Autonomous Task") (map choice_value menu_choices)).
  { cbn. intros [H|[H|[H|[H|[]]]]]; discriminate. }
  assert (E : menu_iteration tools prompts resources resourceTemplates w
              = bind (handleQuery tools)
                     (fun _ => handleAutonomousTask tools) w1).
  { unfold menu_iteration, bind at 1. rewrite Hs. reflexivity. }
  repeat split.
  - exact E.
  - intros w2 Hq. rewrite E. unfold bind. now rewrite Hq.
  - exact Hno.
  - intros w0 v w0' H Hv. subst v.
    apply select_offered in H as [H _]. exact (Hno H).
Qed.

Lemma query_falls_through_to_autonomous_task_witness :
  let w := driver_world 0 (str "hello") true (says (str "hi")) in
  let w1 := record (Selected (str "What would you like to do") (str "Query")) w in
  menu_iteration [create_user_tool] [] [] [] w
  = bind (handleQuery [create_user_tool])
         (fun _ => handleAutonomousTask [create_user_tool]) w1
  /\ printed (log (snd (menu_iteration [create_user_tool] [] [] [] w)))
     = [str "hi"; newline ++ robot ++ str " Agent working autonomously..." ++ newline;
        newline ++ check_mark ++ str " Task completed!"; str "hi"].
Proof.
  intros w w1. split.
  - assert (Hs : select (str "What would you like to do") menu_choices w
                 = (Ok (str "Query"), w1)) by reflexivity.
    exact (proj1 (@query_falls_through_to_autonomous_task
                    [create_user_tool] [] [] [] w w1 Hs)).
  - vm_compute. reflexivity.
Defined.

End ClientProperties.

(* ================================================================== *)
(** * Further properties of the JavaScript values *)
(* ================================================================== *)

Section Values.
Import JS Notions Invariants.

Lemma jsstring_eqb_eq (a b : jsstring) : jsstring_eqb a b = true <-> a = b.
Proof.
  revert b. induction a as [|x a IH]; intros [|y b]; cbn [jsstring_eqb];
    try (split; (discriminate || reflexivity)).
  rewrite andb_true_iff, N.eqb_eq, IH. split.
  - now intros [-> ->].
  - now intros [= -> ->].
Qed.

Lemma jsstring_eqb_refl (a : jsstring) : jsstring_eqb a a = true.
Proof. now apply jsstring_eqb_eq. Qed.

Lemma jsstring_eqb_sym (a b : jsstring) : jsstring_eqb a b = jsstring_eqb b a.
Proof.
  destruct (jsstring_eqb a b) eqn:E.
  - apply jsstring_eqb_eq in E. subst. now rewrite jsstring_eqb_refl.
  - destruct (jsstring_eqb b a) eqn:E'; [|reflexivity].
    apply jsstring_eqb_eq in E'. subst. now rewrite jsstring_eqb_refl in E.
Qed.

(** ** Objects *)

Lemma obj_get_app (k : jsstring) (a b : object) :
  obj_get k (a ++ b)
  = match obj_get k a with Some v => Some v | None => obj_get k b end.
Proof.
  induction a as [|[k' v] a IH]; [reflexivity|]. cbn [app obj_get].
  now destruct (jsstring_eqb k k').
Qed.

Lemma obj_get_replace (k k' : jsstring) (v : json) (o : object) :
  obj_get k o <> None ->
  obj_get k' (obj_replace k v o)
  = if jsstring_eqb k' k then Some v else obj_get k' o.
Proof.
  induction o as [|[k0 v0] o IH]; [now intros []|].
  cbn [obj_get obj_replace]. destruct (jsstring_eqb k k0) eqn:E.
  - intros _. apply jsstring_eqb_eq in E. subst k0. cbn [obj_get].
    now destruct (jsstring_eqb k' k).
  - intros H. cbn [obj_get]. destruct (jsstring_eqb k' k0) eqn:E0.
    + apply jsstring_eqb_eq in E0. subst k0.
      now rewrite jsstring_eqb_sym, E.
    + now apply IH.
Qed.

Lemma obj_get_insert_index (i : N) (k k' : jsstring) (v : json) (o : object) :
  obj_get k o = None ->
  obj_get k' (obj_insert_index i k v o)
  = if jsstring_eqb k' k then Some v else obj_get k' o.
Proof.
  induction o as [|[k0 v0] o IH]; [reflexivity|].
  cbn [obj_get obj_insert_index]. destruct (jsstring_eqb k k0) eqn:E;
    [discriminate|]. intros H.
  assert (Hfront : obj_get k' ((k, v) :: (k0, v0) :: o)
                   = if jsstring_eqb k' k then Some v
                     else if jsstring_eqb k' k0 then Some v0
                     else obj_get k' o) by reflexivity.
  destruct (array_index k0) as [j|]; [|exact Hfront].
  destruct (N.ltb j i); [|exact Hfront].
  cbn [obj_get]. destruct (jsstring_eqb k' k0) eqn:E0.
  - apply jsstring_eqb_eq in E0. subst k0.
    now rewrite jsstring_eqb_sym, E.
  - now apply IH.
Qed.

(** Reading a property after a property was set. *)
Lemma obj_get_set (k k' : jsstring) (v : json) (o : object) :
  obj_get k' (obj_set k v o)
  = if jsstring_eqb k' k then Some v else obj_get k' o.
Proof.
  unfold obj_set. destruct (obj_get k o) as [v0|] eqn:E.
  - apply obj_get_replace. now rewrite E.
  - destruct (array_index k) as [i|].
    + now apply obj_get_insert_index.
    + rewrite obj_get_app. cbn [obj_get].
      destruct (jsstring_eqb k' k) eqn:E'.
      * apply jsstring_eqb_eq in E'. subst k'. now rewrite E.
      * now destruct (obj_get k' o).
Qed.

(** Reading a property of an object built by a spread: the last property
    of that name in the source wins over the target's. *)
Lemma obj_get_spread (k : jsstring) (target o : object) :
  obj_get k (spread target (JObj o))
  = match obj_last k o with Some v => Some v | None => obj_get k target end.
Proof.
  unfold spread, obj_last. cbn [own_properties]. revert target.
  induction o as [|[k0 v0] o IH]; intros target; [reflexivity|].
  cbn [fold_left fst snd rev]. rewrite IH, obj_get_app, obj_get_set.
  destruct (obj_get k (rev o)); [reflexivity|]. cbn [obj_get].
  now destruct (jsstring_eqb k k0).
Qed.

(** ** Decimal digits and numbers *)

Lemma of_uint_acc_digits (d : Decimal.uint) (acc : positive) :
  Npos (Pos.of_uint_acc d acc)
  = fold_left (fun a x => a * 10 + x)%N (uint_digits d) (Npos acc).
Proof.
  revert acc. induction d; intros acc; cbn [Pos.of_uint_acc uint_digits fold_left];
    [reflexivity|rewrite IHd; f_equal; lia..].
Qed.

Lemma of_uint_digits (d : Decimal.uint) :
  Pos.of_uint d = radix_value 10 (uint_digits d).
Proof.
  unfold radix_value.
  induction d; cbn [Pos.of_uint uint_digits fold_left];
    [reflexivity|exact IHd|rewrite of_uint_acc_digits; reflexivity..].
Qed.

(** The decimal digits of a natural number spell it. *)
Lemma radix_value_decimal_digits (n : N) :
  radix_value 10 (decimal_digits n) = n.
Proof.
  unfold decimal_digits. rewrite <- of_uint_digits.
  exact (DecimalN.Unsigned.of_to n).
Qed.

Lemma uint_digits_below_10 (d : Decimal.uint) :
  Forall (fun x => x < 10)%N (uint_digits d).
Proof. induction d; cbn [uint_digits]; constructor; (lia || assumption). Qed.

Lemma radix_value_app (a b : list N) :
  radix_value 10 (a ++ b)
  = (radix_value 10 a * 10 ^ N.of_nat (length b) + radix_value 10 b)%N.
Proof.
  unfold radix_value. rewrite fold_left_app.
  generalize (fold_left (fun acc d => acc * 10 + d)%N a 0%N) as x.
  induction b as [|d b IH] using rev_ind; intros x.
  - cbn. lia.
  - rewrite !fold_left_app, length_app. cbn [fold_left length].
    rewrite IH, Nat.add_1_r, Nat2N.inj_succ, N.pow_succ_r'. lia.
Qed.

Lemma radix_value_zeros (m : nat) : radix_value 10 (repeat 0%N m) = 0%N.
Proof.
  unfold radix_value. induction m as [|m IH]; [reflexivity|exact IH].
Qed.

Lemma drop_zeros_split (l : list N) :
  exists m, l = repeat 0%N m ++ drop_zeros l.
Proof.
  induction l as [|d l (m & E)]; [now exists 0|]. cbn [drop_zeros].
  destruct (N.eqb_spec d 0) as [->|_].
  - exists (S m). cbn [repeat app]. now f_equal.
  - now exists 0.
Qed.

Lemma radix_value_drop_zeros (l : list N) :
  radix_value 10 (drop_zeros l) = radix_value 10 l.
Proof.
  destruct (drop_zeros_split l) as (m & E). rewrite E at 2.
  rewrite radix_value_app, radix_value_zeros. lia.
Qed.

(** A digit list is its significant part followed by its trailing
    zeros. *)
Lemma trailing_zeros_split (l : list N) :
  exists m, l = rev (drop_zeros (rev l)) ++ repeat 0%N m
            /\ length l = length (rev (drop_zeros (rev l))) + m.
Proof.
  destruct (drop_zeros_split (rev l)) as (m & E). exists m.
  assert (El : l = rev (drop_zeros (rev l)) ++ repeat 0%N m).
  { rewrite <- (rev_involutive l) at 1. rewrite E at 1.
    rewrite rev_app_distr. f_equal. clear.
    induction m as [|m IH]; [reflexivity|].
    cbn [repeat rev]. rewrite IH. clear.
    induction m as [|m IH]; [reflexivity|]. cbn [repeat app]. now f_equal. }
  split; [exact El|].
  rewrite El at 1. now rewrite length_app, repeat_length.
Qed.

(** [make_number] keeps the value of the digits it is given. *)
Lemma number_value_make (ds : list N) :
  number_value (make_number false ds 0) = radix_value 10 ds.
Proof.
  unfold make_number. rewrite <- (radix_value_drop_zeros ds).
  generalize (drop_zeros ds) as lead. intros lead.
  destruct (trailing_zeros_split lead) as (m & E & L).
  remember (rev (drop_zeros (rev lead))) as sig eqn:Es.
  assert (V : radix_value 10 lead
              = (radix_value 10 sig * 10 ^ N.of_nat m)%N).
  { rewrite E at 1.
    rewrite radix_value_app, radix_value_zeros, repeat_length. lia. }
  rewrite V. destruct sig as [|d sig'].
  - reflexivity.
  - unfold number_value. cbn [digits point]. rewrite L. f_equal. f_equal. lia.
Qed.

Lemma number_value_of_nat (n : nat) :
  number_value (number_of_nat n) = N.of_nat n.
Proof.
  unfold number_of_nat, number_of_Z.
  replace (Z.of_nat n <? 0)%Z with false by (symmetry; apply Z.ltb_ge; lia).
  rewrite number_value_make, radix_value_decimal_digits.
  now rewrite <- nat_N_Z, Zabs2N.id.
Qed.

(** Distinct counts have distinct numbers. *)
Lemma number_of_nat_inj (a b : nat) :
  number_of_nat a = number_of_nat b -> a = b.
Proof.
  intros H. apply (f_equal number_value) in H.
  rewrite !number_value_of_nat in H. lia.
Qed.

Lemma number_eqb_eq (a b : number) : number_eqb a b = true <-> a = b.
Proof.
  unfold number_eqb. rewrite !andb_true_iff, Bool.eqb_true_iff,
    jsstring_eqb_eq, Z.eqb_eq.
  destruct a, b; cbn. split.
  - now intros [[-> ->] ->].
  - now intros [= -> -> ->].
Qed.

Lemma digit_char_is_digit (d : N) : (d < 10)%N -> is_digit (digit_char d) = true.
Proof.
  intros H. unfold is_digit, digit_char.
  apply andb_true_intro. split; apply N.leb_le; lia.
Qed.

Lemma digit_char_value (l : list N) :
  map (fun c => c - 48)%N (map digit_char l) = l.
Proof.
  induction l as [|d l IH]; [reflexivity|]. cbn [map]. rewrite IH.
  f_equal. unfold digit_char. lia.
Qed.

Lemma drop_zeros_below_10 (l : list N) :
  Forall (fun x => x < 10)%N l -> Forall (fun x => x < 10)%N (drop_zeros l).
Proof.
  induction 1 as [|d l Hd Hl IH]; [constructor|]. cbn [drop_zeros].
  destruct (N.eqb d 0); [exact IH|now constructor].
Qed.

Lemma drop_zeros_head (l : list N) (d : N) (r : list N) :
  drop_zeros l = d :: r -> d <> 0%N.
Proof.
  induction l as [|x l IH]; [discriminate|]. cbn [drop_zeros].
  destruct (N.eqb_spec x 0) as [->|Hx]; [exact IH|].
  now intros [= <- _].
Qed.

(** A digit list without leading zero that spells less than [10^21] has
    at most 21 digits. *)
Lemma short_spelling (d : N) (r : list N) :
  d <> 0%N -> (radix_value 10 (d :: r) < 10 ^ 21)%N -> length (d :: r) <= 21.
Proof.
  intros Hd Hv. change (d :: r) with ([d] ++ r) in Hv.
  rewrite radix_value_app in Hv. change (radix_value 10 [d]) with (0 * 10 + d)%N in Hv.
  cbn [length]. destruct (Nat.le_gt_cases (length r) 20) as [H|H]; [lia|].
  exfalso.
  assert (P : (10 ^ 21 <= 10 ^ N.of_nat (length r))%N)
    by (apply N.pow_le_mono_r; lia).
  nia.
Qed.

(** The spelling of a count in the success message: its decimal digits,
    without leading zero. *)
Lemma id_text_digits (n : nat) :
  n <> 0 -> (N.of_nat n < 10 ^ 21)%N ->
  id_text n = map digit_char (drop_zeros (decimal_digits (N.of_nat n)))
  /\ drop_zeros (decimal_digits (N.of_nat n)) <> [].
Proof.
  intros Hn Hb. unfold id_text, number_of_nat, number_of_Z.
  replace (Z.of_nat n <? 0)%Z with false by (symmetry; apply Z.ltb_ge; lia).
  rewrite <- nat_N_Z, Zabs2N.id.
  pose proof (radix_value_decimal_digits (N.of_nat n)) as V.
  rewrite <- radix_value_drop_zeros in V.
  remember (drop_zeros (decimal_digits (N.of_nat n))) as lead eqn:El.
  destruct lead as [|d0 lead0] eqn:Elead.
  { cbn in V. lia. }
  rewrite <- Elead in *. clear lead0 Elead.
  assert (Hlen : length lead <= 21).
  { destruct lead as [|d r] eqn:E; [cbn; lia|].
    apply short_spelling; [|lia].
    symmetry in El. rewrite <- E in El. rewrite E in El.
    exact (drop_zeros_head _ El). }
  split; [|intros ->; cbn in V; lia].
  unfold make_number. rewrite <- El.
  destruct (trailing_zeros_split lead) as (m & E & L).
  remember (rev (drop_zeros (rev lead))) as sig eqn:Es.
  destruct sig as [|d1 rest].
  { exfalso. cbn [app] in E. rewrite E, radix_value_zeros in V. lia. }
  unfold number_toString. cbn [digits point neg].
  rewrite length_map.
  assert (C : ((Z.of_nat (length (d1 :: rest))
                <=? Z.of_nat (length lead) + 0)
               && (Z.of_nat (length lead) + 0 <=? 21))%Z = true).
  { apply andb_true_intro. split; apply Z.leb_le; lia. }
  rewrite C, L.
  replace (Z.to_nat (Z.of_nat (length (d1 :: rest) + m) + 0
                     - Z.of_nat (length (d1 :: rest)))) with m by lia.
  rewrite E at 1. rewrite map_app. f_equal.
  unfold zeros. clear. induction m as [|m IH]; [reflexivity|].
  cbn [repeat map]. now f_equal.
Qed.

(** The id printed in the success message reads back, through
    [parseInt], as the id. *)
Lemma parseInt_id_text (n : nat) :
  (N.of_nat n < 10 ^ 21)%N -> parseInt (id_text n) = Some (Z.of_nat n).
Proof.
  intros Hb. destruct n as [|n]; [reflexivity|].
  destruct (id_text_digits (n := S n)) as [E Hne]; [discriminate|exact Hb|].
  rewrite E, <- (app_nil_r (map digit_char _)).
  rewrite parseInt_leading_digits.
  - unfold digits_value. rewrite digit_char_value, radix_value_drop_zeros,
      radix_value_decimal_digits. now rewrite nat_N_Z.
  - intros H. apply map_eq_nil in H. contradiction.
  - unfold all_digits. apply forallb_forall. intros c Hc.
    apply in_map_iff in Hc as (d & <- & Hd).
    apply digit_char_is_digit.
    pose proof (drop_zeros_below_10 (uint_digits_below_10
                  (N.to_uint (N.of_nat (S n))))) as F.
    rewrite Forall_forall in F. now apply F.
  - reflexivity.
  - reflexivity.
Qed.

End Values.

(* ================================================================== *)
(** * Further properties of the server *)
(* ================================================================== *)

Section Store.
Import JS Eff MCP Server Notions Invariants.

Lemma new_user_params (w : state) (p : UserParams) :
  new_user w (params_object p) = user_record (length (allUsers w) + 1) p.
Proof. reflexivity. Qed.

Lemma find_app_none (A : Type) (f : A -> bool) (a b : list A) :
  (forall x, In x a -> f x = false) -> find f (a ++ b) = find f b.
Proof.
  induction a as [|x a IH]; intros H; [reflexivity|]. cbn [app find].
  rewrite (H x) by now left. apply IH. intros y Hy. apply H. now right.
Qed.

Lemma has_id_iff (n : nat) (user : object) :
  has_id (Z.of_nat n) user = true
  <-> obj_get (str "id") user = Some (JNum (number_of_nat n)).
Proof.
  unfold has_id, strict_equals. fold (number_of_nat n).
  destruct (obj_get (str "id") user) as [[| |x| | |]|]; try (split; discriminate).
  rewrite number_eqb_eq. split; [now intros ->|now intros [= ->]].
Qed.

(** In a well-numbered store the record with a given id is the one at
    that position. *)
Lemma well_numbered_find (users : list object) (i : nat) (user : object) :
  well_numbered users -> nth_error users i = Some user ->
  find (has_id (Z.of_nat (S i))) users = Some user.
Proof.
  intros Hw Hn.
  destruct (nth_error_split _ _ Hn) as (a & b & -> & <-).
  rewrite find_app_none.
  - cbn [find].
    replace (has_id (Z.of_nat (S (length a))) user) with true; [reflexivity|].
    symmetry. apply has_id_iff. now apply Hw.
  - intros x Hx. apply In_nth_error in Hx as [j Hj].
    assert (Hlt : j < length a) by (apply nth_error_Some; now rewrite Hj).
    destruct (has_id (Z.of_nat (S (length a))) x) eqn:E; [|reflexivity].
    apply has_id_iff in E.
    rewrite (Hw j x) in E by (rewrite nth_error_app1; assumption).
    injection E as E. apply number_of_nat_inj in E. lia.
Qed.

Lemma well_numbered_no_later_id (users : list object) (k : nat) :
  well_numbered users -> length users < k ->
  forall user, In user users -> has_id (Z.of_nat k) user = false.
Proof.
  intros Hw Hk user Hin. apply In_nth_error in Hin as [j Hj].
  assert (Hlt : j < length users) by (apply nth_error_Some; now rewrite Hj).
  destruct (has_id (Z.of_nat k) user) eqn:E; [|reflexivity].
  apply has_id_iff in E. rewrite (Hw j user Hj) in E.
  injection E as E. apply number_of_nat_inj in E. lia.
Qed.

Lemma well_numbered_snoc (users : list object) (user : object) :
  well_numbered users ->
  obj_get (str "id") user
  = Some (JNum (number_of_nat (length users + 1))) ->
  well_numbered (users ++ [user]).
Proof.
  intros Hw Hu i x Hi.
  destruct (Nat.lt_ge_cases i (length users)) as [H|H].
  - rewrite nth_error_app1 in Hi by assumption. now apply Hw.
  - rewrite nth_error_app2 in Hi by assumption.
    destruct (i - length users) as [|j] eqn:E.
    + cbn in Hi. injection Hi as <-. rewrite Hu. do 3 f_equal. lia.
    + cbn in Hi. now destruct j.
Qed.

(** X1.  When the reply to the sampling request is not text, or is a text
    that does not read as JSON once normalised, [create-random-user]
    returns the item "Failed to generate user data" and leaves the store,
    the file and everything else as they were. *)
Theorem create_random_user_bad_reply_changes_nothing
    (w : state) (r : CreateMessageResult) :
  sampling w random_user_request = Ok r ->
  (forall text, content r = TextContent text ->
                JSON_parse (normalize text) = None) ->
  create_random_user w
  = (Ok (text_item (str "Failed to generate user data")), w).
Proof.
  intros Hs Hbad. destruct (content r) as [text| | |] eqn:Ec.
  - exact (create_random_user_unreadable w Hs Ec (Hbad text eq_refl)).
  - apply (create_random_user_not_text w Hs). intros t. rewrite Ec. discriminate.
  - apply (create_random_user_not_text w Hs). intros t. rewrite Ec. discriminate.
  - apply (create_random_user_not_text w Hs). intros t. rewrite Ec. discriminate.
Qed.

Lemma create_random_user_bad_reply_changes_nothing_witness :
  let w := server_with [ada_user 1] None (str "Sure! Here is a user: Ada") in
  create_random_user w
  = (Ok (text_item (str "Failed to generate user data")), w).
Proof.
  intros w.
  apply (@create_random_user_bad_reply_changes_nothing w
           (stub_result (str "Sure! Here is a user: Ada"))).
  - reflexivity.
  - intros text [= <-]. vm_compute. reflexivity.
Defined.

(** X2.  The sampling request is made outside the [try]: when it is
    rejected, [create-random-user] returns no content item at all but
    raises the same error, and nothing is changed. *)
Theorem create_random_user_sampling_failure_escapes
    (w : state) (e : jsstring) :
  sampling w random_user_request = Throw e ->
  create_random_user w = (Throw e, w).
Proof.
  intros Hs. unfold create_random_user, bind, request. now rewrite Hs.
Qed.

Lemma create_random_user_sampling_failure_escapes_witness :
  let w := {| allUsers := [ada_user 1]; users_file := [];
              fs_error := None; sampling := rejects (str "Timeout") |} in
  create_random_user w = (Throw (str "Timeout"), w).
Proof.
  intros w.
  apply (@create_random_user_sampling_failure_escapes w (str "Timeout")).
  reflexivity.
Defined.

(** X3.  When the reply reads as a JSON object and the file can be
    written, the record [create-random-user] appends has, for every
    property name, the value the reply gives it (the last one, if the
    name is repeated); only a name the reply does not give falls back on
    the record [{ id: count + 1 }].  So a reply with an [id] of its own
    decides the id stored, while the message still reports [count + 1]. *)
Theorem create_random_user_reply_id_wins
    (w : state) (r : CreateMessageResult) (text : jsstring) (o : object) :
  sampling w random_user_request = Ok r ->
  content r = TextContent text ->
  JSON_parse (normalize text) = Some (JObj o) ->
  fs_error w = None ->
  exists w' record,
    create_random_user w
    = (Ok (text_item (created_message (length (allUsers w) + 1))), w')
    /\ allUsers w' = allUsers w ++ [record]
    /\ forall k,
         obj_get k record
         = match obj_last k o with
           | Some v => Some v
           | None =>
               if jsstring_eqb k (str "id")
               then Some (JNum (number_of_nat (length (allUsers w) + 1)))
               else None
           end.
Proof.
  intros Hs Hc Hp Hf.
  rewrite (create_random_user_readable w Hs Hc Hp Hf).
  eexists. exists (new_user w (JObj o)). split; [reflexivity|].
  split; [reflexivity|]. intros k. unfold new_user.
  rewrite obj_get_spread. reflexivity.
Qed.

Lemma create_random_user_reply_id_wins_witness :
  let w := server_with [ada_user 1] None
                       (strq "{'id':1,'name':'Eve'}") in
  exists w' record,
    create_random_user w
    = (Ok (text_item (str "User 2 created successfully")), w')
    /\ allUsers w' = [ada_user 1; record]
    /\ obj_get (str "id") record = Some (JNum (number_of_nat 1)).
Proof.
  intros w.
  destruct (@create_random_user_reply_id_wins w
              (stub_result (strq "{'id':1,'name':'Eve'}"))
              (strq "{'id':1,'name':'Eve'}")
              [(str "id", JNum (number_of_nat 1));
               (str "name", JStr (str "Eve"))])
    as (w' & record & E & A & G);
    [reflexivity|reflexivity|vm_compute; reflexivity|reflexivity|].
  exists w', record. split; [exact E|]. split; [exact A|].
  rewrite (G (str "id")). reflexivity.
Defined.

(** What a [create-user] whose write succeeds returns and leaves. *)
Lemma create_user_written (w : state) (p : UserParams) :
  fs_error w = None ->
  create_user p w
  = (Ok (text_item (created_message (length (allUsers w) + 1))),
     {| allUsers := allUsers w ++ [user_record (length (allUsers w) + 1) p];
        users_file :=
          JSON_stringify_indent 2
            (users_array
               (allUsers w ++ [user_record (length (allUsers w) + 1) p]));
        fs_error := None;
        sampling := sampling w |}).
Proof.
  intros Hf. unfold create_user, try_catch, bind.
  rewrite (createUser_written w (params_object p) Hf).
  now rewrite new_user_params.
Qed.

(** X4.  When the file can be written, [create-user] appends exactly the
    record [{ id: count + 1, name, email, address, phone }], reports that
    id, and leaves the file holding the whole array, the new record
    included. *)
Theorem create_user_appends_record (w : state) (p : UserParams) :
  fs_error w = None ->
  exists w',
    create_user p w
    = (Ok (text_item (created_message (length (allUsers w) + 1))), w')
    /\ allUsers w' = allUsers w ++ [user_record (length (allUsers w) + 1) p]
    /\ in_sync w'
    /\ fs_error w' = fs_error w /\ sampling w' = sampling w.
Proof.
  intros Hf. rewrite (create_user_written w p Hf).
  eexists. split; [reflexivity|]. repeat split. now rewrite Hf.
Qed.

Lemma create_user_appends_record_witness :
  exists w',
    create_user ada_params (server_with [ada_user 1] None [])
    = (Ok (text_item (str "User 2 created successfully")), w')
    /\ allUsers w' = [ada_user 1; ada_user 2]
    /\ in_sync w'.
Proof.
  destruct (@create_user_appends_record
              (server_with [ada_user 1] None []) ada_params eq_refl)
    as (w' & E & A & S & _).
  exists w'. repeat split; assumption.
Defined.

(** X5.  A record whose write failed is not lost as long as the process
    lives: once the file can be written again, the next [create-user]
    gets the following id and writes the whole array, so the file then
    holds both records. *)
Theorem next_create_persists_unsaved_record
    (w : state) (p q : UserParams) (e : jsstring) :
  fs_error w = Some e ->
  let n := length (allUsers w) in
  let w1 := with_fault None (snd (create_user p w)) in
  exists w2,
    create_user q w1 = (Ok (text_item (created_message (n + 2))), w2)
    /\ allUsers w2
       = allUsers w ++ [user_record (n + 1) p; user_record (n + 2) q]
    /\ in_sync w2.
Proof.
  intros Hf n w1.
  assert (E1 : allUsers w1 = allUsers w ++ [user_record (n + 1) p]).
  { unfold w1. rewrite (create_user_write_failed w p Hf). reflexivity. }
  pose proof (@create_user_written w1 q eq_refl) as E.
  rewrite E1 in E. rewrite length_app in E. cbn [length] in E.
  replace (length (allUsers w) + 1 + 1) with (n + 2) in E
    by (unfold n; lia).
  rewrite <- app_assoc in E. cbn [app] in E.
  eexists. split; [exact E|]. split; reflexivity.
Qed.

Lemma next_create_persists_unsaved_record_witness :
  let w := server_with [] (Some (str "EACCES")) [] in
  let w1 := with_fault None (snd (create_user ada_params w)) in
  exists w2,
    create_user ada_params w1
    = (Ok (text_item (str "User 2 created successfully")), w2)
    /\ allUsers w2 = [ada_user 1; ada_user 2]
    /\ in_sync w2.
Proof.
  intros w w1.
  exact (@next_create_persists_unsaved_record w ada_params ada_params
           (str "EACCES") eq_refl).
Defined.

Lemma createUser_grows (w : state) (userData : json) :
  allUsers (snd (createUser userData w))
  = allUsers w ++ [new_user w userData].
Proof.
  destruct (fs_error w) as [e|] eqn:Hf.
  - now rewrite (createUser_write_failed w userData Hf).
  - now rewrite (createUser_written w userData Hf).
Qed.

Lemma create_user_grows (w : state) (p : UserParams) :
  allUsers (snd (create_user p w))
  = allUsers w ++ [user_record (length (allUsers w) + 1) p].
Proof.
  destruct (fs_error w) as [e|] eqn:Hf.
  - now rewrite (create_user_write_failed w p Hf).
  - now rewrite (create_user_written w p Hf).
Qed.

(** X6.  No handler of the server removes or changes a record: the two
    resource reads leave the whole state as it is, and each tool call
    leaves the records it found in place and in order, with at most one
    record added behind them; [create-user] always adds exactly one, even
    when it reports a failure. *)
Theorem handlers_only_append (w : state) :
  (forall href, snd (users href w) = w)
  /\ (forall href userId, snd (user_details href userId w) = w)
  /\ (forall p, exists record,
        allUsers (snd (create_user p w)) = allUsers w ++ [record])
  /\ (exists added,
        allUsers (snd (create_random_user w)) = allUsers w ++ added
        /\ length added <= 1).
Proof.
  split; [|split; [|split]].
  - reflexivity.
  - intros href userId. now rewrite user_details_by_parseInt.
  - intros p. eexists. apply create_user_grows.
  - unfold create_random_user, bind, request.
    destruct (sampling w random_user_request) as [r|e];
      [|exists []; cbn; rewrite app_nil_r; split; [reflexivity|lia]].
    destruct (content r) as [text| | |];
      try (exists []; cbn; rewrite app_nil_r; split; [reflexivity|lia]).
    unfold try_catch.
    destruct (JSON_parse (normalize text)) as [v|];
      [|exists []; cbn; rewrite app_nil_r; split; [reflexivity|lia]].
    exists [new_user w v]. split; [|cbn; lia].
    unfold bind. pose proof (createUser_grows w v) as G.
    destruct (createUser v w) as [[n|e] w']; exact G.
Qed.

(** X7.  [create-user] keeps the store well numbered: if every record
    carries its position, counted from one, as its id, this still holds
    after the call, whether the write succeeded or not. *)
Theorem create_user_keeps_numbering (w : state) (p : UserParams) :
  well_numbered (allUsers w) ->
  well_numbered (allUsers (snd (create_user p w))).
Proof.
  intros Hw. rewrite create_user_grows.
  apply well_numbered_snoc; [exact Hw|reflexivity].
Qed.

Lemma well_numbered_two : well_numbered [ada_user 1; ada_user 2].
Proof.
  intros [|[|i]] user H; cbn in H; try injection H as <-; try reflexivity.
  now destruct i.
Qed.

Lemma create_user_keeps_numbering_witness :
  well_numbered
    (allUsers (snd (create_user ada_params
                      (server_with [ada_user 1; ada_user 2]
                                   (Some (str "EACCES")) [])))).
Proof.
  apply create_user_keeps_numbering. exact well_numbered_two.
Defined.

Lemma lookup_present (w : state) (href : jsstring) (k : nat) (user : object) :
  well_numbered (allUsers w) -> (N.of_nat k < 10 ^ 21)%N ->
  nth_error (allUsers w) (k - 1) = Some user -> 0 < k ->
  user_details href (id_text k) w
  = (Ok (json_contents href (JSON_stringify (JObj user))), w).
Proof.
  intros Hw Hk Hn Hpos.
  rewrite user_details_by_parseInt, parseInt_id_text by assumption.
  replace k with (S (k - 1)) at 1 by lia.
  now rewrite (well_numbered_find _ Hw Hn).
Qed.

Lemma lookup_beyond (w : state) (href : jsstring) (k : nat) :
  well_numbered (allUsers w) -> (N.of_nat k < 10 ^ 21)%N ->
  length (allUsers w) < k ->
  user_details href (id_text k) w
  = (Ok (json_contents href (strq "{'error':'User not found'}")), w).
Proof.
  intros Hw Hk Hlen.
  rewrite user_details_by_parseInt, not_found_text, parseInt_id_text
    by assumption.
  destruct (find (has_id (Z.of_nat k)) (allUsers w)) as [user|] eqn:E;
    [|reflexivity].
  apply find_some in E as [Hin Hid].
  rewrite (well_numbered_no_later_id Hw Hlen user Hin) in Hid. discriminate.
Qed.

(** X8.  In a well-numbered store of fewer than [10^21] records, reading
    [users://{userId}/profile] with the decimal spelling of a position
    returns the record at that position, and with the spelling of a
    number beyond the record count returns the not-found payload. *)
Theorem well_numbered_lookup (w : state) (href : jsstring) (k : nat) :
  well_numbered (allUsers w) -> (N.of_nat k < 10 ^ 21)%N ->
  (forall user, nth_error (allUsers w) (k - 1) = Some user -> 0 < k ->
     user_details href (id_text k) w
     = (Ok (json_contents href (JSON_stringify (JObj user))), w))
  /\ (length (allUsers w) < k ->
      user_details href (id_text k) w
      = (Ok (json_contents href (strq "{'error':'User not found'}")), w)).
Proof.
  intros Hw Hk. split.
  - intros user Hn Hpos. now apply lookup_present.
  - intros Hlen. now apply lookup_beyond.
Qed.

Lemma well_numbered_lookup_witness :
  let w := server_with [ada_user 1; ada_user 2] None [] in
  user_details (str "users://2/profile") (str "2") w
  = (Ok (json_contents (str "users://2/profile")
           (JSON_stringify (JObj (ada_user 2)))), w)
  /\ user_details (str "users://3/profile") (str "3") w
     = (Ok (json_contents (str "users://3/profile")
              (strq "{'error':'User not found'}")), w).
Proof.
  intros w. split.
  - apply (proj1 (@well_numbered_lookup w (str "users://2/profile") 2
                    well_numbered_two eq_refl) (ada_user 2));
      [reflexivity|lia].
  - apply (proj2 (@well_numbered_lookup w (str "users://3/profile") 3
                    well_numbered_two eq_refl)).
    cbn. lia.
Defined.

(** X9.  Create, then read back: on a well-numbered store of fewer than
    [10^21 - 1] records whose file can be written, [create-user] reports
    "User n created successfully" with [n] spelled in decimal, and reading
    [users://n/profile] with that spelling then returns the record just
    created. *)
Theorem create_user_then_read
    (w : state) (p : UserParams) (href : jsstring) :
  well_numbered (allUsers w) -> fs_error w = None ->
  let n := length (allUsers w) + 1 in
  (N.of_nat n < 10 ^ 21)%N ->
  exists w',
    create_user p w
    = (Ok (text_item (str "User " ++ id_text n
                        ++ str " created successfully")), w')
    /\ user_details href (id_text n) w'
       = (Ok (json_contents href (JSON_stringify (JObj (user_record n p)))),
          w').
Proof.
  intros Hw Hf n Hn.
  rewrite (create_user_written w p Hf). eexists. split; [reflexivity|].
  apply lookup_present; cbn [allUsers]; [|exact Hn| |unfold n; lia].
  - apply well_numbered_snoc; [exact Hw|reflexivity].
  - unfold n. rewrite Nat.add_sub, nth_error_app2 by lia.
    now rewrite Nat.sub_diag.
Qed.

Lemma create_user_then_read_witness :
  exists w',
    create_user ada_params (server_with [ada_user 1] None [])
    = (Ok (text_item (str "User 2 created successfully")), w')
    /\ user_details (str "users://2/profile") (str "2") w'
       = (Ok (json_contents (str "users://2/profile")
                (strq "{'id':2,'name':'Ada','email':'a@b.com','address':'1 Main','phone':'555'}")),
          w').
Proof.
  apply (@create_user_then_read (server_with [ada_user 1] None [])
           ada_params (str "users://2/profile")).
  - intros [|i] user H; cbn in H; [injection H as <-; reflexivity|].
    now destruct i.
  - reflexivity.
  - reflexivity.
Defined.

End Store.

(* ================================================================== *)
(** * Further properties of the driver *)
(* ================================================================== *)

Section Driver.
Import JS Eff MCP Client Notions Invariants.

(** ** Projections of the log *)

Lemma tool_calls_app (a b : list event) :
  tool_calls (a ++ b) = tool_calls a ++ tool_calls b.
Proof.
  induction a as [|e a IH]; [reflexivity|].
  destruct e; cbn [app tool_calls]; now rewrite ?IH.
Qed.



Lemma reads_app (a b : list event) : reads (a ++ b) = reads a ++ reads b.
Proof.
  induction a as [|e a IH]; [reflexivity|].
  destruct e; cbn [app reads]; now rewrite ?IH.
Qed.


(** ** Composing what is added to the log *)

Section Adds.

Variable P : list event -> Prop.
Hypothesis P_nil : P [].
Hypothesis P_app : forall a b, P a -> P b -> P (a ++ b).

Lemma adds_ret (A : Type) (a : A) : adds P (ret a).
Proof. intros w. exists []. cbn. now rewrite app_nil_r. Qed.

Lemma adds_throw (A : Type) (e : jsstring) : adds P (@throw world A e).
Proof. intros w. exists []. cbn. now rewrite app_nil_r. Qed.

Lemma adds_bind (A B : Type) (m : M world A) (k : A -> M world B) :
  adds P m -> (forall x, adds P (k x)) -> adds P (bind m k).
Proof.
  intros Hm Hk w. unfold bind. destruct (Hm w) as (new1 & L1 & H1).
  destruct (m w) as [[x|e] w1]; cbn [snd] in *.
  - destruct (Hk x w1) as (new2 & L2 & H2). exists (new1 ++ new2).
    split; [now rewrite L2, L1, app_assoc|now apply P_app].
  - now exists new1.
Qed.


Lemma adds_console_log (line : jsstring) :
  P [Printed line] -> adds P (console_log line).
Proof. intros H w. now exists [Printed line]. Qed.

Lemma adds_input (message : jsstring) :
  (forall v, P [Entered message v]) -> adds P (input message).
Proof. intros H w. exists [Entered message (user_input w (tick w))]. now split. Qed.


Lemma adds_callTool (name : jsstring) (arguments : object) :
  (forall out, P [ToolCalled name arguments out]) ->
  adds P (callTool name arguments).
Proof.
  intros H w.
  exists [ToolCalled name arguments (server_callTool w (tick w) name arguments)].
  now split.
Qed.

Lemma adds_call_model (prompt : jsstring) :
  (forall out, P [Generated prompt out]) -> adds P (call_model prompt).
Proof.
  intros H w. exists [Generated prompt (llm w (tick w) prompt)]. now split.
Qed.

Lemma adds_getPrompt (name : jsstring) (arguments : object) :
  (forall out, P [PromptFetched name arguments out]) ->
  adds P (getPrompt name arguments).
Proof.
  intros H w.
  exists [PromptFetched name arguments
            (server_getPrompt w (tick w) name arguments)].
  now split.
Qed.

Lemma adds_readResource (uri : jsstring) :
  (forall out, P [ResourceRead uri out]) -> adds P (readResource uri).
Proof.
  intros H w. exists [ResourceRead uri (server_readResource w (tick w) uri)].
  now split.
Qed.

Lemma adds_attempt (A : Type) (m : M world A) : adds P m -> adds P (attempt m).
Proof.
  intros H w. destruct (H w) as (new & L & Hn). exists new.
  unfold attempt. destruct (m w) as [r w']. now split.
Qed.

Lemma adds_settle (outcomes : list (result CallToolResult)) :
  adds P (settle outcomes).
Proof.
  induction outcomes as [|[r|e] rest IH]; cbn [settle].
  - apply adds_ret.
  - apply adds_bind; [exact IH|]. intros rs. apply adds_ret.
  - apply adds_throw.
Qed.

(** A step adds what the closures of the tool set add. *)
Lemma adds_execute_all (tools : ToolSet) (calls : list (jsstring * object)) :
  (forall e arguments, In e (map snd tools) -> adds P (e arguments)) ->
  adds P (execute_all tools calls).
Proof.
  intros He. unfold execute_all.
  destruct (parse_calls tools calls) as [runs|] eqn:E; [|apply adds_throw].
  apply parse_calls_closures in E.
  apply adds_bind; [|intros outcomes; apply adds_settle].
  induction E as [|run runs (e & arguments & Hin & ->) _ IH]; cbn [run_all].
  - apply adds_ret.
  - apply adds_bind; [now apply adds_attempt, He|]. intros r.
    apply adds_bind; [exact IH|]. intros rs. apply adds_ret.
Qed.

Lemma adds_generateText_steps
      (maxSteps : nat) (prompt : jsstring) (tools : ToolSet) :
  (forall out, P [Generated prompt out]) ->
  (forall e arguments, In e (map snd tools) -> adds P (e arguments)) ->
  adds P (generateText_steps maxSteps prompt tools).
Proof.
  intros Hg He. induction maxSteps as [|remaining IH];
    cbn [generateText_steps].
  - apply adds_throw.
  - apply adds_bind; [now apply adds_call_model|]. intros g.
    apply adds_bind; [now apply adds_execute_all|]. intros results.
    destruct (gen_toolCalls g) as [|c cs]; [apply adds_ret|].
    destruct remaining as [|k]; [apply adds_ret|exact IH].
Qed.

End Adds.

(** ** The sampling handler, message by message *)




(** What one entry adds to the log, and where a returned text comes
    from. *)
Lemma handleServerMessagePrompt_chunk (m : PromptMessage) (w : world) :
  exists chunk,
    log (snd (handleServerMessagePrompt m w)) = log w ++ chunk
    /\ entry_chunk m chunk
    /\ forall text,
         fst (handleServerMessagePrompt m w) = Ok (Some text) ->
         exists t g,
           msg_content m = TextContent t
           /\ chunk = [Printed t; Confirmed run_question true;
                       Generated t (Ok g)]
           /\ gen_toolCalls g = [] /\ text = gen_text g.
Proof.
  rewrite handleServerMessagePrompt_run. unfold entry_chunk.
  destruct (msg_content m) as [t|d mt|d mt|u] eqn:Em;
    try (exists []; cbn [fst snd]; rewrite app_nil_r;
         repeat split; intros text E; discriminate E).
  cbv zeta. set (w1 := record (Printed t) w).
  destruct (user_confirm w1 (tick w1)).
  - set (w2 := record (Confirmed run_question true) w1).
    exists [Printed t; Confirmed run_question true;
            Generated t (llm w2 (tick w2) t)].
    cbn [fst snd]. split; [|split].
    + unfold w2, w1. rewrite !log_record, <- !app_assoc. reflexivity.
    + right. now eexists.
    + intros text E. destruct (llm w2 (tick w2) t) as [g|e]; [|discriminate].
      destruct (gen_toolCalls g) eqn:Ec; [|discriminate].
      injection E as <-. now exists t, g.
  - exists [Printed t; Confirmed run_question false].
    cbn [fst snd]. split; [|split].
    + unfold w1. rewrite !log_record, <- !app_assoc. reflexivity.
    + now left.
    + intros text E. discriminate E.
Qed.



(** X11.  [handleServerMessagePrompt] does nothing at all for an entry
    that is not text.  For a text entry what it adds to the log is, in
    this order, the text printed, the answer of the operator and, only
    after a yes, one call of the model on that text; a text it returns is
    the text of that call, made after the print and the yes. *)
Theorem handleServerMessagePrompt_asks_first (m : PromptMessage) (w : world) :
  ((forall p, msg_content m <> TextContent p) ->
   handleServerMessagePrompt m w = (Ok None, w))
  /\ exists new,
       log (snd (handleServerMessagePrompt m w)) = log w ++ new
       /\ entry_chunk m new
       /\ (forall p out, In (p, out) (generations new) ->
             msg_content m = TextContent p
             /\ new = [Printed p; Confirmed run_question true;
                       Generated p out])
       /\ (forall text,
             fst (handleServerMessagePrompt m w) = Ok (Some text) ->
             exists p g,
               msg_content m = TextContent p
               /\ new = [Printed p; Confirmed run_question true;
                         Generated p (Ok g)]
               /\ text = gen_text g).
Proof.
  split.
  - intros H. rewrite handleServerMessagePrompt_run.
    destruct (msg_content m) as [t| | |]; [now destruct (H t)|reflexivity..].
  - destruct (handleServerMessagePrompt_chunk m w) as (new & L & Hc & Ht).
    exists new. split; [exact L|]. split; [exact Hc|]. split.
    + unfold entry_chunk in Hc.
      destruct (msg_content m) as [t| | |];
        [destruct Hc as [->|[o ->]]|subst new..];
        cbn [generations In]; intros p out H; try contradiction.
      destruct H as [[= <- <-]|[]]. now split.
    + intros text E. destruct (Ht text E) as (t & g & Em & -> & _ & ->).
      now exists t, g.
Qed.

(** ** The flows that use tools *)


Lemma tools_set_entry
      (name : jsstring) (execute : object -> M world CallToolResult)
      (tools : ToolSet) (kv : jsstring * (object -> M world CallToolResult)) :
  In kv (tools_set name execute tools) ->
  kv = (name, execute) \/ In kv tools.
Proof.
  induction tools as [|[k e0] r IH]; cbn [tools_set In].
  - intros [<-|[]]. now left.
  - destruct (jsstring_eqb k name) eqn:E; cbn [In].
    + apply jsstring_eqb_eq in E as ->.
      intros [<-|H]; [now left|right; now right].
    + intros [<-|H]; [right; now left|].
      destruct (IH H) as [->|H']; [now left|right; now right].
Qed.

(** Every entry of the [tools] object a flow builds stands under the
    name of an available tool and holds the closure the flow gave that
    tool. *)
Lemma tool_set_entry
      (execute_of : Tool -> object -> M world CallToolResult)
      (availableTools : list Tool)
      (kv : jsstring * (object -> M world CallToolResult)) :
  In kv (tool_set execute_of availableTools) ->
  exists tool, In tool availableTools
               /\ kv = (tool_name tool, execute_of tool).
Proof.
  unfold tool_set.
  assert (G : forall tools acc,
             (forall kv0, In kv0 acc ->
                exists tool, In tool availableTools
                             /\ kv0 = (tool_name tool, execute_of tool)) ->
             incl tools availableTools ->
             In kv (fold_left
                      (fun toolsObject tool =>
                         tools_set (tool_name tool) (execute_of tool)
                                   toolsObject) tools acc) ->
             exists tool, In tool availableTools
                          /\ kv = (tool_name tool, execute_of tool)).
  { induction tools as [|t ts IH]; intros acc Hacc Hin; cbn [fold_left].
    - apply Hacc.
    - apply IH.
      + intros kv0 H0. destruct (tools_set_entry _ _ _ _ H0) as [->|H1].
        * exists t. split; [apply Hin; now left|reflexivity].
        * now apply Hacc.
      + intros x Hx. apply Hin. now right. }
  apply (G availableTools []); [intros kv0 []|apply incl_refl].
Qed.










Lemma calls_only_nil (names : list jsstring) : calls_only names [].
Proof. intros name []. Qed.

Lemma calls_only_app (names : list jsstring) (a b : list event) :
  calls_only names a -> calls_only names b -> calls_only names (a ++ b).
Proof.
  intros Ha Hb name. rewrite tool_calls_app. intros [H|H]%in_app_or; auto.
Qed.

(** X13.  Neither the query flow nor the autonomous flow ever calls a
    tool the server did not list, whatever the model asks for.  Under
    each key of the [tools] object either flow builds stands the
    [execute] closure of an available tool of that name, and what the
    closure does is call that tool, by its name, with the arguments it is
    given (in the autonomous flow, after the line that announces the
    call).  The flows make no other call of a tool, so every tool call
    they add to the log names one of the available tools. *)
Theorem flows_call_only_listed_tools (availableTools : list Tool) :
  (forall kv,
     In kv (tool_set (fun tool toolArguments =>
                        callTool (tool_name tool) toolArguments)
                     availableTools) ->
     exists tool,
       In tool availableTools /\ fst kv = tool_name tool
       /\ forall toolArguments,
            snd kv toolArguments = callTool (tool_name tool) toolArguments)
  /\ (forall kv,
        In kv (tool_set (fun tool toolArguments =>
                           (console_log (announcement (tool_name tool)) ;;
                            callTool (tool_name tool) toolArguments)%eff)
                        availableTools) ->
        exists tool,
          In tool availableTools /\ fst kv = tool_name tool
          /\ forall toolArguments,
               snd kv toolArguments
               = (console_log (announcement (tool_name tool)) ;;
                  callTool (tool_name tool) toolArguments)%eff)
  /\ adds (calls_only (tool_names availableTools))
          (handleQuery availableTools)
  /\ adds (calls_only (tool_names availableTools))
          (handleAutonomousTask availableTools).
Proof.
  set (names := tool_names availableTools).
  assert (Hnil := calls_only_nil names).
  assert (Happ := calls_only_app (names := names)).
  assert (Hquiet : forall ev, tool_calls [ev] = [] -> calls_only names [ev]).
  { intros ev E name. rewrite E. intros []. }
  assert (Hcall : forall tool arguments, In tool availableTools ->
                  adds (calls_only names)
                       (callTool (tool_name tool) arguments)).
  { intros tool arguments Hin. apply adds_callTool.
    intros out n [<-|[]]. unfold names, tool_names. now apply in_map. }
  split; [|split; [|split]].
  - intros kv Hkv. apply tool_set_entry in Hkv as (tool & Hin & ->).
    exists tool. now repeat split.
  - intros kv Hkv. apply tool_set_entry in Hkv as (tool & Hin & ->).
    exists tool. now repeat split.
  - unfold handleQuery.
    apply adds_bind; [assumption|apply adds_input; intros v; now apply Hquiet|].
    intros userQuery.
    apply adds_bind; [assumption| |intros r; apply adds_console_log; now apply Hquiet].
    apply adds_generateText_steps; try assumption.
    + intros out. now apply Hquiet.
    + intros e arguments He.
      apply tool_set_closure in He as (tool & Hin & ->). now apply Hcall.
  - unfold handleAutonomousTask.
    apply adds_bind; [assumption|apply adds_input; intros v; now apply Hquiet|].
    intros taskDescription.
    apply adds_bind; [assumption|apply adds_console_log; now apply Hquiet|].
    intros _.
    apply adds_bind; [assumption| |].
    + apply adds_generateText_steps; try assumption.
      * intros out. now apply Hquiet.
      * intros e arguments He.
        apply tool_set_closure in He as (tool & Hin & ->).
        apply adds_bind; [assumption|apply adds_console_log; now apply Hquiet|].
        intros _. now apply Hcall.
    + intros r.
      apply adds_bind; [assumption|apply adds_console_log; now apply Hquiet|].
      intros _. apply adds_console_log. now apply Hquiet.
Qed.

Lemma announced_nil : announced [].
Proof. intros [|e pre] name arguments outcome post H; discriminate. Qed.

Lemma announced_app (a b : list event) :
  announced a -> announced b -> announced (a ++ b).
Proof.
  intros Ha Hb pre name arguments outcome post E.
  apply app_eq_app in E as [l [[-> El] | [-> El]]].
  - destruct l as [|e l'].
    + cbn [app] in El.
      destruct (Hb [] name arguments outcome post) as [pre' Hp];
        [now rewrite <- El|].
      now destruct pre'.
    + cbn [app] in El. injection El as <- ->.
      now apply (Ha pre name arguments outcome l').
  - destruct (Hb l name arguments outcome post El) as [pre' ->].
    exists (a ++ pre'). now rewrite <- app_assoc.
Qed.

Lemma announced_quiet (ev : event) : tool_calls [ev] = [] -> announced [ev].
Proof.
  intros E [|e pre] name arguments outcome post H.
  - cbn in H. injection H as -> _. discriminate.
  - injection H as _ H. now destruct pre.
Qed.

(** X14.  In the autonomous flow every call of a tool comes right after
    the printed line that announces it by name; no tool is called
    silently. *)
Theorem handleAutonomousTask_announces_every_call
    (availableTools : list Tool) :
  adds announced (handleAutonomousTask availableTools).
Proof.
  assert (Hnil := announced_nil). assert (Happ := announced_app).
  unfold handleAutonomousTask.
  apply adds_bind; [assumption
                   |apply adds_input; intros v; now apply announced_quiet|].
  intros taskDescription.
  apply adds_bind; [assumption
                   |apply adds_console_log; now apply announced_quiet|].
  intros _. apply adds_bind; [assumption| |].
  - apply adds_generateText_steps; try assumption.
    + intros out. now apply announced_quiet.
    + intros e arguments He.
      apply tool_set_closure in He as (tool & _ & ->).
      set (name := tool_name tool). intros w.
      exists [Printed (announcement name);
              ToolCalled name arguments
                (server_callTool w (S (tick w)) name arguments)].
      split.
      * unfold bind, console_log, modify, callTool, perform. cbn [snd].
        rewrite !log_record, <- app_assoc. cbn [app]. do 4 f_equal.
        unfold tick. rewrite log_record, length_app. cbn. f_equal. lia.
      * intros pre n a o post E.
        destruct pre as [|e0 [|e1 pre]].
        -- discriminate.
        -- inversion E; subst. now exists [].
        -- inversion E as [[E0 E1 E2]]. now destruct pre.
  - intros r.
    apply adds_bind; [assumption
                     |apply adds_console_log; now apply announced_quiet|].
    intros _. apply adds_console_log. now apply announced_quiet.
Qed.

(** ** The flows that ask for values *)

Lemma obj_last_cons (k key : jsstring) (v : json) (o : object) :
  obj_last k ((key, v) :: o)
  = match obj_last k o with
    | Some x => Some x
    | None => if jsstring_eqb k key then Some v else None
    end.
Proof. unfold obj_last. cbn [rev]. now rewrite obj_get_app. Qed.

Lemma ask_properties_events (props : list (jsstring * option jsstring)) :
  forall (acc : object) (w : world),
  exists vals args w',
    length vals = length props
    /\ ask_properties props acc w = (Ok args, w')
    /\ log w' = log w ++ entered (map property_question props) vals
    /\ forall k, obj_get k args
                 = match obj_last k (typed (map fst props) vals) with
                   | Some x => Some x
                   | None => obj_get k acc
                   end.
Proof.
  induction props as [|[key ty] rest IH]; intros acc w.
  - exists [], acc, w. cbn. rewrite app_nil_r. now repeat split.
  - cbn [ask_properties]. unfold bind, input.
    set (v := user_input w (tick w)). set (w1 := record _ w).
    destruct (IH (obj_set key (JStr v) acc) w1)
      as (vals & args & w' & Hl & E & L & G).
    exists (v :: vals), args, w'. split; [cbn; now rewrite Hl|].
    split; [exact E|]. split.
    + rewrite L. unfold w1. now rewrite log_record, <- app_assoc.
    + intros k. rewrite G, obj_get_set. unfold typed.
      cbn [map fst combine]. rewrite obj_last_cons.
      destruct (obj_last k (combine (map fst rest) (map JStr vals)));
        [reflexivity|]. now destruct (jsstring_eqb k key).
Qed.



(** X15.  [handleTool] asks one question per property of the input
    schema, in order, then calls the selected tool once, with an object
    that holds under every property key the value typed for it, and
    prints at most one line after the reply; it never calls the model. *)
Theorem handleTool_asks_then_calls (tool : Tool) (w : world) :
  exists vals toolArguments outcome tail,
    length vals = length (tool_properties tool)
    /\ log (snd (handleTool tool w))
       = log w ++ entered (map property_question (tool_properties tool)) vals
               ++ ToolCalled (tool_name tool) toolArguments outcome :: tail
    /\ (forall key, obj_get key toolArguments
                    = obj_last key
                        (typed (map fst (tool_properties tool)) vals))
    /\ at_most_a_line tail.
Proof.
  unfold handleTool, bind at 1.
  destruct (ask_properties_events (tool_properties tool) [] w)
    as (vals & args & w1 & Hl & E & L & G).
  rewrite E. exists vals, args, (server_callTool w1 (tick w1) (tool_name tool) args).
  unfold bind, callTool, perform.
  assert (G' : forall key, obj_get key args
                 = obj_last key (typed (map fst (tool_properties tool)) vals)).
  { intros key. rewrite G. cbn [obj_get].
    now destruct (obj_last key _). }
  destruct (server_callTool w1 (tick w1) (tool_name tool) args)
    as [[|[t|d mt|d mt|u] rest]|e];
    cbn [snd throw console_log modify]; rewrite ?log_record, L, <- ?app_assoc;
    cbn [app].
  1, 6: exists []; repeat split; trivial; now left.
  all: eexists; repeat split; trivial; right; eexists; reflexivity.
Qed.





(** ** Placeholders of a resource URI *)

Lemma brace_free_app (a b : jsstring) :
  brace_free (a ++ b) <-> brace_free a /\ brace_free b.
Proof. unfold brace_free. rewrite forallb_app. apply andb_true_iff. Qed.

Lemma brace_free_cons (c : code_unit) (s : jsstring) :
  brace_free (c :: s) -> c <> ch "{" /\ c <> ch "}" /\ brace_free s.
Proof.
  unfold brace_free. cbn [forallb]. intros [H Hs]%andb_true_iff.
  apply negb_true_iff, orb_false_iff in H as [H1 H2].
  apply N.eqb_neq in H1, H2. now repeat split.
Qed.

Lemma placeholders_skip (pre s : jsstring) :
  brace_free pre -> placeholders (pre ++ s) None = placeholders s None.
Proof.
  induction pre as [|c pre IH]; [reflexivity|].
  intros (H1 & _ & Hp)%brace_free_cons. cbn [app placeholders].
  apply N.eqb_neq in H1. rewrite H1. cbn [andb]. now apply IH.
Qed.

Lemma placeholders_close (name post acc : jsstring) :
  brace_free name ->
  placeholders (name ++ ch "}" :: post) (Some acc)
  = rev (ch "}" :: rev name ++ acc) :: placeholders post None.
Proof.
  revert acc. induction name as [|c name IH]; intros acc.
  - intros _. cbn [app placeholders rev]. now rewrite N.eqb_refl.
  - intros (_ & H2 & Hn)%brace_free_cons. cbn [app placeholders].
    apply N.eqb_neq in H2. rewrite H2, (IH _ Hn). do 2 f_equal.
    cbn [rev]. now rewrite <- app_assoc.
Qed.

Lemma placeholders_template (pre name post : jsstring) :
  brace_free pre -> name <> [] -> brace_free name -> brace_free post ->
  placeholders (template pre name post) None
  = [str "{" ++ name ++ str "}"].
Proof.
  intros Hpre Hne Hname Hpost. unfold template.
  rewrite placeholders_skip by assumption.
  change (str "{" ++ name ++ str "}" ++ post)
    with (ch "{" :: name ++ ch "}" :: post).
  cbn [placeholders]. rewrite N.eqb_refl. cbn [andb].
  assert (F : placeholder_follows (name ++ ch "}" :: post) = true).
  { destruct name as [|c name]; [contradiction|].
    apply brace_free_cons in Hname as (_ & H2 & _).
    cbn [app placeholder_follows]. apply N.eqb_neq in H2. rewrite H2.
    cbn [negb andb]. apply existsb_exists. exists (ch "}").
    split; [|apply N.eqb_refl].
    apply (in_or_app (c :: name) (ch "}" :: post)). right. now left. }
  rewrite F, placeholders_close by assumption.
  replace (placeholders post None) with (@nil (list N)).
  - cbn [rev]. rewrite rev_app_distr, rev_involutive. reflexivity.
  - symmetry. rewrite <- (app_nil_r post). now apply placeholders_skip.
Qed.

Lemma remove_first_absent (c : code_unit) (s : jsstring) :
  forallb (fun x => negb (x =? c)%N) s = true ->
  remove_first c (s ++ [c]) = s.
Proof.
  induction s as [|x s IH]; cbn [app remove_first forallb].
  - now rewrite N.eqb_refl.
  - intros [Hx Hs]%andb_true_iff. apply negb_true_iff in Hx. rewrite Hx.
    now rewrite IH.
Qed.

Lemma parameterName_of_placeholder (name : jsstring) :
  brace_free name ->
  remove_first (ch "}") (remove_first (ch "{") (str "{" ++ name ++ str "}"))
  = name.
Proof.
  intros H. change (str "{" ++ name ++ str "}")
    with (ch "{" :: name ++ [ch "}"]).
  cbn [remove_first]. rewrite N.eqb_refl. apply remove_first_absent.
  unfold brace_free in H. rewrite forallb_forall in *. intros x Hx.
  specialize (H x Hx). apply negb_true_iff, orb_false_iff in H as [_ H].
  now rewrite H.
Qed.

Lemma substitution_plain (v before matched after : jsstring) :
  dollar_free v -> substitution v before matched after = v.
Proof.
  unfold dollar_free. induction v as [|c v IH]; [reflexivity|].
  cbn [forallb substitution]. intros [Hc Hv]%andb_true_iff.
  apply negb_true_iff in Hc. rewrite Hc. now rewrite IH.
Qed.

Lemma replace_from_first (p rep post : jsstring) :
  forall pre before : jsstring,
  (forall c r, p <> c :: r \/ ~ In c pre) -> p <> [] ->
  replace_from p rep before (pre ++ p ++ post)
  = rev before ++ pre
      ++ substitution rep (rev before ++ pre) p post ++ post.
Proof.
  intros pre before Hp Hne. revert before.
  induction pre as [|c pre IH]; intros before.
  - cbn [app]. destruct (p ++ post) as [|x s] eqn:Es.
    + destruct p; [contradiction|discriminate].
    + rewrite <- Es. 
      assert (S1 : startsWith p (p ++ post) = true) by apply startsWith_app.
      assert (S2 : skipn (length p) (p ++ post) = post).
      { rewrite skipn_app, skipn_all, Nat.sub_diag. reflexivity. }
      rewrite Es in *. cbn [replace_from]. rewrite S1, S2.
      now rewrite app_nil_r.
  - cbn [app replace_from].
    assert (S1 : startsWith p (c :: pre ++ p ++ post) = false).
    { destruct p as [|x p']; [contradiction|].
      apply startsWith_head. intros ->.
      destruct (Hp c p') as [H|H]; [now apply H|apply H; now left]. }
    rewrite S1, IH.
    + cbn [rev]. now rewrite <- !app_assoc.
    + intros x r. destruct (Hp x r) as [H|H]; [now left|right].
      intros Hin. apply H. now right.
Qed.

Lemma replace_placeholder (pre name post v : jsstring) :
  brace_free pre -> dollar_free v ->
  replace (str "{" ++ name ++ str "}") v (template pre name post)
  = pre ++ v ++ post.
Proof.
  intros Hpre Hv. unfold replace, template.
  replace (pre ++ str "{" ++ name ++ str "}" ++ post)
    with (pre ++ (str "{" ++ name ++ str "}") ++ post)
    by now rewrite <- !app_assoc.
  rewrite replace_from_first.
  - cbn [rev app]. now rewrite substitution_plain.
  - intros c r. destruct (N.eq_dec c (ch "{")) as [->|Hc].
    + right. intros Hin. unfold brace_free in Hpre.
      rewrite forallb_forall in Hpre. specialize (Hpre _ Hin).
      now rewrite N.eqb_refl in Hpre.
    + left. intros [= E _]. now apply Hc.
  - discriminate.
Qed.

Lemma replace_from_match (p before s : jsstring) :
  replace_from p (str "$&") before s = rev before ++ s.
Proof.
  revert before. induction s as [|c s IH]; intros before.
  - cbn [replace_from]. rewrite app_nil_r.
    destruct (startsWith p []) eqn:E; [|reflexivity].
    destruct p; [|discriminate]. cbn. now rewrite app_nil_r.
  - cbn [replace_from]. destruct (startsWith p (c :: s)) eqn:E.
    + apply startsWith_split in E. rewrite E at 3.
      cbn. now rewrite app_nil_r.
    + rewrite IH. cbn [rev]. now rewrite <- app_assoc.
Qed.

Lemma handleResource_after_fill (u u' : jsstring) (w w' : world) :
  fill_placeholders (placeholders u None) u w = (Ok u', w') ->
  exists outcome tail,
    log (snd (handleResource u w)) = log w' ++ ResourceRead u' outcome :: tail
    /\ at_most_a_line tail.
Proof.
  intros E. unfold handleResource, bind at 1. rewrite E.
  exists (server_readResource w' (tick w') u').
  unfold bind, readResource, perform.
  destruct (server_readResource w' (tick w') u') as [[|first rest]|e].
  - exists []. cbn [snd throw]. rewrite log_record. split; [reflexivity|now left].
  - destruct (JSON_parse (text first)) as [v|].
    + eexists. cbn [snd console_log modify]. rewrite !log_record, <- app_assoc.
      split; [reflexivity|right; eexists; reflexivity].
    + exists []. cbn [snd throw]. rewrite log_record.
      split; [reflexivity|now left].
  - exists []. cbn [snd]. rewrite log_record. split; [reflexivity|now left].
Qed.

(** X17.  For a URI without braces [handleResource] asks nothing and
    reads exactly that URI. *)
Theorem handleResource_plain_uri (resourceUri : jsstring) (w : world) :
  brace_free resourceUri ->
  exists outcome tail,
    log (snd (handleResource resourceUri w))
    = log w ++ ResourceRead resourceUri outcome :: tail
    /\ at_most_a_line tail.
Proof.
  intros H. apply handleResource_after_fill.
  rewrite <- (app_nil_r resourceUri) at 1.
  now rewrite placeholders_skip.
Qed.

Lemma handleResource_plain_uri_witness :
  let w := driver_world 0 [] true (says []) in
  exists outcome tail,
    log (snd (handleResource (str "users://all") w))
    = log w ++ ResourceRead (str "users://all") outcome :: tail
    /\ at_most_a_line tail.
Proof.
  intros w. apply (@handleResource_plain_uri (str "users://all") w).
  reflexivity.
Defined.

(** X18.  For a template with one placeholder [handleResource] asks for
    the placeholder by its name, without the braces, and reads the
    template with the placeholder replaced by the value typed, when that
    value holds no dollar sign. *)
Theorem handleResource_fills_placeholder
    (pre name post : jsstring) (w : world) :
  brace_free pre -> name <> [] -> brace_free name -> brace_free post ->
  dollar_free (user_input w (tick w)) ->
  exists outcome tail,
    log (snd (handleResource (template pre name post) w))
    = log w ++ Entered (argument_question name) (user_input w (tick w))
            :: ResourceRead (pre ++ user_input w (tick w) ++ post) outcome
            :: tail
    /\ at_most_a_line tail.
Proof.
  intros Hpre Hne Hname Hpost Hv.
  destruct (@handleResource_after_fill (template pre name post)
              (pre ++ user_input w (tick w) ++ post) w
              (record (Entered (argument_question name)
                               (user_input w (tick w))) w))
    as (outcome & tail & L & T).
  - rewrite placeholders_template by assumption.
    cbn [fill_placeholders]. unfold bind, input.
    rewrite parameterName_of_placeholder by assumption.
    now rewrite replace_placeholder.
  - exists outcome, tail. split; [|exact T].
    rewrite L, log_record, <- app_assoc. reflexivity.
Qed.

Lemma handleResource_fills_placeholder_witness :
  let w := driver_world 0 (str "7") true (says []) in
  exists outcome tail,
    log (snd (handleResource (str "users://{userId}/profile") w))
    = log w ++ Entered (str "Enter value for userId:") (str "7")
            :: ResourceRead (str "users://7/profile") outcome :: tail
    /\ at_most_a_line tail.
Proof.
  intros w.
  apply (@handleResource_fills_placeholder
           (str "users://") (str "userId") (str "/profile") w);
    (reflexivity || discriminate).
Defined.

Lemma fill_placeholders_match (parameterMatches : list jsstring)
      (constructedUri : jsstring) :
  forall w, (forall t, user_input w t = str "$&") ->
  exists w' new,
    fill_placeholders parameterMatches constructedUri w
    = (Ok constructedUri, w')
    /\ log w' = log w ++ new /\ reads new = [].
Proof.
  induction parameterMatches as [|m rest IH]; intros w Hw.
  - exists w, []. cbn. now rewrite app_nil_r.
  - cbn [fill_placeholders]. unfold bind, input. rewrite Hw.
    unfold replace. rewrite replace_from_match. cbn [rev app].
    set (w1 := record _ w).
    destruct (IH w1 Hw) as (w' & new & E & L & R).
    exists w'. eexists. split; [exact E|]. split.
    + rewrite L. unfold w1. rewrite log_record, <- app_assoc. reflexivity.
    + cbn [app reads]. exact R.
Qed.

(** X19.  The value typed for a placeholder is read as a replacement
    pattern: when the operator types a dollar sign followed by an
    ampersand at every question, each placeholder is replaced by itself
    and [handleResource] reads the template as it stands, whatever the
    template. *)
Theorem handleResource_replacement_pattern
    (resourceUri : jsstring) (w : world) :
  (forall t, user_input w t = str "$&") ->
  exists new,
    log (snd (handleResource resourceUri w)) = log w ++ new
    /\ reads new = [resourceUri].
Proof.
  intros Hw.
  destruct (fill_placeholders_match (placeholders resourceUri None)
              resourceUri w Hw) as (w' & new & E & L & R).
  destruct (handleResource_after_fill _ _ E) as (outcome & tail & L' & T).
  exists (new ++ ResourceRead resourceUri outcome :: tail). split.
  - now rewrite L', L, <- app_assoc.
  - rewrite reads_app, R. cbn [app reads]. f_equal.
    destruct T as [->|[line ->]]; reflexivity.
Qed.

Lemma handleResource_replacement_pattern_witness :
  let w := driver_world 0 (str "$&") true (says []) in
  exists new,
    log (snd (handleResource (str "users://{userId}/profile") w))
    = log w ++ new
    /\ reads new = [str "users://{userId}/profile"].
Proof.
  intros w.
  apply (@handleResource_replacement_pattern
           (str "users://{userId}/profile") w).
  reflexivity.
Defined.

(** ** The menu hands on what was selected *)

Lemma select_some (message : jsstring) (choices : list Choice) (w : world) :
  choices <> [] ->
  exists v, In v (map choice_value choices)
            /\ select message choices w
               = (Ok v, record (Selected message v) w).
Proof.
  intros Hne. destruct (select message choices w) as [[v|e] w1] eqn:E.
  - destruct (select_offered _ _ _ E) as [Hin ->]. now exists v.
  - unfold select in E. destruct choices; [contradiction|discriminate].
Qed.

Lemma find_by_value (A : Type) (value : A -> jsstring) (xs : list A)
      (v : jsstring) :
  In v (map value xs) ->
  exists x, find (fun x => jsstring_eqb (value x) v) xs = Some x
            /\ In x xs /\ value x = v.
Proof.
  intros (x0 & E0 & H0)%in_map_iff.
  destruct (find (fun x => jsstring_eqb (value x) v) xs) as [x|] eqn:F.
  - apply find_some in F as [Hin Hx]. apply jsstring_eqb_eq in Hx.
    now exists x.
  - apply (find_none _ _ F) in H0. cbn beta in H0.
    rewrite E0, jsstring_eqb_refl in H0. discriminate.
Qed.

(** X20.  In the case [Tools] of the menu the tool that was selected is
    always found among the listed ones and handed to [handleTool]: the
    branch that reports a missing tool is never taken. *)
Theorem case_Tools_runs_listed_tool (tools : list Tool) (w : world) :
  tools <> [] ->
  exists tool,
    In tool tools
    /\ case_Tools tools w
       = handleTool tool
           (record (Selected (str "Select a tool") (tool_name tool)) w).
Proof.
  intros Hne. unfold case_Tools, bind.
  destruct (@select_some (str "Select a tool") (map tool_choice tools) w)
    as (v & Hin & ->); [now destruct tools|].
  rewrite map_map in Hin. cbn [choice_value tool_choice] in Hin.
  destruct (find_by_value tool_name tools v Hin) as (tool & -> & Ht & <-).
  now exists tool.
Qed.

Lemma case_Tools_runs_listed_tool_witness :
  let w := driver_world 0 [] true (says []) in
  exists tool,
    In tool [create_user_tool]
    /\ case_Tools [create_user_tool] w
       = handleTool tool
           (record (Selected (str "Select a tool") (tool_name tool)) w).
Proof.
  intros w. apply (@case_Tools_runs_listed_tool [create_user_tool] w).
  discriminate.
Defined.

(** X21.  In the case [Resources] the URI or URI template that was
    selected is always resolved, to itself, and handed to
    [handleResource]: the branch that reports a missing resource is never
    taken. *)
Theorem case_Resources_reads_selected_uri
    (resources : list Resource) (resourceTemplates : list ResourceTemplate)
    (w : world) :
  resources <> [] \/ resourceTemplates <> [] ->
  exists uri,
    In uri (map resource_uri resources
              ++ map template_uriTemplate resourceTemplates)
    /\ case_Resources resources resourceTemplates w
       = handleResource uri
           (record (Selected (str "Select a resource") uri) w).
Proof.
  intros Hne. unfold case_Resources, bind.
  destruct (@select_some (str "Select a resource")
              (map resource_choice resources
                 ++ map template_choice resourceTemplates) w)
    as (v & Hin & ->).
  { intros [E1 E2]%app_eq_nil. destruct Hne as [H|H]; apply H.
    - now destruct resources.
    - now destruct resourceTemplates. }
  rewrite map_app, !map_map in Hin.
  cbn [choice_value resource_choice template_choice] in Hin.
  exists v. split; [exact Hin|].
  destruct (find (fun resource => jsstring_eqb (resource_uri resource) v)
                 resources) as [r|] eqn:F.
  - apply find_some in F as [_ Hr]. apply jsstring_eqb_eq in Hr.
    now rewrite Hr.
  - apply in_app_or in Hin as [Hin|Hin].
    + destruct (find_by_value resource_uri resources v Hin) as (x & Fx & _).
      rewrite Fx in F. discriminate.
    + destruct (find_by_value template_uriTemplate resourceTemplates v Hin)
        as (x & -> & _ & ->). reflexivity.
Qed.

Lemma case_Resources_reads_selected_uri_witness :
  let w := driver_world 0 [] true (says []) in
  let users := {| resource_name := str "users";
                  resource_uri := str "users://all";
                  resource_description := None |} in
  exists uri,
    In uri (map resource_uri [users] ++ map template_uriTemplate [])
    /\ case_Resources [users] [] w
       = handleResource uri
           (record (Selected (str "Select a resource") uri) w).
Proof.
  intros w users. apply (@case_Resources_reads_selected_uri [users] [] w).
  left. discriminate.
Defined.

(** X22.  In the case [Prompts] the prompt that was selected is always
    found among the listed ones and handed to [handlePrompt]: the branch
    that reports a missing prompt is never taken. *)
Theorem case_Prompts_runs_listed_prompt (prompts : list Prompt) (w : world) :
  prompts <> [] ->
  exists prompt,
    In prompt prompts
    /\ case_Prompts prompts w
       = handlePrompt prompt
           (record (Selected (str "Select a prompt") (prompt_name prompt)) w).
Proof.
  intros Hne. unfold case_Prompts, bind.
  destruct (@select_some (str "Select a prompt")
              (map prompt_choice prompts) w)
    as (v & Hin & ->); [now destruct prompts|].
  rewrite map_map in Hin. cbn [choice_value prompt_choice] in Hin.
  destruct (find_by_value prompt_name prompts v Hin) as (p & -> & Hp & <-).
  now exists p.
Qed.

Lemma case_Prompts_runs_listed_prompt_witness :
  let w := driver_world 0 [] true (says []) in
  let fake := {| prompt_name := str "generate-fake-user";
                 prompt_description := None;
                 prompt_arguments := [str "name"] |} in
  exists prompt,
    In prompt [fake]
    /\ case_Prompts [fake] w
       = handlePrompt prompt
           (record (Selected (str "Select a prompt") (prompt_name prompt)) w).
Proof.
  intros w fake. apply (@case_Prompts_runs_listed_prompt [fake] w).
  discriminate.
Defined.

End Driver.

(* ================================================================== *)
(** * What is written is read back *)
(* ================================================================== *)

Section RoundTrip.
Import JS Eff MCP Notions Invariants.

(** ** Strings *)

Lemma hex_char_value (d : N) :
  (d < 16)%N -> digit_value 16 (hex_char d) = Some d.
Proof.
  intros H.
  assert (In d (map N.of_nat (seq 0 16))) as Hin.
  { apply in_map_iff. exists (N.to_nat d). split; [lia|]. apply in_seq. lia. }
  clear H. revert d Hin. apply Forall_forall. repeat constructor.
Qed.

Lemma hex4_unicode_escape (c : N) (r : jsstring) :
  (c < 65536)%N ->
  exists h1 h2 h3 h4,
    unicode_escape c ++ r = ch "\" :: ch "u" :: h1 :: h2 :: h3 :: h4 :: r
    /\ hex4 h1 h2 h3 h4 = Some c.
Proof.
  intros H. unfold unicode_escape. do 4 eexists. split; [reflexivity|].
  unfold hex4.
  rewrite !hex_char_value
    by (try apply N.mod_lt; try apply N.Div0.div_lt_upper_bound; lia).
  f_equal.
  pose proof (N.Div0.div_mod c 16) as E1.
  pose proof (N.Div0.div_mod (c / 16) 16) as E2.
  pose proof (N.Div0.div_mod (c / 256) 16) as E3.
  rewrite !N.Div0.div_div in *.
  replace (c / (16 * 16))%N with (c / 256)%N in * by reflexivity.
  replace (c / (256 * 16))%N with (c / 4096)%N in * by reflexivity.
  lia.
Qed.

Lemma parse_string_body_escaped (e u : N) (r body rest : jsstring) :
  simple_escape e = Some u -> e <> ch "u" ->
  parse_string_body r = Some (body, rest) ->
  parse_string_body (ch "\" :: e :: r) = Some (u :: body, rest).
Proof.
  intros He Hu Hr. cbn [parse_string_body].
  change (ch "\" =? dquote)%N with false. cbv iota.
  rewrite N.eqb_refl. apply N.eqb_neq in Hu. rewrite Hu, He, Hr. reflexivity.
Qed.

Lemma parse_string_body_raw (c : N) (r body rest : jsstring) :
  c <> dquote -> c <> ch "\" -> (32 <= c)%N ->
  parse_string_body r = Some (body, rest) ->
  parse_string_body (c :: r) = Some (c :: body, rest).
Proof.
  intros Hq Hb Hc Hr. cbn [parse_string_body].
  apply N.eqb_neq in Hq, Hb. rewrite Hq, Hb.
  replace (c <? 32)%N with false by (symmetry; apply N.ltb_ge; exact Hc).
  now rewrite Hr.
Qed.

Lemma parse_string_body_unicode (c : N) (r body rest : jsstring) :
  (c < 65536)%N ->
  parse_string_body r = Some (body, rest) ->
  parse_string_body (unicode_escape c ++ r) = Some (c :: body, rest).
Proof.
  intros Hc Hr.
  destruct (hex4_unicode_escape r Hc) as (h1 & h2 & h3 & h4 & -> & E).
  cbn [parse_string_body].
  change (ch "\" =? dquote)%N with false. cbv iota.
  rewrite !N.eqb_refl. rewrite E, Hr. reflexivity.
Qed.

(** What [QuoteJSONString] writes between the quotes is read back as
    the string itself, whatever its code units. *)
Lemma parse_string_body_quote_chars (s rest : jsstring) :
  parse_string_body (quote_chars s ++ dquote :: rest) = Some (s, rest).
Proof.
  remember (length s) as n eqn:Hn. revert s Hn.
  induction n as [n IH] using lt_wf_ind. intros s Hn.
  assert (Hend : parse_string_body (dquote :: rest) = Some ([], rest))
    by reflexivity.
  destruct s as [|c r]; [exact Hend|].
  assert (IHr : parse_string_body (quote_chars r ++ dquote :: rest)
                = Some (r, rest)).
  { apply (IH (length r)); [subst; cbn; lia | reflexivity]. }
  cbn [quote_chars].
  destruct (N.eqb_spec c 8) as [->|H8];
    [now apply (@parse_string_body_escaped (ch "b"))|].
  destruct (N.eqb_spec c 9) as [->|H9];
    [now apply (@parse_string_body_escaped (ch "t"))|].
  destruct (N.eqb_spec c 10) as [->|H10];
    [now apply (@parse_string_body_escaped (ch "n"))|].
  destruct (N.eqb_spec c 12) as [->|H12];
    [now apply (@parse_string_body_escaped (ch "f"))|].
  destruct (N.eqb_spec c 13) as [->|H13];
    [now apply (@parse_string_body_escaped (ch "r"))|].
  destruct (N.eqb_spec c dquote) as [->|Hq];
    [now apply (@parse_string_body_escaped dquote)|].
  destruct (N.eqb_spec c (ch "\")) as [->|Hb];
    [now apply (@parse_string_body_escaped (ch "\"))|].
  destruct (N.ltb_spec c 32) as [Hlt|Hge].
  { rewrite <- app_assoc. apply parse_string_body_unicode; [lia|exact IHr]. }
  destruct (is_high_surrogate c) eqn:Hh.
  { unfold is_high_surrogate in Hh. apply andb_prop in Hh as [Hh1 Hh2].
    apply N.leb_le in Hh1, Hh2.
    destruct r as [|d r'].
    - rewrite <- (app_nil_r (unicode_escape c)), <- app_assoc.
      apply parse_string_body_unicode; [lia|exact Hend].
    - destruct (is_low_surrogate d) eqn:Hl.
      + unfold is_low_surrogate in Hl. apply andb_prop in Hl as [Hl1 Hl2].
        apply N.leb_le in Hl1, Hl2. cbn [app].
        apply parse_string_body_raw; try assumption.
        apply parse_string_body_raw;
          try (unfold dquote; change (ch "\") with 92%N; lia).
        apply (IH (length r')); [subst; cbn; lia | reflexivity].
      + rewrite <- app_assoc.
        apply parse_string_body_unicode; [lia|exact IHr]. }
  destruct (is_low_surrogate c) eqn:Hl.
  { unfold is_low_surrogate in Hl. apply andb_prop in Hl as [Hl1 Hl2].
    apply N.leb_le in Hl1, Hl2. rewrite <- app_assoc.
    apply parse_string_body_unicode; [lia|exact IHr]. }
  cbn [app]. now apply parse_string_body_raw.
Qed.

(** ** Whole numbers *)

Lemma stops_cases (c : N) (r : jsstring) :
  stops (c :: r) ->
  In c [9%N; 10%N; 13%N; 32%N; ch ","; ch "]"; ch "}"].
Proof.
  cbn [stops]. intros [H | [-> | [-> | ->]]]; cbn; auto 10.
  unfold is_json_ws in H.
  repeat (apply orb_prop in H as [H|H]); apply N.eqb_eq in H; subst; auto 10.
Qed.

Ltac stop_cases H :=
  apply stops_cases in H; cbn [In] in H;
  repeat (destruct H as [<-|H]); [..|contradiction].

Lemma span_digits_stops (rest : jsstring) :
  stops rest -> span_digits rest = ([], rest).
Proof.
  destruct rest as [|c r]; [reflexivity|].
  intros H. stop_cases H; reflexivity.
Qed.

Lemma span_digits_digit_chars (ds : list N) (rest : jsstring) :
  Forall (fun d => (d < 10)%N) ds -> stops rest ->
  span_digits (map digit_char ds ++ rest) = (ds, rest).
Proof.
  intros Hds Hr. induction Hds as [|d ds Hd _ IH].
  - now apply span_digits_stops.
  - cbn [map app span_digits]. rewrite digit_char_is_digit, IH by assumption.
    f_equal. f_equal. unfold digit_char. lia.
Qed.

Lemma drop_zeros_zeros (m : nat) (l : list N) :
  drop_zeros (repeat 0%N m ++ l) = drop_zeros l.
Proof. induction m as [|m IH]; [reflexivity|exact IH]. Qed.

Lemma drop_zeros_length (l : list N) : length (drop_zeros l) <= length l.
Proof.
  induction l as [|d l IH]; [reflexivity|]. cbn [drop_zeros].
  destruct (d =? 0)%N; cbn [length]; lia.
Qed.

Lemma drop_zeros_fixed (d : N) (r : list N) :
  drop_zeros (d :: r) = d :: r -> d <> 0%N.
Proof.
  intros E ->. cbn [drop_zeros] in E. change (0 =? 0)%N with true in E.
  cbv iota in E. pose proof (drop_zeros_length r) as L. rewrite E in L.
  cbn [length] in L. lia.
Qed.

Lemma make_number_canonical (sign : bool) (d : N) (r : list N) (m : nat) :
  canonical (d :: r) ->
  make_number sign ((d :: r) ++ repeat 0%N m) 0
  = mkNumber sign (d :: r) (Z.of_nat (length (d :: r) + m)).
Proof.
  intros (_ & Hl & Ht). unfold make_number.
  assert (E1 : drop_zeros ((d :: r) ++ repeat 0%N m)
               = (d :: r) ++ repeat 0%N m).
  { cbn [app drop_zeros]. apply drop_zeros_fixed, N.eqb_neq in Hl.
    now rewrite Hl. }
  rewrite E1, rev_app_distr, rev_repeat, drop_zeros_zeros, Ht, rev_involutive.
  rewrite length_app, repeat_length, Z.add_0_r. reflexivity.
Qed.

Lemma number_toString_whole (x : number) (d : N) (r : list N) :
  whole x -> digits x = d :: r ->
  number_toString x
  = minus (neg x)
      ++ map digit_char
           ((d :: r) ++ repeat 0%N
              (Z.to_nat (point x - Z.of_nat (length (d :: r))))).
Proof.
  unfold whole, number_toString. intros H E. rewrite E in *.
  destruct H as (_ & H1 & H2). rewrite length_map.
  replace ((Z.of_nat (length (d :: r)) <=? point x)
           && (point x <=? 21))%Z with true
    by (symmetry; apply andb_true_intro; split; apply Z.leb_le; lia).
  rewrite map_app, map_repeat. unfold minus, zeros.
  now destruct (neg x).
Qed.

(** A whole number is read back from its spelling. *)
Lemma parse_number_toString (x : number) (rest : jsstring) :
  whole x -> stops rest ->
  parse_number (number_toString x ++ rest) = Some (x, rest).
Proof.
  intros Hx Hr.
  assert (Hfrac : read_frac rest = Some ([], rest)).
  { destruct rest as [|c t]; [reflexivity|].
    pose proof Hr as H. stop_cases H; reflexivity. }
  assert (Hexp : read_exp rest = Some (0%Z, rest)).
  { destruct rest as [|c t]; [reflexivity|].
    pose proof Hr as H. stop_cases H; reflexivity. }
  destruct (digits x) as [|d r] eqn:E.
  - unfold whole in Hx. rewrite E in Hx. subst x.
    change (number_toString zero ++ rest) with (ch "0" :: rest).
    unfold parse_number.
    change (read_minus (ch "0" :: rest)) with (false, ch "0" :: rest).
    cbv beta iota zeta.
    change (read_int (ch "0" :: rest)) with (Some ([0%N], rest)).
    cbv beta iota. rewrite Hfrac, Hexp. reflexivity.
  - rewrite (@number_toString_whole x d r Hx E).
    pose proof Hx as Hx'. unfold whole in Hx'. rewrite E in Hx'.
    destruct Hx' as (Hc & Hp1 & Hp2).
    set (m := Z.to_nat (point x - Z.of_nat (length (d :: r)))).
    assert (Hall : Forall (fun d => (d < 10)%N) ((d :: r) ++ repeat 0%N m)).
    { apply Forall_app. split; [apply Hc|].
      apply Forall_forall. intros y Hy. apply repeat_spec in Hy. lia. }
    assert (Hd : (d < 10)%N /\ d <> 0%N).
    { split; [|apply (@drop_zeros_fixed d r (proj1 (proj2 Hc)))].
      destruct Hc as [Hc _]. now inversion Hc. }
    set (body := map digit_char ((d :: r) ++ repeat 0%N m)).
    assert (Hm : read_minus ((minus (neg x) ++ body) ++ rest)
                 = (neg x, body ++ rest)).
    { destruct (neg x); [reflexivity|]. unfold body.
      cbn [minus app map read_minus].
      replace (digit_char d =? ch "-")%N with false; [reflexivity|].
      symmetry. apply N.eqb_neq. unfold digit_char.
      change (ch "-") with 45%N. lia. }
    assert (Hi : read_int (body ++ rest)
                 = Some ((d :: r) ++ repeat 0%N m, rest)).
    { rewrite <- (@span_digits_digit_chars _ rest Hall Hr). unfold body.
      cbn [app map read_int].
      replace (digit_char d =? ch "0")%N with false.
      - now rewrite digit_char_is_digit.
      - symmetry. apply N.eqb_neq. unfold digit_char.
        change (ch "0") with 48%N. lia. }
    unfold parse_number. rewrite Hm, Hi, Hfrac, Hexp, app_nil_r.
    cbn [length]. rewrite Z.sub_0_r, (@make_number_canonical _ d r m Hc).
    destruct x as [sign ds p]. cbn [digits neg point] in *. subst ds.
    do 3 f_equal. unfold m. cbn [length] in *. lia.
Qed.

(** ** Values *)

(** Induction on a value, with the hypothesis for every element of an
    array and every member of an object. *)
Lemma json_induction (P : json -> Prop) :
  P JNull -> (forall b, P (JBool b)) -> (forall x, P (JNum x)) ->
  (forall s, P (JStr s)) ->
  (forall items, Forall P items -> P (JArr items)) ->
  (forall props, Forall (fun kv => P (snd kv)) props -> P (JObj props)) ->
  forall v, P v.
Proof.
  intros Hnull Hbool Hnum Hstr Harr Hobj. fix IH 1. intros [|b|x|s|items|props].
  - exact Hnull.
  - apply Hbool.
  - apply Hnum.
  - apply Hstr.
  - apply Harr. induction items as [|x items IHitems]; constructor.
    + apply IH.
    + exact IHitems.
  - apply Hobj. induction props as [|[k x] props IHprops]; constructor.
    + apply IH.
    + exact IHprops.
Qed.

Lemma portable_array (items : list json) :
  portable (JArr items) <-> Forall portable items.
Proof.
  cbn [portable]. induction items as [|x items IH].
  - split; [constructor|trivial].
  - split.
    + intros [Hx Hr]. constructor; [exact Hx|now apply IH].
    + intros H. inversion H; subst. split; [assumption|now apply IH].
Qed.

Lemma portable_object (props : list (jsstring * json)) :
  portable (JObj props)
  <-> portable_keys (map fst props) /\ Forall (fun kv => portable (snd kv)) props.
Proof.
  cbn [portable]. apply and_iff_compat_l.
  induction props as [|[k x] props IH].
  - split; [constructor|trivial].
  - split.
    + intros [Hx Hr]. constructor; [exact Hx|now apply IH].
    + intros H. inversion H; subst. split; [assumption|now apply IH].
Qed.

Lemma obj_get_absent (k : jsstring) (o : object) :
  ~ In k (map fst o) -> obj_get k o = None.
Proof.
  induction o as [|[k' v] o IH]; [reflexivity|]. cbn [map fst In obj_get].
  intros H. destruct (jsstring_eqb k k') eqn:E.
  - apply jsstring_eqb_eq in E. subst. exfalso. apply H. now left.
  - apply IH. intros Hin. apply H. now right.
Qed.

Lemma fold_obj_set_fresh (ms : list (jsstring * json)) :
  forall acc : object,
  NoDup (map fst (acc ++ ms)) ->
  Forall (fun k => array_index k = None) (map fst ms) ->
  fold_left (fun o kv => obj_set (fst kv) (snd kv) o) ms acc = acc ++ ms.
Proof.
  induction ms as [|[k v] ms IH]; intros acc Hd Hi.
  - cbn. now rewrite app_nil_r.
  - cbn [fold_left fst snd].
    assert (E : obj_set k v acc = acc ++ [(k, v)]).
    { unfold obj_set. rewrite obj_get_absent.
      - inversion Hi as [|? ? Hk _]; subst. now rewrite Hk.
      - rewrite map_app in Hd. cbn [map fst] in Hd.
        apply NoDup_remove_2 in Hd. intros Hin. apply Hd.
        apply in_or_app. now left. }
    rewrite E. replace (acc ++ (k, v) :: ms) with ((acc ++ [(k, v)]) ++ ms)
      by now rewrite <- app_assoc.
    apply IH; [now rewrite <- app_assoc|now inversion Hi].
Qed.

Lemma object_of_members_portable (ms : list (jsstring * json)) :
  portable_keys (map fst ms) -> object_of_members ms = ms.
Proof.
  intros [Hd Hi]. unfold object_of_members.
  now rewrite fold_obj_set_fresh.
Qed.

Lemma parse_value_bracket (f : nat) (r : jsstring) :
  parse_value (S f) (ch "[" :: r)
  = match skip_ws r with
    | c1 :: r1 =>
        if (c1 =? ch "]")%N then Some (JArr [], r1)
        else match parse_elements f r with
             | Some (vs, rest) => Some (JArr vs, rest)
             | None => None
             end
    | [] => None
    end.
Proof. reflexivity. Qed.

Lemma parse_value_brace (f : nat) (r : jsstring) :
  parse_value (S f) (ch "{" :: r)
  = match skip_ws r with
    | c1 :: r1 =>
        if (c1 =? ch "}")%N then Some (JObj [], r1)
        else match parse_members f r with
             | Some (ms, rest) => Some (JObj (object_of_members ms), rest)
             | None => None
             end
    | [] => None
    end.
Proof. reflexivity. Qed.

Lemma parse_value_quote (f : nat) (r : jsstring) :
  parse_value (S f) (dquote :: r)
  = match parse_string_body r with
    | Some (body, rest) => Some (JStr body, rest)
    | None => None
    end.
Proof. reflexivity. Qed.

Lemma parse_value_number (f : nat) (c : N) (r : jsstring) :
  c = ch "-" \/ is_digit c = true ->
  parse_value (S f) (c :: r)
  = match parse_number (c :: r) with
    | Some (x, rest) => Some (JNum x, rest)
    | None => None
    end.
Proof.
  intros [->|H]; [reflexivity|].
  assert (In c (map N.of_nat (seq 48 10))) as Hin.
  { unfold is_digit in H. apply andb_prop in H as [H1 H2].
    apply N.leb_le in H1, H2. apply in_map_iff. exists (N.to_nat c).
    split; [lia|]. apply in_seq. lia. }
  clear H. revert c Hin. apply Forall_forall. repeat constructor.
Qed.

Lemma number_toString_head (x : number) :
  whole x ->
  exists c r, number_toString x = c :: r
              /\ (c = ch "-" \/ is_digit c = true).
Proof.
  intros Hx. destruct (digits x) as [|d ds] eqn:E.
  - unfold whole in Hx. rewrite E in Hx. subst x.
    exists (ch "0"), []. split; [reflexivity|now right].
  - rewrite (@number_toString_whole x d ds Hx E).
    unfold whole in Hx. rewrite E in Hx. destruct Hx as [(Hd & _) _].
    destruct (neg x); cbn [minus app map].
    + eexists _, _. split; [reflexivity|now left].
    + eexists _, _. split; [reflexivity|right].
      apply digit_char_is_digit. now inversion Hd.
Qed.

Lemma value_head (f : nat) (s : jsstring) (r : json * jsstring) :
  parse_value f s = Some r ->
  exists c1 r1, skip_ws s = c1 :: r1 /\ c1 <> ch "]" /\ c1 <> ch "}".
Proof.
  destruct f as [|f]; [discriminate|]. cbn [parse_value].
  destruct (skip_ws s) as [|c r0]; [discriminate|]. intros H.
  exists c, r0. split; [reflexivity|].
  split; intros ->; discriminate.
Qed.

Lemma json_ws_app (a b : jsstring) :
  json_ws (a ++ b) <-> json_ws a /\ json_ws b.
Proof. unfold json_ws. rewrite forallb_app. apply andb_true_iff. Qed.

Lemma json_ws_inner_space (gap indent : jsstring) :
  json_ws gap -> json_ws indent -> json_ws (inner_space gap indent).
Proof.
  intros Hg Hi. unfold inner_space. destruct gap; [reflexivity|].
  apply json_ws_app. split; [reflexivity|]. now apply json_ws_app.
Qed.

Lemma json_ws_outer_space (gap indent : jsstring) :
  json_ws indent -> json_ws (outer_space gap indent).
Proof.
  intros Hi. unfold outer_space. destruct gap; [reflexivity|].
  apply json_ws_app. now split.
Qed.

Lemma json_ws_colon_space (gap : jsstring) : json_ws (colon_space gap).
Proof. unfold colon_space. now destruct gap. Qed.

Lemma skip_ws_prefix (sp s : jsstring) :
  json_ws sp -> skip_ws (sp ++ s) = skip_ws s.
Proof. intros H. now rewrite skip_ws_app, (skip_ws_trailing H). Qed.

Lemma parse_value_prefix (sp s : jsstring) (g : nat) :
  json_ws sp -> parse_value g (sp ++ s) = parse_value g s.
Proof.
  intros H. rewrite <- parse_value_skip_ws, skip_ws_prefix by assumption.
  apply parse_value_skip_ws.
Qed.

Lemma parse_members_prefix (sp s : jsstring) (g : nat) :
  json_ws sp -> parse_members g (sp ++ s) = parse_members g s.
Proof.
  intros H. destruct g as [|f]; [reflexivity|]. cbn [parse_members].
  now rewrite skip_ws_prefix.
Qed.

Lemma stops_prefix (sp t : jsstring) :
  json_ws sp -> stops t -> stops (sp ++ t).
Proof.
  intros H Ht. destruct sp as [|c sp]; [exact Ht|]. cbn [app stops]. left.
  unfold json_ws in H. cbn [forallb] in H. now apply andb_prop in H.
Qed.

Lemma wrap_parts (opening closing gap indent p : jsstring)
      (ps : list jsstring) :
  wrap opening closing gap indent (p :: ps)
  = opening ++ inner_space gap indent
      ++ join (ch "," :: inner_space gap indent) (p :: ps)
      ++ outer_space gap indent ++ closing.
Proof.
  unfold wrap, inner_space, outer_space. destruct gap; [reflexivity|].
  now rewrite <- !app_assoc.
Qed.

Lemma serialize_array (gap indent : jsstring) (items : list json) :
  serialize gap indent (JArr items)
  = wrap (str "[") (str "]") gap indent
         (map (serialize gap (indent ++ gap)) items).
Proof. cbn [serialize]. f_equal. Qed.

Lemma serialize_object (gap indent : jsstring)
      (props : list (jsstring * json)) :
  serialize gap indent (JObj props)
  = wrap (str "{") (str "}") gap indent
         (map (member_text gap (indent ++ gap)) props).
Proof.
  cbn [serialize]. f_equal.
  induction props as [|[k x] props IH]; [reflexivity|]. cbn [map].
  now rewrite <- IH.
Qed.

Lemma parse_elements_join (sp : jsstring) (ser : json -> jsstring)
      (xs : list json) :
  json_ws sp -> xs <> [] ->
  Forall (fun x => forall rest g, stops rest ->
            2 * length (ser x ++ rest) + 2 <= g ->
            parse_value g (ser x ++ rest) = Some (x, rest)) xs ->
  forall (out rest : jsstring) (g : nat),
    json_ws out ->
    2 * length (sp ++ join (ch "," :: sp) (map ser xs)
                   ++ out ++ ch "]" :: rest) + 3 <= g ->
    parse_elements g (sp ++ join (ch "," :: sp) (map ser xs)
                         ++ out ++ ch "]" :: rest)
    = Some (xs, rest).
Proof.
  intros Hsp Hne Hall. induction Hall as [|x xs Hx Hxs IH]; [contradiction|].
  clear Hne. intros out rest [|f] Hout Hg; [lia|]. cbn [parse_elements].
  rewrite parse_value_prefix by assumption.
  rewrite length_app in Hg.
  destruct xs as [|y ys].
  - cbn [map join] in *.
    rewrite (Hx (out ++ ch "]" :: rest) f);
      [|apply stops_prefix; [assumption|now right; right; left]|lia].
    rewrite skip_ws_prefix by assumption. reflexivity.
  - change (join (ch "," :: sp) (map ser (x :: y :: ys)))
      with (ser x ++ (ch "," :: sp)
              ++ join (ch "," :: sp) (map ser (y :: ys))) in *.
    rewrite <- !app_assoc in *. rewrite <- !app_comm_cons in *.
    rewrite (Hx (ch "," :: _) f); [|now right; left|lia].
    change (skip_ws (ch "," :: ?t)) with (ch "," :: t).
    cbv beta iota. rewrite N.eqb_refl.
    rewrite IH; [reflexivity|discriminate|assumption|].
    rewrite length_app in Hg. cbn [length] in Hg. lia.
Qed.

Lemma parse_members_quote (f : nat) (body : jsstring) :
  parse_members (S f) (dquote :: body)
  = match parse_string_body body with
    | None => None
    | Some (key, r1) =>
        match skip_ws r1 with
        | colon :: r2 =>
            if (colon =? ch ":")%N then
              match parse_value f r2 with
              | None => None
              | Some (v, r3) =>
                  match skip_ws r3 with
                  | c :: r4 =>
                      if (c =? ch ",")%N then
                        match parse_members f r4 with
                        | Some (ms, rest) => Some ((key, v) :: ms, rest)
                        | None => None
                        end
                      else if (c =? ch "}")%N then Some ([(key, v)], r4)
                      else None
                  | [] => None
                  end
              end
            else None
        | [] => None
        end
    end.
Proof. reflexivity. Qed.

Lemma member_text_app (gap indent k : jsstring) (x : json)
      (tail : jsstring) :
  member_text gap indent (k, x) ++ tail
  = dquote :: quote_chars k
      ++ dquote :: ch ":" :: colon_space gap
      ++ serialize gap indent x ++ tail.
Proof.
  unfold member_text, quote. cbn [fst snd]. rewrite <- !app_assoc.
  reflexivity.
Qed.

Lemma parse_members_join (sp gap indent : jsstring)
      (ms : list (jsstring * json)) :
  json_ws sp -> json_ws gap -> json_ws indent -> ms <> [] ->
  Forall (fun kv => reads_back (snd kv)) ms ->
  forall (out rest : jsstring) (g : nat),
    json_ws out ->
    2 * length (sp ++ join (ch "," :: sp) (map (member_text gap indent) ms)
                   ++ out ++ ch "}" :: rest) + 3 <= g ->
    parse_members g (sp ++ join (ch "," :: sp)
                                (map (member_text gap indent) ms)
                        ++ out ++ ch "}" :: rest)
    = Some (ms, rest).
Proof.
  intros Hsp Hgap Hind Hne Hall.
  induction Hall as [|[k x] ms Hx Hms IH]; [contradiction|].
  clear Hne. cbn [snd] in Hx. intros out rest [|f] Hout Hg; [lia|].
  rewrite parse_members_prefix by assumption.
  rewrite length_app in Hg.
  pose proof (json_ws_colon_space gap) as Hcs.
  destruct ms as [|m ms'].
  - cbn [map join] in *. rewrite member_text_app in *.
    rewrite parse_members_quote, parse_string_body_quote_chars.
    change (skip_ws (ch ":" :: ?t)) with (ch ":" :: t).
    cbv beta iota. rewrite N.eqb_refl.
    rewrite parse_value_prefix by assumption.
    cbn [length] in Hg. rewrite length_app in Hg. cbn [length] in Hg.
    rewrite length_app in Hg.
    rewrite (Hx gap indent (out ++ ch "}" :: rest) f);
      [|assumption|assumption
       |apply stops_prefix; [assumption|now right; right; right]|lia].
    rewrite skip_ws_prefix by assumption. reflexivity.
  - change (join (ch "," :: sp)
              (map (member_text gap indent) ((k, x) :: m :: ms')))
      with (member_text gap indent (k, x) ++ (ch "," :: sp)
              ++ join (ch "," :: sp)
                      (map (member_text gap indent) (m :: ms'))) in *.
    rewrite <- !app_assoc in *. rewrite <- !app_comm_cons in *.
    rewrite member_text_app in *.
    rewrite parse_members_quote, parse_string_body_quote_chars.
    change (skip_ws (ch ":" :: ?t)) with (ch ":" :: t).
    cbv beta iota. rewrite N.eqb_refl.
    rewrite parse_value_prefix by assumption.
    cbn [length] in Hg. rewrite length_app in Hg. cbn [length] in Hg.
    rewrite length_app in Hg.
    rewrite (Hx gap indent (ch "," :: _) f);
      [|assumption|assumption|now right; left|lia].
    change (skip_ws (ch "," :: ?t)) with (ch "," :: t).
    cbv beta iota. rewrite N.eqb_refl.
    rewrite IH; [reflexivity|discriminate|assumption|].
    rewrite length_app in Hg. cbn [length] in Hg. lia.
Qed.

Lemma elements_head (g : nat) (s : jsstring) (r : list json * jsstring) :
  parse_elements g s = Some r ->
  exists c1 r1, skip_ws s = c1 :: r1 /\ c1 <> ch "]".
Proof.
  destruct g as [|f]; [discriminate|]. cbn [parse_elements].
  destruct (parse_value f s) as [p|] eqn:E; [|discriminate]. intros _.
  destruct (value_head _ _ E) as (c1 & r1 & Es & H1 & _). now exists c1, r1.
Qed.

Lemma members_head (g : nat) (s : jsstring)
      (r : list (jsstring * json) * jsstring) :
  parse_members g s = Some r -> exists r1, skip_ws s = dquote :: r1.
Proof.
  destruct g as [|f]; [discriminate|]. cbn [parse_members].
  destruct (skip_ws s) as [|q r0]; [discriminate|].
  destruct (N.eqb_spec q dquote) as [->|_]; [|discriminate].
  intros _. now exists r0.
Qed.

(** The reader gives back every portable value [JSON.stringify] wrote,
    with or without indentation. *)
Lemma portable_reads_back (v : json) : portable v -> reads_back v.
Proof.
  induction v as [|b|x|s|items IH|props IH] using json_induction;
    intros Hv gap indent rest [|f] Hgap Hind Hr Hg; try lia.
  - reflexivity.
  - destruct b; reflexivity.
  - cbn [portable] in Hv. cbn [serialize] in *.
    destruct (@number_toString_head x Hv) as (c & r & E & Hc).
    pose proof (@parse_number_toString x rest Hv Hr) as Hp.
    rewrite E in *. cbn [app] in *.
    now rewrite (@parse_value_number f c _ Hc), Hp.
  - change (serialize gap indent (JStr s) ++ rest)
      with (dquote :: (quote_chars s ++ [dquote]) ++ rest).
    rewrite <- app_assoc. cbn [app].
    now rewrite parse_value_quote, parse_string_body_quote_chars.
  - destruct items as [|x xs]; [reflexivity|].
    apply portable_array in Hv.
    assert (Hi : json_ws (indent ++ gap)) by now apply json_ws_app.
    assert (Hall : Forall (fun y => forall rest g, stops rest ->
                      2 * length (serialize gap (indent ++ gap) y ++ rest) + 2
                      <= g ->
                      parse_value g (serialize gap (indent ++ gap) y ++ rest)
                      = Some (y, rest)) (x :: xs)).
    { rewrite Forall_forall in *. intros y Hy rest' g' Hr' Hg'.
      apply IH; auto. }
    rewrite serialize_array in *. cbn [map] in *. rewrite wrap_parts in *.
    change (str "[" ++ ?t) with (ch "[" :: t) in *.
    rewrite <- app_comm_cons, <- !app_assoc in Hg |- *. cbn [length] in Hg.
    change (str "]" ++ rest) with (ch "]" :: rest) in *.
    assert (He : parse_elements f
                   (inner_space gap indent
                      ++ join (ch "," :: inner_space gap indent)
                              (map (serialize gap (indent ++ gap)) (x :: xs))
                      ++ outer_space gap indent ++ ch "]" :: rest)
                 = Some (x :: xs, rest)).
    { apply parse_elements_join;
        [now apply json_ws_inner_space|discriminate|exact Hall
        |now apply json_ws_outer_space|cbn [map]; lia]. }
    destruct (elements_head _ _ He) as (c1 & r1 & Es & H1).
    cbn [map] in He, Es. cbn [app].
    rewrite parse_value_bracket, Es, He.
    apply N.eqb_neq in H1. now rewrite H1.
  - destruct props as [|kv ps]; [reflexivity|].
    apply portable_object in Hv as [Hk Hv].
    assert (Hi : json_ws (indent ++ gap)) by now apply json_ws_app.
    assert (Hall : Forall (fun kv => reads_back (snd kv)) (kv :: ps)).
    { rewrite Forall_forall in *. intros y Hy. apply IH; auto. }
    rewrite serialize_object in *. cbn [map] in *. rewrite wrap_parts in *.
    change (str "{" ++ ?t) with (ch "{" :: t) in *.
    rewrite <- app_comm_cons, <- !app_assoc in Hg |- *. cbn [length] in Hg.
    change (str "}" ++ rest) with (ch "}" :: rest) in *.
    assert (He : parse_members f
                   (inner_space gap indent
                      ++ join (ch "," :: inner_space gap indent)
                              (map (member_text gap (indent ++ gap))
                                   (kv :: ps))
                      ++ outer_space gap indent ++ ch "}" :: rest)
                 = Some (kv :: ps, rest)).
    { apply parse_members_join;
        [now apply json_ws_inner_space|assumption|assumption|discriminate
        |exact Hall|now apply json_ws_outer_space|cbn [map]; lia]. }
    destruct (members_head _ _ He) as (r1 & Es).
    cbn [map] in He, Es. cbn [app].
    rewrite parse_value_brace, Es, He.
    change (dquote =? ch "}")%N with false. cbv iota.
    now rewrite object_of_members_portable.
Qed.

Lemma JSON_parse_serialize (gap indent : jsstring) (v : json) :
  json_ws gap -> json_ws indent -> portable v ->
  JSON_parse (serialize gap indent v) = Some v.
Proof.
  intros Hgap Hind Hv.
  apply (@JSON_parse_any_fuel
           (2 * length (serialize gap indent v ++ []) + 2) _ []);
    [|reflexivity].
  rewrite <- (app_nil_r (serialize gap indent v)) at 2.
  apply portable_reads_back; [exact Hv|assumption|assumption|exact I|lia].
Qed.

Lemma json_ws_spaces (n : nat) : json_ws (repeat (ch " ") n).
Proof. unfold json_ws. induction n as [|n IH]; [reflexivity|exact IH]. Qed.

Lemma JSON_parse_stringify (v : json) :
  portable v -> JSON_parse (JSON_stringify v) = Some v.
Proof. intros Hv. now apply JSON_parse_serialize. Qed.

Lemma JSON_parse_stringify_indent (n : nat) (v : json) :
  portable v -> JSON_parse (JSON_stringify_indent n v) = Some v.
Proof.
  intros Hv. apply JSON_parse_serialize;
    [apply json_ws_spaces|reflexivity|exact Hv].
Qed.

(** X23.  [JSON.parse] reads back what [JSON.stringify] wrote: for a
    portable value [v], both [JSON.stringify(v)], which the resources
    send, and [JSON.stringify(v, null, n)], which [createUser] writes to
    the file and the driver prints, parse to [v] itself. *)
Theorem stringify_parse_round_trip (v : json) (n : nat) :
  portable v ->
  JSON_parse (JSON_stringify v) = Some v
  /\ JSON_parse (JSON_stringify_indent n v) = Some v.
Proof.
  intros Hv. split.
  - now apply JSON_parse_serialize.
  - apply JSON_parse_serialize; [apply json_ws_spaces|reflexivity|exact Hv].
Qed.

End RoundTrip.

(* ================================================================== *)
(** * The driver reading from the server *)
(* ================================================================== *)

Section EndToEnd.
Import JS Eff MCP Notions Invariants Server Client.

Lemma drop_zeros_idempotent (l : list N) :
  drop_zeros (drop_zeros l) = drop_zeros l.
Proof.
  induction l as [|d l IH]; [reflexivity|]. cbn [drop_zeros].
  destruct (d =? 0)%N eqn:E; [exact IH|]. cbn [drop_zeros]. now rewrite E.
Qed.

(** Record counts are whole numbers. *)
Lemma whole_number_of_nat (n : nat) :
  (N.of_nat n < 10 ^ 21)%N -> whole (number_of_nat n).
Proof.
  intros Hn. unfold number_of_nat, number_of_Z, make_number.
  replace (Z.abs_N (Z.of_nat n)) with (N.of_nat n) by lia.
  set (ds := decimal_digits (N.of_nat n)).
  set (lead := drop_zeros ds).
  destruct (trailing_zeros_split lead) as (m & E & L).
  set (sig := rev (drop_zeros (rev lead))) in *.
  assert (Hs : drop_zeros (rev sig) = rev sig).
  { unfold sig. now rewrite rev_involutive, drop_zeros_idempotent. }
  assert (Hb : Forall (fun x => (x < 10)%N) sig).
  { assert (Hl : Forall (fun x => (x < 10)%N) lead)
      by apply drop_zeros_below_10, uint_digits_below_10.
    rewrite E in Hl. now apply Forall_app in Hl. }
  assert (Hv : radix_value 10 lead = N.of_nat n).
  { unfold lead, ds.
    now rewrite radix_value_drop_zeros, radix_value_decimal_digits. }
  destruct sig as [|d r] eqn:Esig; [reflexivity|].
  unfold whole. cbn [digits point].
  assert (Hd : d <> 0%N).
  { apply (@drop_zeros_head ds d (r ++ repeat 0%N m)). fold lead.
    now rewrite E. }
  assert (Hlen : length lead <= 21).
  { rewrite E in *. cbn [app] in *. apply short_spelling; [exact Hd|].
    now rewrite Hv. }
  repeat split; try assumption.
  - cbn [drop_zeros]. apply N.eqb_neq in Hd. now rewrite Hd.
  - lia.
  - lia.
Qed.

Lemma user_record_portable (id : nat) (p : UserParams) :
  (N.of_nat id < 10 ^ 21)%N -> portable (JObj (user_record id p)).
Proof.
  intros H. apply portable_object. split; [split|].
  - cbn. repeat constructor; cbn; intuition discriminate.
  - repeat constructor.
  - repeat constructor. cbn [snd portable]. now apply whole_number_of_nat.
Qed.

Lemma users_array_portable (users : list object) :
  Forall (fun user => portable (JObj user)) users -> portable (users_array users).
Proof.
  intros H. apply portable_array. now apply Forall_map.
Qed.

Lemma ada_user_portable (id : nat) :
  (N.of_nat id < 10 ^ 21)%N -> portable (JObj (ada_user id)).
Proof. exact (user_record_portable id ada_params). Qed.

Lemma stringify_parse_round_trip_witness :
  JSON_parse (JSON_stringify (users_array [ada_user 1; ada_user 2]))
  = Some (users_array [ada_user 1; ada_user 2])
  /\ JSON_parse (JSON_stringify_indent 2
                   (users_array [ada_user 1; ada_user 2]))
     = Some (users_array [ada_user 1; ada_user 2]).
Proof.
  apply (@stringify_parse_round_trip (users_array [ada_user 1; ada_user 2]) 2).
  apply (@users_array_portable [ada_user 1; ada_user 2]).
  repeat (apply Forall_cons; [apply ada_user_portable; reflexivity|]).
    apply Forall_nil.
Defined.

(** [handleResource] once the URI is built, when the server answers
    with the serialisation of a portable value: it prints that value,
    indented by two. *)
Lemma handleResource_prints (resourceUri u : jsstring) (w w1 : world)
      (v : json) :
  fill_placeholders (placeholders resourceUri None) resourceUri w
  = (Ok u, w1) ->
  server_readResource w1 (tick w1) u
  = Ok (json_contents u (JSON_stringify v)) ->
  portable v ->
  handleResource resourceUri w
  = (Ok tt,
     record (Printed (JSON_stringify_indent 2 v))
       (record (ResourceRead u (Ok (json_contents u (JSON_stringify v))))
               w1)).
Proof.
  intros Hfill Hread Hv. unfold handleResource, bind at 1. rewrite Hfill.
  unfold bind, readResource, perform. rewrite Hread.
  cbn [json_contents text]. now rewrite (JSON_parse_stringify v Hv).
Qed.

(** X24.  Driver and server together: when the server answers the read
    of a URI without braces as the resource [users] does from a state
    whose records are portable and whose file is in step with them,
    [handleResource] prints exactly the text of the users file (and
    returns normally). *)
Theorem handleResource_prints_users_file
    (s : state) (w : world) (resourceUri : jsstring) :
  brace_free resourceUri ->
  server_readResource w (tick w) resourceUri = fst (users resourceUri s) ->
  Forall (fun user => portable (JObj user)) (allUsers s) ->
  in_sync s ->
  handleResource resourceUri w
  = (Ok tt,
     record (Printed (users_file s))
       (record (ResourceRead resourceUri (fst (users resourceUri s))) w)).
Proof.
  intros Hb Hread Hs Hsync. rewrite Hsync.
  apply handleResource_prints.
  - rewrite <- (app_nil_r resourceUri) at 1.
    now rewrite placeholders_skip.
  - exact Hread.
  - now apply users_array_portable.
Qed.

Lemma handleResource_prints_users_file_witness :
  let s := server_with [ada_user 1; ada_user 2] None [] in
  let w := served (fun uri => fst (users uri s)) [] in
  handleResource (str "users://all") w
  = (Ok tt,
     record (Printed (users_file s))
       (record (ResourceRead (str "users://all")
                  (fst (users (str "users://all") s))) w)).
Proof.
  intros s w. apply (@handleResource_prints_users_file s w (str "users://all")).
  - reflexivity.
  - reflexivity.
  - repeat (apply Forall_cons; [apply ada_user_portable; reflexivity|]).
    apply Forall_nil.
  - reflexivity.
Defined.

Lemma dollar_free_digits (l : list N) :
  Forall (fun x => (x < 10)%N) l -> dollar_free (map digit_char l).
Proof.
  unfold dollar_free. induction 1 as [|d l Hd _ IH]; [reflexivity|].
  cbn [map forallb]. rewrite IH, andb_true_r. apply negb_true_iff.
  apply N.eqb_neq. unfold digit_char. change (ch "$") with 36%N. lia.
Qed.

Lemma dollar_free_id_text (k : nat) :
  (N.of_nat k < 10 ^ 21)%N -> dollar_free (id_text k).
Proof.
  intros Hk. destruct k as [|k]; [reflexivity|].
  destruct (@id_text_digits (S k)) as [-> _]; [discriminate|exact Hk|].
  apply dollar_free_digits, drop_zeros_below_10, uint_digits_below_10.
Qed.

(** X25.  Driver and server together: on a template [pre{userId}post]
    the operator types the position [k] of a record of a well-numbered
    store; when the server answers the read of the filled-in URI as the
    resource [user-details] does for that [userId], [handleResource]
    prints that record, indented by two. *)
Theorem handleResource_shows_profile
    (s : state) (w : world) (pre post : jsstring) (k : nat) (user : object) :
  brace_free pre -> brace_free post ->
  well_numbered (allUsers s) -> (N.of_nat k < 10 ^ 21)%N ->
  nth_error (allUsers s) (k - 1) = Some user -> 0 < k ->
  portable (JObj user) ->
  user_input w (tick w) = id_text k ->
  let uri := pre ++ id_text k ++ post in
  let w1 := record (Entered (argument_question (str "userId")) (id_text k))
                   w in
  server_readResource w1 (tick w1) uri
  = fst (user_details uri (id_text k) s) ->
  handleResource (template pre (str "userId") post) w
  = (Ok tt,
     record (Printed (JSON_stringify_indent 2 (JObj user)))
       (record (ResourceRead uri (fst (user_details uri (id_text k) s)))
               w1)).
Proof.
  intros Hpre Hpost Hw Hk Hn Hpos Hu Hin uri w1 Hread.
  rewrite (@lookup_present s uri k user Hw Hk Hn Hpos) in *. cbn [fst] in *.
  apply handleResource_prints; [|exact Hread|exact Hu].
  rewrite placeholders_template by (assumption || discriminate || reflexivity).
  cbn [fill_placeholders]. unfold bind, input. rewrite Hin.
  rewrite parameterName_of_placeholder by reflexivity.
  rewrite replace_placeholder by (assumption || now apply dollar_free_id_text).
  reflexivity.
Qed.

Lemma handleResource_shows_profile_witness :
  let s := server_with [ada_user 1; ada_user 2] None [] in
  let uri := str "users://2/profile" in
  let w := served (fun uri => fst (user_details uri (str "2") s)) (str "2") in
  let w1 := record (Entered (str "Enter value for userId:") (str "2")) w in
  handleResource (str "users://{userId}/profile") w
  = (Ok tt,
     record (Printed (JSON_stringify_indent 2 (JObj (ada_user 2))))
       (record (ResourceRead uri (fst (user_details uri (str "2") s))) w1)).
Proof.
  intros s uri w w1.
  apply (@handleResource_shows_profile s w (str "users://") (str "/profile")
           2 (ada_user 2)).
  - reflexivity.
  - reflexivity.
  - exact well_numbered_two.
  - reflexivity.
  - reflexivity.
  - lia.
  - apply ada_user_portable. reflexivity.
  - reflexivity.
  - reflexivity.
Defined.

(** X26.  What a successful [create-user] leaves in the users file
    parses back to exactly the array in memory, the new record included,
    when the records before were portable: the file a later start of the
    server imports holds the same store. *)
Theorem create_user_file_reads_back (s : state) (p : UserParams) :
  fs_error s = None ->
  Forall (fun user => portable (JObj user)) (allUsers s) ->
  (N.of_nat (length (allUsers s) + 1) < 10 ^ 21)%N ->
  JSON_parse (users_file (snd (create_user p s)))
  = Some (users_array (allUsers (snd (create_user p s)))).
Proof.
  intros Hf Hs Hn. rewrite (create_user_written s p Hf).
  cbn [snd users_file allUsers].
  apply JSON_parse_stringify_indent, users_array_portable, Forall_app.
  split; [exact Hs|]. constructor; [|constructor].
  now apply user_record_portable.
Qed.

Lemma create_user_file_reads_back_witness :
  let s := server_with [ada_user 1] None [] in
  JSON_parse (users_file (snd (create_user ada_params s)))
  = Some (users_array [ada_user 1; ada_user 2]).
Proof.
  intros s. apply (@create_user_file_reads_back s ada_params).
  - reflexivity.
  - repeat (apply Forall_cons; [apply ada_user_portable; reflexivity|]).
    apply Forall_nil.
  - reflexivity.
Defined.

(** X27.  [create-user] keeps every record portable, whether its write
    succeeds or not, as long as the new id is below [10^21]. *)
Theorem create_user_keeps_portable (s : state) (p : UserParams) :
  Forall (fun user => portable (JObj user)) (allUsers s) ->
  (N.of_nat (length (allUsers s) + 1) < 10 ^ 21)%N ->
  Forall (fun user => portable (JObj user)) (allUsers (snd (create_user p s))).
Proof.
  intros Hs Hn. rewrite create_user_grows. apply Forall_app. split; [exact Hs|].
  constructor; [|constructor]. now apply user_record_portable.
Qed.

Lemma create_user_keeps_portable_witness :
  let s := server_with [ada_user 1] (Some (str "EACCES")) [] in
  Forall (fun user => portable (JObj user))
         (allUsers (snd (create_user ada_params s))).
Proof.
  intros s. apply (@create_user_keeps_portable s ada_params).
  - repeat (apply Forall_cons; [apply ada_user_portable; reflexivity|]).
    apply Forall_nil.
  - reflexivity.
Defined.

Lemma tick_record (e : event) (w : world) : tick (record e w) = tick w + 1.
Proof. unfold tick. rewrite log_record, length_app. reflexivity. Qed.

(** X28.  Driver and server together: for a prompt with the one
    argument [name], when the server answers the fetch as the prompt
    [generate-fake-user] does for the value typed, the operator confirms
    and the model answers without asking for a tool, [handlePrompt]
    asks for the name, fetches the prompt with [{ name }], prints the
    server's text, asks, calls the model on exactly that text and prints
    its answer, in this order and nothing else. *)
Theorem handlePrompt_runs_generate_fake_user
    (prompt : Prompt) (w : world) (g : generation) :
  prompt_arguments prompt = [str "name"] ->
  let v := user_input w (tick w) in
  let promptArguments := [(str "name", JStr v)] in
  let message :=
    str "Generate a fake user with the name " ++ v
      ++ str ". The user should have a realistic email, address, and phone number." in
  server_getPrompt w (tick w + 1) (prompt_name prompt) promptArguments
  = Ok (generate_fake_user v) ->
  user_confirm w (tick w + 3) = true ->
  llm w (tick w + 4) message = Ok g ->
  gen_toolCalls g = [] ->
  exists w',
    handlePrompt prompt w = (Ok tt, w')
    /\ log w'
       = log w
           ++ [Entered (str "Enter value for name:") v;
               PromptFetched (prompt_name prompt) promptArguments
                             (Ok (generate_fake_user v));
               Printed message;
               Confirmed (str "Would you like to run the above prompt") true;
               Generated message (Ok g);
               Printed (gen_text g)].
Proof.
  intros Ha v promptArguments message Hp Hc Hm Hg.
  unfold handlePrompt. rewrite Ha. cbn [ask_arguments].
  unfold bind at 1 2, input. fold v.
  set (w1 := record (Entered _ v) w).
  change (obj_assign (str "name") v []) with promptArguments.
  unfold ret at 1. cbv beta iota.
  unfold bind at 1, getPrompt, perform.
  assert (T1 : tick w1 = tick w + 1) by apply tick_record.
  change (server_getPrompt w1) with (server_getPrompt w). rewrite T1, Hp.
  set (w2 := record (PromptFetched _ _ _) w1).
  assert (T2 : tick w2 = tick w + 2) by (unfold w2; rewrite tick_record; lia).
  cbn [generate_fake_user for_of].
  unfold handleServerMessagePrompt. cbn [msg_content]. fold message.
  unfold bind, console_log, modify, confirm.
  set (w3 := record (Printed message) w2).
  assert (T3 : tick w3 = tick w + 3) by (unfold w3; rewrite tick_record; lia).
  change (user_confirm w3) with (user_confirm w).
  rewrite T3, Hc. cbn [negb].
  set (w4 := record (Confirmed _ true) w3).
  assert (T4 : tick w4 = tick w + 4) by (unfold w4; rewrite tick_record; lia).
  unfold generateText, generateText_steps, bind, call_model, perform.
  change (llm w4) with (llm w). rewrite T4, Hm, Hg.
  cbn [execute_all ret result_text].
  eexists. split; [reflexivity|].
  rewrite !log_record. unfold w4, w3, w2, w1. rewrite !log_record.
  now rewrite <- !app_assoc.
Qed.

Lemma handlePrompt_runs_generate_fake_user_witness :
  let prompt := {| prompt_name := str "generate-fake-user";
                   prompt_description := None;
                   prompt_arguments := [str "name"] |} in
  let w := prompted (str "Ada") (str "Ada Lovelace") in
  let message :=
    str "Generate a fake user with the name Ada. The user should have a realistic email, address, and phone number." in
  exists w',
    handlePrompt prompt w = (Ok tt, w')
    /\ log w'
       = [Entered (str "Enter value for name:") (str "Ada");
          PromptFetched (str "generate-fake-user")
                        [(str "name", JStr (str "Ada"))]
                        (Ok (generate_fake_user (str "Ada")));
          Printed message;
          Confirmed (str "Would you like to run the above prompt") true;
          Generated message
            (Ok {| gen_text := str "Ada Lovelace"; gen_toolCalls := [] |});
          Printed (str "Ada Lovelace")].
Proof.
  intros prompt w message.
  apply (@handlePrompt_runs_generate_fake_user prompt w
           {| gen_text := str "Ada Lovelace"; gen_toolCalls := [] |});
    reflexivity.
Defined.

End EndToEnd.
